(** * COLO checkpointing: control-channel codec, checkpoint transaction,
      checkpoint loops and failover arbiter

    A shallow embedding of [migration/colo.c] (the version with the colo
    buffer, the proxy and failover) and of [migration/colo-failover.c].

    The C code is a sequence of calls into the rest of QEMU (QEMUFile,
    run-state, proxy, bottom halves, ...).  Every such call is recorded in
    an event log, in program order, together with the value it returned;
    the values that the environment decides (bytes on the wire, proxy
    verdicts, clock readings, ...) are taken from scripts held in the
    world.  A C function [T f(args)] becomes [f args : M T], a function from
    the world to an [outcome]: the call returns, the process exits, or the
    thread never returns. *)

From Stdlib Require Import String.
From Stdlib Require Import ZArith List Bool Lia.
From Stdlib Require Import Init.Byte.
Import ListNotations.
Open Scope Z_scope.

Set Implicit Arguments.

(** ** Machine integers *)

(** [uint64_t]: values are kept modulo 2^64. *)
Definition wrap_u64 (z : Z) : Z := z mod 2 ^ 64.

(** [int64_t] and [int]: two's complement wrap-around. *)
Definition wrap_s64 (z : Z) : Z := (z + 2 ^ 63) mod 2 ^ 64 - 2 ^ 63.
Definition wrap_s32 (z : Z) : Z := (z + 2 ^ 31) mod 2 ^ 32 - 2 ^ 31.

Definition byte_val (b : byte) : Z := Z.of_N (Byte.to_N b).

Definition byte_of_Z (z : Z) : byte :=
  match Byte.of_N (Z.to_N (Z.land z 255)) with
  | Some b => b
  | None => x00
  end.

(** Big-endian decoding, most significant byte first. *)
Definition be_decode (bs : list byte) : Z :=
  fold_left (fun acc b => Z.lor (Z.shiftl acc 8) (byte_val b)) bs 0.

(** The 8 bytes of a 64-bit value, most significant first. *)
Definition be64_bytes (v : Z) : list byte :=
  map (fun i => byte_of_Z (Z.shiftr v (8 * i))) [7; 6; 5; 4; 3; 2; 1; 0].

(** ** Sync tokens: the anonymous enum of colo.c *)

Definition COLO_READY : Z := 0x46.
Definition COLO_CHECKPOINT_NEW : Z := COLO_READY + 1.
Definition COLO_CHECKPOINT_SUSPENDED : Z := COLO_READY + 2.
Definition COLO_CHECKPOINT_SEND : Z := COLO_READY + 3.
Definition COLO_CHECKPOINT_RECEIVED : Z := COLO_READY + 4.
Definition COLO_CHECKPOINT_LOADED : Z := COLO_READY + 5.
Definition COLO_GUEST_SHUTDOWN : Z := COLO_READY + 6.

Definition CHECKPOINT_MIN_PERIOD : Z := 100.
Definition CHECKPOINT_MAX_PEROID : Z := 10000.

(** ** The world *)

(** The two QEMUFile handles a side uses: the migration stream
    ([s->file] on the Primary, [colo_in->file] on the Secondary) and the
    second view opened on the same socket ([colo_control], resp. [ctl]). *)
Inductive fid := Fmig | Fctl.

Definition fid_eqb (a b : fid) : bool :=
  match a, b with
  | Fmig, Fmig | Fctl, Fctl => true
  | _, _ => false
  end.

(** A QEMUFile as the code sees it: the bytes still to come on the read
    side, the outcome of the flushes still to come on the write side
    (0 = written, negative = errno), and the sticky [last_error]. *)
Record QEMUFile := mkFile {
  rx : list byte;
  flush_errs : list Z;
  last_error : Z
}.

Inductive MigrationStatus :=
| MIGRATION_STATUS_ACTIVE
| MIGRATION_STATUS_COLO
| MIGRATION_STATUS_COMPLETED
| MIGRATION_STATUS_FAILED.

Definition status_eqb (a b : MigrationStatus) : bool :=
  match a, b with
  | MIGRATION_STATUS_ACTIVE, MIGRATION_STATUS_ACTIVE
  | MIGRATION_STATUS_COLO, MIGRATION_STATUS_COLO
  | MIGRATION_STATUS_COMPLETED, MIGRATION_STATUS_COMPLETED
  | MIGRATION_STATUS_FAILED, MIGRATION_STATUS_FAILED => true
  | _, _ => false
  end.

Inductive RunState := RUN_STATE_RUNNING | RUN_STATE_PAUSED | RUN_STATE_COLO.

Inductive COLOMode := COLO_PRIMARY_MODE | COLO_SECONDARY_MODE.

(** The calls whose result the environment decides. *)
Inductive oracle :=
| OAsyncFailover     (* did the main thread raise failover since the last look *)
| OProxyInit         (* colo_proxy_init *)
| OProxyCompare      (* colo_proxy_compare *)
| OProxyCheckpoint   (* colo_proxy_checkpoint *)
| OProxyFailover     (* colo_proxy_failover *)
| OClock             (* qemu_clock_get_ms(QEMU_CLOCK_HOST) *)
| OFopenSocket       (* qemu_fopen_socket: 0 = NULL *)
| OBufopen           (* qemu_bufopen: 0 = NULL *)
| OQsbCreate         (* qsb_create: 0 = NULL *)
| OLoadvm            (* qemu_loadvm_state *)
| OIncomingCo.       (* migration_incoming_co: 0 = NULL *)

Definition oracle_eqb (a b : oracle) : bool :=
  match a, b with
  | OAsyncFailover, OAsyncFailover | OProxyInit, OProxyInit
  | OProxyCompare, OProxyCompare | OProxyCheckpoint, OProxyCheckpoint
  | OProxyFailover, OProxyFailover | OClock, OClock
  | OFopenSocket, OFopenSocket | OBufopen, OBufopen
  | OQsbCreate, OQsbCreate | OLoadvm, OLoadvm
  | OIncomingCo, OIncomingCo => true
  | _, _ => false
  end.

Inductive report :=
| UnexpectedState (expected received : Z)
| Message (text : string).

(** One entry per call into the rest of QEMU, with the value returned. *)
Inductive event :=
| EvPut64 (f : fid) (v : Z)            (* qemu_put_be64 *)
| EvPutBuffer (f : fid) (bs : list byte) (* qsb_put_buffer *)
| EvFlush (f : fid)                    (* qemu_fflush *)
| EvGet64 (f : fid) (v : Z)            (* qemu_get_be64 *)
| EvFillBuffer (f : fid) (size r : Z)  (* qsb_fill_buffer *)
| EvFopenSocket (f : fid) (ok : bool)
| EvFclose (f : fid)
| EvBufopen (write : bool) (ok : bool) (* qemu_bufopen *)
| EvBufflush                           (* qemu_fflush on a buffer view *)
| EvBufclose                           (* qemu_fclose on a buffer view *)
| EvQsbCreate (ok : bool)
| EvQsbSetLength (n : Z)
| EvQsbFree
| EvLock                               (* qemu_mutex_lock_iothread *)
| EvUnlock
| EvVmStop                             (* vm_stop_force_state(RUN_STATE_COLO) *)
| EvVmStart
| EvSavevmBegin (blk shared : Z)       (* with s->params *)
| EvSavevmComplete
| EvSystemReset                        (* qemu_system_reset(VMRESET_SILENT) *)
| EvLoadvm (r : Z)
| EvProxyInit (m : COLOMode) (r : Z)
| EvProxyDestroy (m : COLOMode)
| EvProxyCompare (r : Z)
| EvProxyCheckpoint (r : Z)
| EvProxyFailover (r : Z)
| EvClock (t : Z)
| EvSleepUs (us : Z)                   (* g_usleep / usleep *)
| EvShutdownRequestCore                (* qemu_system_shutdown_request_core *)
| EvFailoverIsSet (b : bool)           (* failover_request_is_set *)
| EvFailoverClear                      (* failover_request_clear *)
| EvMigrateSetState (from to : MigrationStatus) (swapped : bool)
| EvBhNew (id : nat)
| EvBhSchedule (id : nat)
| EvBhDelete (id : nat)
| EvThreadJoin
| EvThreadCreate
| EvCleanupBh                          (* qemu_bh_schedule(s->cleanup_bh) *)
| EvRamCacheCreate
| EvRamCacheRelease
| EvLoadvmExitColo
| EvEnterIncomingCo                    (* qemu_coroutine_enter *)
| EvErrorReport (r : report).

(** A bottom half of the main loop. *)
Record QEMUBH := mkBH { bh_scheduled : bool; bh_deleted : bool }.

Record world := mkWorld {
  files : fid -> QEMUFile;
  env : oracle -> list Z;
  log : list event;
  mig_state : MigrationStatus;        (* s->state *)
  runstate : RunState;
  vmstate : list byte;                (* what the serializer emits now *)
  colo_buffer : list byte;
  failover_request : bool;
  failover_completed : bool;
  failover_done_later : bool;         (* the main thread runs the failover bh *)
  vmstate_loading : bool;
  colo_shutdown_requested : Z;
  colo_checkpoint_period : Z;
  colo_mode : COLOMode;               (* get_colo_mode() *)
  bhs : list QEMUBH;                  (* every bottom half created so far *)
  failover_bh : option nat;
  colo_bh : option nat;
  colo : bool;                        (* static Coroutine *colo, not NULL *)
  qdev_hotplug : Z;
  autostart : bool
}.

(** Field updates. *)

Definition set_files (v : fid -> QEMUFile) (w : world) : world :=
  mkWorld v (env w) (log w) (mig_state w) (runstate w) (vmstate w)
    (colo_buffer w) (failover_request w) (failover_completed w)
    (failover_done_later w) (vmstate_loading w) (colo_shutdown_requested w)
    (colo_checkpoint_period w) (colo_mode w) (bhs w) (failover_bh w)
    (colo_bh w) (colo w) (qdev_hotplug w) (autostart w).

Definition set_env (v : oracle -> list Z) (w : world) : world :=
  mkWorld (files w) v (log w) (mig_state w) (runstate w) (vmstate w)
    (colo_buffer w) (failover_request w) (failover_completed w)
    (failover_done_later w) (vmstate_loading w) (colo_shutdown_requested w)
    (colo_checkpoint_period w) (colo_mode w) (bhs w) (failover_bh w)
    (colo_bh w) (colo w) (qdev_hotplug w) (autostart w).

Definition set_log (v : list event) (w : world) : world :=
  mkWorld (files w) (env w) v (mig_state w) (runstate w) (vmstate w)
    (colo_buffer w) (failover_request w) (failover_completed w)
    (failover_done_later w) (vmstate_loading w) (colo_shutdown_requested w)
    (colo_checkpoint_period w) (colo_mode w) (bhs w) (failover_bh w)
    (colo_bh w) (colo w) (qdev_hotplug w) (autostart w).

Definition set_mig_state (v : MigrationStatus) (w : world) : world :=
  mkWorld (files w) (env w) (log w) v (runstate w) (vmstate w)
    (colo_buffer w) (failover_request w) (failover_completed w)
    (failover_done_later w) (vmstate_loading w) (colo_shutdown_requested w)
    (colo_checkpoint_period w) (colo_mode w) (bhs w) (failover_bh w)
    (colo_bh w) (colo w) (qdev_hotplug w) (autostart w).

Definition set_runstate (v : RunState) (w : world) : world :=
  mkWorld (files w) (env w) (log w) (mig_state w) v (vmstate w)
    (colo_buffer w) (failover_request w) (failover_completed w)
    (failover_done_later w) (vmstate_loading w) (colo_shutdown_requested w)
    (colo_checkpoint_period w) (colo_mode w) (bhs w) (failover_bh w)
    (colo_bh w) (colo w) (qdev_hotplug w) (autostart w).

Definition set_vmstate (v : list byte) (w : world) : world :=
  mkWorld (files w) (env w) (log w) (mig_state w) (runstate w) v
    (colo_buffer w) (failover_request w) (failover_completed w)
    (failover_done_later w) (vmstate_loading w) (colo_shutdown_requested w)
    (colo_checkpoint_period w) (colo_mode w) (bhs w) (failover_bh w)
    (colo_bh w) (colo w) (qdev_hotplug w) (autostart w).

Definition set_colo_buffer (v : list byte) (w : world) : world :=
  mkWorld (files w) (env w) (log w) (mig_state w) (runstate w) (vmstate w)
    v (failover_request w) (failover_completed w) (failover_done_later w)
    (vmstate_loading w) (colo_shutdown_requested w)
    (colo_checkpoint_period w) (colo_mode w) (bhs w) (failover_bh w)
    (colo_bh w) (colo w) (qdev_hotplug w) (autostart w).

Definition set_failover_request (v : bool) (w : world) : world :=
  mkWorld (files w) (env w) (log w) (mig_state w) (runstate w) (vmstate w)
    (colo_buffer w) v (failover_completed w) (failover_done_later w)
    (vmstate_loading w) (colo_shutdown_requested w)
    (colo_checkpoint_period w) (colo_mode w) (bhs w) (failover_bh w)
    (colo_bh w) (colo w) (qdev_hotplug w) (autostart w).

Definition set_failover_completed (v : bool) (w : world) : world :=
  mkWorld (files w) (env w) (log w) (mig_state w) (runstate w) (vmstate w)
    (colo_buffer w) (failover_request w) v (failover_done_later w)
    (vmstate_loading w) (colo_shutdown_requested w)
    (colo_checkpoint_period w) (colo_mode w) (bhs w) (failover_bh w)
    (colo_bh w) (colo w) (qdev_hotplug w) (autostart w).

Definition set_vmstate_loading (v : bool) (w : world) : world :=
  mkWorld (files w) (env w) (log w) (mig_state w) (runstate w) (vmstate w)
    (colo_buffer w) (failover_request w) (failover_completed w)
    (failover_done_later w) v (colo_shutdown_requested w)
    (colo_checkpoint_period w) (colo_mode w) (bhs w) (failover_bh w)
    (colo_bh w) (colo w) (qdev_hotplug w) (autostart w).

Definition set_colo_shutdown_requested (v : Z) (w : world) : world :=
  mkWorld (files w) (env w) (log w) (mig_state w) (runstate w) (vmstate w)
    (colo_buffer w) (failover_request w) (failover_completed w)
    (failover_done_later w) (vmstate_loading w) v
    (colo_checkpoint_period w) (colo_mode w) (bhs w) (failover_bh w)
    (colo_bh w) (colo w) (qdev_hotplug w) (autostart w).

Definition set_colo_checkpoint_period (v : Z) (w : world) : world :=
  mkWorld (files w) (env w) (log w) (mig_state w) (runstate w) (vmstate w)
    (colo_buffer w) (failover_request w) (failover_completed w)
    (failover_done_later w) (vmstate_loading w) (colo_shutdown_requested w)
    v (colo_mode w) (bhs w) (failover_bh w) (colo_bh w) (colo w)
    (qdev_hotplug w) (autostart w).

Definition set_bhs (v : list QEMUBH) (w : world) : world :=
  mkWorld (files w) (env w) (log w) (mig_state w) (runstate w) (vmstate w)
    (colo_buffer w) (failover_request w) (failover_completed w)
    (failover_done_later w) (vmstate_loading w) (colo_shutdown_requested w)
    (colo_checkpoint_period w) (colo_mode w) v (failover_bh w) (colo_bh w)
    (colo w) (qdev_hotplug w) (autostart w).

Definition set_failover_bh (v : option nat) (w : world) : world :=
  mkWorld (files w) (env w) (log w) (mig_state w) (runstate w) (vmstate w)
    (colo_buffer w) (failover_request w) (failover_completed w)
    (failover_done_later w) (vmstate_loading w) (colo_shutdown_requested w)
    (colo_checkpoint_period w) (colo_mode w) (bhs w) v (colo_bh w) (colo w)
    (qdev_hotplug w) (autostart w).

Definition set_colo_bh (v : option nat) (w : world) : world :=
  mkWorld (files w) (env w) (log w) (mig_state w) (runstate w) (vmstate w)
    (colo_buffer w) (failover_request w) (failover_completed w)
    (failover_done_later w) (vmstate_loading w) (colo_shutdown_requested w)
    (colo_checkpoint_period w) (colo_mode w) (bhs w) (failover_bh w) v
    (colo w) (qdev_hotplug w) (autostart w).

Definition set_colo (v : bool) (w : world) : world :=
  mkWorld (files w) (env w) (log w) (mig_state w) (runstate w) (vmstate w)
    (colo_buffer w) (failover_request w) (failover_completed w)
    (failover_done_later w) (vmstate_loading w) (colo_shutdown_requested w)
    (colo_checkpoint_period w) (colo_mode w) (bhs w) (failover_bh w)
    (colo_bh w) v (qdev_hotplug w) (autostart w).

Definition set_qdev_hotplug (v : Z) (w : world) : world :=
  mkWorld (files w) (env w) (log w) (mig_state w) (runstate w) (vmstate w)
    (colo_buffer w) (failover_request w) (failover_completed w)
    (failover_done_later w) (vmstate_loading w) (colo_shutdown_requested w)
    (colo_checkpoint_period w) (colo_mode w) (bhs w) (failover_bh w)
    (colo_bh w) (colo w) v (autostart w).

Definition set_autostart (v : bool) (w : world) : world :=
  mkWorld (files w) (env w) (log w) (mig_state w) (runstate w) (vmstate w)
    (colo_buffer w) (failover_request w) (failover_completed w)
    (failover_done_later w) (vmstate_loading w) (colo_shutdown_requested w)
    (colo_checkpoint_period w) (colo_mode w) (bhs w) (failover_bh w)
    (colo_bh w) (colo w) (qdev_hotplug w) v.

Definition emit (e : event) (w : world) : world := set_log (log w ++ [e]) w.

Definition set_file (f : fid) (q : QEMUFile) (w : world) : world :=
  set_files (fun g => if fid_eqb f g then q else files w g) w.

(** ** Outcomes and the monad of the embedding *)

Inductive outcome (A : Type) : Type :=
| Done (a : A) (w : world)      (* the call returns [a] *)
| Exited (code : Z) (w : world) (* exit(code) *)
| Hung (w : world)              (* the thread never returns *)
| Unfinished (w : world).       (* the loop was cut short by its fuel *)

Arguments Exited {A} code w.
Arguments Hung {A} w.
Arguments Unfinished {A} w.

Definition M (A : Type) : Type := world -> outcome A.

Definition ret {A} (a : A) : M A := fun w => Done a w.

Definition bind {A B} (m : M A) (k : A -> M B) : M B :=
  fun w =>
    match m w with
    | Done a w' => k a w'
    | Exited c w' => Exited c w'
    | Hung w' => Hung w'
    | Unfinished w' => Unfinished w'
    end.

Declare Scope colo_scope.
Delimit Scope colo_scope with colo.
Notation "x <- m ;; k" := (bind m (fun x => k))
  (at level 61, m at next level, right associativity) : colo_scope.
Notation "m ;;; k" := (bind m (fun _ => k))
  (at level 61, right associativity) : colo_scope.
Open Scope colo_scope.

(** The world an outcome ends in. *)
Definition final {A} (o : outcome A) : world :=
  match o with
  | Done _ w | Exited _ w | Hung w | Unfinished w => w
  end.

Definition call (e : event) : M unit := fun w => Done tt (emit e w).

(** Reading and writing a variable of the program. *)
Definition gets {A} (p : world -> A) : M A := fun w => Done (p w) w.

Definition modify (g : world -> world) : M unit := fun w => Done tt (g w).

(** The fuel of a loop is used up. *)
Definition out_of_fuel {A} : M A := fun w => Unfinished w.

Definition exit {A} (code : Z) : M A := fun w => Exited code w.

(** [for (;;) { ; }] *)
Definition park {A} : M A := fun w => Hung w.

Definition error_report (r : report) : M unit := call (EvErrorReport r).

(** The next answer of the environment to oracle [o]; [dflt] once the
    script is used up. *)
Definition ask (o : oracle) (dflt : Z) : M Z :=
  fun w =>
    Done (hd dflt (env w o))
      (set_env (fun o' => if oracle_eqb o o' then tl (env w o) else env w o') w).

(** ** The QEMUFile layer

    Modelled from the spec: [qemu_put_be64], [qemu_get_be64],
    [qemu_fflush] and [qemu_file_get_error] are not part of colo.c.  The
    spec has the codec write and read "an 8-byte big-endian value" on a byte
    stream and return the "channel error if any"; a short read is a channel
    error ([-EIO]), and the first error of a file sticks. *)

Definition EIO : Z := 5.

(** Modelled from the spec: [qemu_file_set_error] (qemu-file.c): the first
    error of a file sticks. *)
Definition qemu_file_set_error (q : QEMUFile) (e : Z) : QEMUFile :=
  if last_error q =? 0 then mkFile (rx q) (flush_errs q) e else q.

(** Modelled from the spec: [qemu_file_get_error] (qemu-file.c), the
    "channel error if any". *)
Definition qemu_file_get_error (f : fid) : M Z :=
  fun w => Done (last_error (files w f)) w.

(** Modelled from the spec: [qemu_put_be64] (qemu-file.c), the write of "an
    8-byte big-endian value". *)
Definition qemu_put_be64 (f : fid) (v : Z) : M unit := call (EvPut64 f v).

(** Modelled from the spec: what [qemu_fflush] leaves of a file: the next
    scripted outcome is used up, and a negative one is recorded as the
    error of the file. *)
Definition flush_file (q : QEMUFile) : QEMUFile :=
  match flush_errs q with
  | [] => q
  | e :: es =>
      let q1 := mkFile (rx q) es (last_error q) in
      if e <? 0 then qemu_file_set_error q1 e else q1
  end.

(** Modelled from the spec: [qemu_fflush] (qemu-file.c), the flush of the
    codec. *)
Definition qemu_fflush (f : fid) : M unit :=
  fun w => Done tt (emit (EvFlush f) (set_file f (flush_file (files w f)) w)).

(** The first [n] elements of a list and the rest, for a count [n] that
    may be far larger than the list. *)
Fixpoint ztake {A} (n : Z) (l : list A) : list A :=
  match l with
  | [] => []
  | a :: l' => if n <=? 0 then [] else a :: ztake (n - 1) l'
  end.

Fixpoint zdrop {A} (n : Z) (l : list A) : list A :=
  match l with
  | [] => []
  | a :: l' => if n <=? 0 then l else zdrop (n - 1) l'
  end.

(** Modelled from the spec: the bytes a read of [n] bytes obtains: what is
    there, at most [n]. *)
Definition take_bytes (n : Z) (q : QEMUFile) : list byte := ztake n (rx q).

(** Modelled from the spec: what a read of [n] bytes leaves of a file; a
    short read is a channel error ([-EIO]). *)
Definition drop_bytes (n : Z) (q : QEMUFile) : QEMUFile :=
  let q1 := mkFile (zdrop n (rx q)) (flush_errs q) (last_error q) in
  if Z.of_nat (length (rx q)) <? n then qemu_file_set_error q1 (- EIO)
  else q1.

(** Modelled from the spec: [qemu_get_be64] (qemu-file.c), the read of "an
    8-byte big-endian value". *)
Definition qemu_get_be64 (f : fid) : M Z :=
  fun w =>
    let q := files w f in
    let bs := take_bytes 8 q in
    let v := be_decode (bs ++ repeat x00 (8 - length bs)) in
    Done v (emit (EvGet64 f v) (set_file f (drop_bytes 8 q) w)).

(** ** colo checkpoint control helpers (colo.c) *)

Definition colo_ctl_put (f : fid) (request : Z) : M Z :=
  qemu_put_be64 f request ;;;
  qemu_fflush f ;;;
  ret0 <- qemu_file_get_error f ;;
  ret ret0.

(** [value] is the caller's variable; the result carries its new content. *)
Definition colo_ctl_get_value (f : fid) (value : Z) : M (Z * Z) :=
  temp <- qemu_get_be64 f ;;
  ret0 <- qemu_file_get_error f ;;
  if ret0 <? 0 then ret (-1, value)
  else ret (0, temp).

Definition colo_ctl_get (f : fid) (require : Z) : M Z :=
  r <- colo_ctl_get_value f 0 ;;
  let '(ret0, value) := r in
  if ret0 <? 0 then ret ret0
  else if negb (value =? require) then
    error_report (UnexpectedState require value) ;;;
    exit 1
  else ret ret0.

(** ** Collaborators of colo.c

    Modelled from the spec: the bottom-half scheduler, the run-state
    calls, the proxy, the serializer and loader, the sized buffer and the
    migration status live outside colo.c.  The spec lists them as the
    collaborator interfaces consumed (section 6); each call is logged and
    changes only the part of the world its name says. *)

(** Modelled from the spec: [qemu_bh_new] of the deferred-task scheduler
    (async.c). *)
Definition qemu_bh_new : M nat :=
  fun w =>
    let id := length (bhs w) in
    Done id (emit (EvBhNew id) (set_bhs (bhs w ++ [mkBH false false]) w)).

Fixpoint update_bh (id : nat) (g : QEMUBH -> QEMUBH) (l : list QEMUBH)
  : list QEMUBH :=
  match l, id with
  | [], _ => []
  | b :: l', O => g b :: l'
  | b :: l', S id' => b :: update_bh id' g l'
  end.

(** Modelled from the spec: [qemu_bh_schedule] of the deferred-task
    scheduler. *)
Definition qemu_bh_schedule (id : nat) : M unit :=
  fun w =>
    Done tt (emit (EvBhSchedule id)
      (set_bhs (update_bh id (fun b => mkBH true (bh_deleted b)) (bhs w)) w)).

(** Modelled from the spec: [qemu_bh_delete] of the deferred-task
    scheduler. *)
Definition qemu_bh_delete (id : nat) : M unit :=
  fun w =>
    Done tt (emit (EvBhDelete id)
      (set_bhs (update_bh id (fun _ => mkBH false true) (bhs w)) w)).

(** The bottom halves the main loop still has to run. *)
Definition scheduled_bhs (w : world) : nat :=
  length (filter (fun b => bh_scheduled b && negb (bh_deleted b)) (bhs w)).

(** Modelled from the spec: [migrate_set_state(s, old, new)] (migration.c),
    an "atomic compare-and-set (from -> to)". *)
Definition migrate_set_state (old new : MigrationStatus) : M unit :=
  fun w =>
    if status_eqb (mig_state w) old
    then Done tt (emit (EvMigrateSetState old new true) (set_mig_state new w))
    else Done tt (emit (EvMigrateSetState old new false) w).

(** Modelled from the spec: [runstate_is_running()] of VM control. *)
Definition runstate_is_running (w : world) : bool :=
  match runstate w with RUN_STATE_RUNNING => true | _ => false end.

(** Modelled from the spec: [runstate_check(RUN_STATE_COLO)] of VM control.
    *)
Definition runstate_check_colo (w : world) : bool :=
  match runstate w with RUN_STATE_COLO => true | _ => false end.

(** Modelled from the spec: [vm_stop_force_state(RUN_STATE_COLO)] of VM
    control. *)
Definition vm_stop_force_state : M unit :=
  fun w => Done tt (emit EvVmStop (set_runstate RUN_STATE_COLO w)).

(** Modelled from the spec: [vm_start()] of VM control. *)
Definition vm_start : M unit :=
  fun w => Done tt (emit EvVmStart (set_runstate RUN_STATE_RUNNING w)).

(** Modelled from the spec: [qemu_mutex_lock_iothread] and
    [qemu_mutex_unlock_iothread], the iothread lock. *)
Definition qemu_mutex_lock_iothread : M unit := call EvLock.
Definition qemu_mutex_unlock_iothread : M unit := call EvUnlock.

(** Modelled from the spec: [colo_proxy_init(mode)] of the network proxy,
    an [int]. *)
Definition colo_proxy_init (m : COLOMode) : M Z :=
  r <- ask OProxyInit 0 ;;
  call (EvProxyInit m (wrap_s32 r)) ;;;
  ret (wrap_s32 r).

(** Modelled from the spec: [colo_proxy_destroy(mode)] of the network
    proxy. *)
Definition colo_proxy_destroy (m : COLOMode) : M unit :=
  call (EvProxyDestroy m).

(** Modelled from the spec: [colo_proxy_compare()] of the network proxy:
    "<0 error, 0 no-trigger, >0 divergence". *)
Definition colo_proxy_compare : M Z :=
  r <- ask OProxyCompare 0 ;;
  call (EvProxyCompare (wrap_s32 r)) ;;;
  ret (wrap_s32 r).

(** Modelled from the spec: [colo_proxy_checkpoint()] of the network proxy,
    an [int]. *)
Definition colo_proxy_checkpoint : M Z :=
  r <- ask OProxyCheckpoint 0 ;;
  call (EvProxyCheckpoint (wrap_s32 r)) ;;;
  ret (wrap_s32 r).

(** Modelled from the spec: [colo_proxy_failover()] of the network proxy,
    an [int]. *)
Definition colo_proxy_failover : M Z :=
  r <- ask OProxyFailover 0 ;;
  call (EvProxyFailover (wrap_s32 r)) ;;;
  ret (wrap_s32 r).

(** Modelled from the spec: [qemu_clock_get_ms(QEMU_CLOCK_HOST)], the
    [now_ms()] of the spec, an [int64_t]. *)
Definition qemu_clock_get_ms : M Z :=
  t <- ask OClock 0 ;;
  call (EvClock (wrap_s64 t)) ;;;
  ret (wrap_s64 t).

(** Modelled from the spec: [g_usleep] and [usleep], the sleeps used for
    pacing; the argument is unsigned. *)
Definition g_usleep (us : Z) : M unit := call (EvSleepUs (wrap_u64 us)).

(** Modelled from the spec: [qemu_fopen_socket(fd, mode)] for the second
    view [f] of the socket; false is NULL. *)
Definition qemu_fopen_socket (f : fid) : M bool :=
  r <- ask OFopenSocket 1 ;;
  call (EvFopenSocket f (negb (r =? 0))) ;;;
  ret (negb (r =? 0)).

(** Modelled from the spec: [qemu_fclose] of a view of the socket. *)
Definition qemu_fclose (f : fid) : M unit := call (EvFclose f).

(** Modelled from the spec: [qsb_create(NULL, COLO_BUFFER_BASE_SIZE)], the
    allocation of the checkpoint buffer; false is NULL. *)
Definition qsb_create : M bool :=
  r <- ask OQsbCreate 1 ;;
  call (EvQsbCreate (negb (r =? 0))) ;;;
  (fun w => Done (negb (r =? 0)) (set_colo_buffer [] w)).

(** Modelled from the spec: [qsb_free(colo_buffer)]. *)
Definition qsb_free : M unit :=
  fun w => Done tt (emit EvQsbFree (set_colo_buffer [] w)).

(** Modelled from the spec: [qsb_set_length(colo_buffer, 0)], the reset of
    the buffer (length to 0). *)
Definition qsb_set_length_0 : M unit :=
  fun w => Done tt (emit (EvQsbSetLength 0) (set_colo_buffer [] w)).

(** Modelled from the spec: [qsb_get_length(colo_buffer)], a [size_t]. *)
Definition qsb_get_length : M Z :=
  fun w => Done (wrap_u64 (Z.of_nat (length (colo_buffer w)))) w.

(** Modelled from the spec: [qemu_bufopen(mode, colo_buffer)], the opening
    of a write or read view over the buffer; false is NULL. *)
Definition qemu_bufopen (write : bool) : M bool :=
  r <- ask OBufopen 1 ;;
  call (EvBufopen write (negb (r =? 0))) ;;;
  ret (negb (r =? 0)).

(** Modelled from the spec: [qemu_fflush] and [qemu_fclose] of a view
    opened by [qemu_bufopen]. *)
Definition qemu_bufflush : M unit := call EvBufflush.
Definition qemu_bufclose : M unit := call EvBufclose.

(** Modelled from the spec: [qemu_savevm_state_begin(trans, &s->params)] of
    the serializer. *)
Definition qemu_savevm_state_begin (blk shared : Z) : M unit :=
  call (EvSavevmBegin blk shared).

(** Modelled from the spec: [qemu_savevm_state_complete(trans)]: the
    serializer writes the full device state into the buffer through the
    write view. *)
Definition qemu_savevm_state_complete : M unit :=
  fun w =>
    Done tt (emit EvSavevmComplete
      (set_colo_buffer (colo_buffer w ++ vmstate w) w)).

(** Modelled from the spec: [qsb_put_buffer(f, colo_buffer, size)], the
    sending of the buffer bytes. *)
Definition qsb_put_buffer (f : fid) (size : Z) : M unit :=
  fun w => Done tt (emit (EvPutBuffer f (ztake size (colo_buffer w))) w).

(** Modelled from the spec: [qsb_fill_buffer(colo_buffer, f, size)]: "read
    exactly that many bytes into buffer", as far as there are any; the
    result is the number of bytes obtained. *)
Definition qsb_fill_buffer (f : fid) (size : Z) : M Z :=
  fun w =>
    let q := files w f in
    let bs := take_bytes size q in
    let n := Z.of_nat (length bs) in
    Done n (emit (EvFillBuffer f size n)
      (set_colo_buffer bs (set_file f (drop_bytes size q) w))).

(** Modelled from the spec: [qemu_system_reset(VMRESET_SILENT)], the silent
    VM reset. *)
Definition qemu_system_reset : M unit := call EvSystemReset.

(** Modelled from the spec: [qemu_loadvm_state(fb)] of the loader, an
    [int]. *)
Definition qemu_loadvm_state : M Z :=
  r <- ask OLoadvm 0 ;;
  call (EvLoadvm (wrap_s32 r)) ;;;
  ret (wrap_s32 r).

(** Modelled from the spec: [qemu_system_shutdown_request_core()]. *)
Definition qemu_system_shutdown_request_core : M unit :=
  call EvShutdownRequestCore.

(** ** The failover arbiter (colo-failover.c) *)

Definition failover_request_set : M unit :=
  modify (set_failover_request true) ;;;
  bh <- qemu_bh_new ;;
  modify (set_failover_bh (Some bh)) ;;;
  qemu_bh_schedule bh.

Definition qmp_colo_lost_heartbeat : M unit := failover_request_set.

(** Modelled from the spec: [failover_request_is_set] is declared in
    migration-failover.h and its body is not in colo-failover.c as given.
    The spec has it as [is_set()], a non-blocking read of the flag.  The
    flag is also raised from the main thread while the checkpoint thread
    runs: script [OAsyncFailover] says, for each look, whether that
    happened since the look before. *)
Definition failover_request_is_set : M bool :=
  a <- ask OAsyncFailover 0 ;;
  (fun w =>
     let b := negb (a =? 0) || failover_request w in
     Done b (emit (EvFailoverIsSet b) (set_failover_request b w))).

(** Modelled from the spec: [failover_request_clear], the [clear()] of the
    arbiter, is declared in migration-failover.h only. *)
Definition failover_request_clear : M unit :=
  fun w => Done tt (emit EvFailoverClear (set_failover_request false w)).

(** ** Failover actions (colo.c) *)

Definition colo_runstate_is_stopped : M bool :=
  gets (fun w => runstate_check_colo w || negb (runstate_is_running w)).

(** [while (vmstate_loading) { ; }]: nothing in this thread clears the
    flag. *)
Definition wait_vmstate_loaded : M unit :=
  fun w => if vmstate_loading w then Hung w else Done tt w.

Definition slave_do_failover : M unit :=
  wait_vmstate_loaded ;;;
  r <- colo_proxy_failover ;;
  (if negb (r =? 0)
   then error_report (Message "colo proxy failed to do failover")
   else ret tt) ;;;
  colo_proxy_destroy COLO_SECONDARY_MODE ;;;
  modify (set_colo false) ;;;
  start <- gets autostart ;;
  (if negb start
   then error_report
          (Message "-S qemu option will be ignored in colo slave side") ;;;
        (* recover runstate to normal migration finish state *)
        modify (set_autostart true)
   else ret tt) ;;;
  (* On slave side, jump to incoming co *)
  co <- ask OIncomingCo 1 ;;
  (if negb (co =? 0) then call EvEnterIncomingCo else ret tt).

Definition master_do_failover : M unit :=
  stopped <- colo_runstate_is_stopped ;;
  (if negb stopped then vm_stop_force_state else ret tt) ;;;
  colo_proxy_destroy COLO_PRIMARY_MODE ;;;
  state <- gets mig_state ;;
  (if negb (status_eqb state MIGRATION_STATUS_FAILED)
   then migrate_set_state MIGRATION_STATUS_COLO MIGRATION_STATUS_COMPLETED
   else ret tt) ;;;
  vm_start.

Definition colo_do_failover : M unit :=
  stopped <- colo_runstate_is_stopped ;;
  (if negb stopped then vm_stop_force_state else ret tt) ;;;
  mode <- gets colo_mode ;;
  match mode with
  | COLO_SECONDARY_MODE => slave_do_failover
  | COLO_PRIMARY_MODE => master_do_failover
  end ;;;
  modify (set_failover_completed true).

(** [while (!failover_completed) { ; }]: the flag is written by the main
    thread only; [failover_done_later] says whether it ever does so. *)
Definition wait_failover_completed : M unit :=
  fun w =>
    if failover_completed w then Done tt w
    else if failover_done_later w then Done tt (set_failover_completed true w)
    else Hung w.

(** ** The checkpoint transaction of the Primary (colo.c) *)

(** The label [out:] of [colo_do_checkpoint_transaction]; [trans] tells
    whether the write view is open. *)
Definition transaction_out (trans : bool) (ret0 : Z) : M Z :=
  (if trans then qemu_bufclose else ret tt) ;;;
  ret ret0.

Definition colo_do_checkpoint_transaction : M Z :=
  ret0 <- colo_ctl_put Fmig COLO_CHECKPOINT_NEW ;;
  if ret0 <? 0 then transaction_out false ret0 else
  ret0 <- colo_ctl_get Fctl COLO_CHECKPOINT_SUSPENDED ;;
  if ret0 <? 0 then transaction_out false ret0 else
  (* Reset colo buffer and open it for write *)
  qsb_set_length_0 ;;;
  trans <- qemu_bufopen true ;;
  if negb trans then
    error_report (Message "Open colo buffer for write failed") ;;;
    transaction_out false ret0
  else
  fo <- failover_request_is_set ;;
  if fo then transaction_out true (-1) else
  (* suspend and save vm state to colo buffer *)
  qemu_mutex_lock_iothread ;;;
  vm_stop_force_state ;;;
  qemu_mutex_unlock_iothread ;;;
  fo <- failover_request_is_set ;;
  if fo then transaction_out true (-1) else
  (* Disable block migration *)
  qemu_savevm_state_begin 0 0 ;;;
  qemu_mutex_lock_iothread ;;;
  qemu_savevm_state_complete ;;;
  qemu_mutex_unlock_iothread ;;;
  qemu_bufflush ;;;
  ret0 <- colo_proxy_checkpoint ;;
  if ret0 <? 0 then transaction_out true ret0 else
  ret0 <- colo_ctl_put Fmig COLO_CHECKPOINT_SEND ;;
  if ret0 <? 0 then transaction_out true ret0 else
  (* we send the total size of the vmstate first *)
  size <- qsb_get_length ;;
  ret0 <- colo_ctl_put Fmig size ;;
  if ret0 <? 0 then transaction_out true ret0 else
  qsb_put_buffer Fmig size ;;;
  qemu_fflush Fmig ;;;
  ret0 <- qemu_file_get_error Fmig ;;
  if ret0 <? 0 then transaction_out true ret0 else
  ret0 <- colo_ctl_get Fctl COLO_CHECKPOINT_RECEIVED ;;
  if ret0 <? 0 then transaction_out true ret0 else
  ret0 <- colo_ctl_get Fctl COLO_CHECKPOINT_LOADED ;;
  if ret0 <? 0 then transaction_out true ret0 else
  shutdown <- gets colo_shutdown_requested ;;
  (if negb (shutdown =? 0) then
     colo_ctl_put Fmig COLO_GUEST_SHUTDOWN ;;;
     qemu_fflush Fmig ;;;
     modify (set_colo_shutdown_requested 0) ;;;
     qemu_system_shutdown_request_core
   else ret tt) ;;;
  (* resume master *)
  qemu_mutex_lock_iothread ;;;
  vm_start ;;;
  qemu_mutex_unlock_iothread ;;;
  transaction_out true 0.

(** ** The checkpoint loop of the Primary (colo.c) *)

(** [colo_checkpoint_period] starts as [CHECKPOINT_MAX_PEROID] (see
    [quiet]) and is set by the management command. *)
Definition qmp_colo_set_checkpoint_period (value : Z) : M unit :=
  modify (set_colo_checkpoint_period value).

(** What one turn of [while (s->state == MIGRATION_STATUS_COLO)] ends in:
    the next turn, with the value of [checkpoint_time], or [out:]. *)
Inductive turn := Again (checkpoint_time : Z) | Leave.

(** The label [do_checkpoint:]. *)
Definition do_checkpoint : M turn :=
  r <- colo_do_checkpoint_transaction ;;
  if negb (r =? 0) then ret Leave
  else
    t <- qemu_clock_get_ms ;;
    ret (Again t).

Definition colo_thread_turn (checkpoint_time : Z) : M turn :=
  fo <- failover_request_is_set ;;
  if fo then
    error_report (Message "failover request") ;;;
    ret Leave
  else
  (* wait for a colo checkpoint *)
  proxy_checkpoint_req <- colo_proxy_compare ;;
  if proxy_checkpoint_req <? 0 then ret Leave
  else if negb (proxy_checkpoint_req =? 0) then
    current_time <- qemu_clock_get_ms ;;
    let interval := wrap_s64 (current_time - checkpoint_time) in
    (if interval <? CHECKPOINT_MIN_PERIOD
     then g_usleep (wrap_s64 (1000 * wrap_s64 (CHECKPOINT_MIN_PERIOD - interval)))
     else ret tt) ;;;
    do_checkpoint
  else
  current_time <- qemu_clock_get_ms ;;
  period <- gets colo_checkpoint_period ;;
  if wrap_s64 (current_time - checkpoint_time) <? period then
    g_usleep 100000 ;;;
    ret (Again checkpoint_time)
  else do_checkpoint.

Fixpoint colo_thread_loop (fuel : nat) (checkpoint_time : Z) : M unit :=
  state <- gets mig_state ;;
  if negb (status_eqb state MIGRATION_STATUS_COLO) then ret tt
  else
    match fuel with
    | O => out_of_fuel
    | S fuel' =>
        t <- colo_thread_turn checkpoint_time ;;
        match t with
        | Again checkpoint_time' => colo_thread_loop fuel' checkpoint_time'
        | Leave => ret tt
        end
    end.

(** The label [out:] of [colo_thread]; [control] tells whether
    [colo_control] is open, [dev_hotplug] is the value saved on entry. *)
Definition colo_thread_out (control : bool) (dev_hotplug : Z) : M unit :=
  error_report (Message "colo: some error happens in colo_thread") ;;;
  qemu_mutex_lock_iothread ;;;
  fo <- failover_request_is_set ;;
  (if negb fo then
     error_report (Message "master takeover from checkpoint channel") ;;;
     failover_request_set
   else ret tt) ;;;
  qemu_mutex_unlock_iothread ;;;
  wait_failover_completed ;;;
  failover_request_clear ;;;
  qsb_free ;;;
  (if control then qemu_fclose Fctl else ret tt) ;;;
  qemu_mutex_lock_iothread ;;;
  call EvCleanupBh ;;;
  qemu_mutex_unlock_iothread ;;;
  modify (set_qdev_hotplug dev_hotplug).

Definition colo_thread (fuel : nat) : M unit :=
  dev_hotplug <- gets qdev_hotplug ;;
  checkpoint_time <- qemu_clock_get_ms ;;
  r <- colo_proxy_init COLO_PRIMARY_MODE ;;
  if negb (r =? 0) then
    error_report (Message "Init colo proxy error") ;;;
    colo_thread_out false dev_hotplug
  else
  colo_control <- qemu_fopen_socket Fctl ;;
  if negb colo_control then
    error_report (Message "Open colo_control failed!") ;;;
    colo_thread_out false dev_hotplug
  else
  modify (set_qdev_hotplug 0) ;;;
  (* Wait for slave finish loading vm states and enter COLO restore. *)
  ret0 <- colo_ctl_get Fctl COLO_READY ;;
  if ret0 <? 0 then colo_thread_out true dev_hotplug else
  buffer <- qsb_create ;;
  if negb buffer then
    error_report (Message "Failed to allocate colo buffer!") ;;;
    colo_thread_out true dev_hotplug
  else
  qemu_mutex_lock_iothread ;;;
  vm_start ;;;
  qemu_mutex_unlock_iothread ;;;
  colo_thread_loop fuel checkpoint_time ;;;
  colo_thread_out true dev_hotplug.

Definition colo_start_checkpointer : M unit :=
  bh <- gets colo_bh ;;
  match bh with
  | Some b => qemu_bh_delete b ;;; modify (set_colo_bh None)
  | None => ret tt
  end ;;;
  qemu_mutex_unlock_iothread ;;;
  call EvThreadJoin ;;;
  qemu_mutex_lock_iothread ;;;
  migrate_set_state MIGRATION_STATUS_ACTIVE MIGRATION_STATUS_COLO ;;;
  call EvThreadCreate.

Definition colo_init_checkpointer : M unit :=
  bh <- qemu_bh_new ;;
  modify (set_colo_bh (Some bh)) ;;;
  qemu_bh_schedule bh.

Definition loadvm_in_colo_state : M bool := gets colo.

(** The thread that [colo_start_checkpointer] creates runs [colo_thread]. *)
Definition colo_primary_session (fuel : nat) : M unit :=
  colo_start_checkpointer ;;;
  colo_thread fuel.

(** ** The Secondary (colo.c) *)

(** The request flag of the caller goes in and comes out with the result.
    return: 0: start a checkpoint; -1: some error happened, exit colo
    restore. *)
Definition colo_wait_handle_cmd (f : fid) (checkpoint_request : Z)
  : M (Z * Z) :=
  r <- colo_ctl_get_value f 0 ;;
  let '(ret0, cmd) := r in
  if ret0 <? 0 then ret (-1, checkpoint_request)
  else if cmd =? COLO_CHECKPOINT_NEW then ret (0, 1)
  else if cmd =? COLO_GUEST_SHUTDOWN then
    qemu_mutex_lock_iothread ;;;
    qemu_system_shutdown_request_core ;;;
    qemu_mutex_unlock_iothread ;;;
    park
  else ret (-1, checkpoint_request).

(** What one turn of [while (true)] ends in: the next turn, or [out:] with
    the read view [fb] open or not. *)
Inductive incoming_turn := Next | Out (fb : bool).

Definition colo_incoming_turn : M incoming_turn :=
  r <- colo_wait_handle_cmd Fmig 0 ;;
  let '(ret0, request) := r in
  if ret0 <? 0 then ret (Out false)
  else if request =? 0 then ret Next
  else
  fo <- failover_request_is_set ;;
  if fo then
    error_report (Message "failover request") ;;;
    ret (Out false)
  else
  (* suspend guest *)
  qemu_mutex_lock_iothread ;;;
  vm_stop_force_state ;;;
  qemu_mutex_unlock_iothread ;;;
  ret0 <- colo_ctl_put Fctl COLO_CHECKPOINT_SUSPENDED ;;
  if ret0 <? 0 then ret (Out false) else
  ret0 <- colo_proxy_checkpoint ;;
  if ret0 <? 0 then ret (Out false) else
  ret0 <- colo_ctl_get Fmig COLO_CHECKPOINT_SEND ;;
  if ret0 <? 0 then ret (Out false) else
  (* read the VM state total size first *)
  r <- colo_ctl_get_value Fmig 0 ;;
  let '(ret0, total_size) := r in
  if ret0 <? 0 then ret (Out false) else
  (* read vm device state into colo buffer *)
  n <- qsb_fill_buffer Fmig total_size ;;
  let ret0 := wrap_s32 n in
  if negb (wrap_u64 ret0 =? total_size) then
    error_report (Message "can't get all migration data") ;;;
    ret (Out false)
  else
  ret0 <- colo_ctl_put Fctl COLO_CHECKPOINT_RECEIVED ;;
  if ret0 <? 0 then ret (Out false) else
  (* open colo buffer for read *)
  fb <- qemu_bufopen false ;;
  if negb fb then
    error_report (Message "can't open colo buffer for read") ;;;
    ret (Out false)
  else
  qemu_mutex_lock_iothread ;;;
  qemu_system_reset ;;;
  modify (set_vmstate_loading true) ;;;
  r <- qemu_loadvm_state ;;
  if r <? 0 then
    error_report (Message "COLO: loadvm failed") ;;;
    modify (set_vmstate_loading false) ;;;
    qemu_mutex_unlock_iothread ;;;
    ret (Out true)
  else
  modify (set_vmstate_loading false) ;;;
  qemu_mutex_unlock_iothread ;;;
  ret0 <- colo_ctl_put Fctl COLO_CHECKPOINT_LOADED ;;
  if ret0 <? 0 then ret (Out true) else
  (* resume guest *)
  qemu_mutex_lock_iothread ;;;
  vm_start ;;;
  qemu_mutex_unlock_iothread ;;;
  qemu_bufclose ;;;
  ret Next.

(** [while (true)]: the result tells whether [fb] is open at [out:]. *)
Fixpoint colo_incoming_loop (fuel : nat) : M bool :=
  match fuel with
  | O => out_of_fuel
  | S fuel' =>
      t <- colo_incoming_turn ;;
      match t with
      | Next => colo_incoming_loop fuel'
      | Out fb => ret fb
      end
  end.

(** The label [out:] of [colo_process_incoming_checkpoints]; [ctl] and
    [fb] tell which views are open, [dev_hotplug] is the value saved on
    entry. *)
Definition colo_incoming_out (ctl fb : bool) (dev_hotplug : Z) : M unit :=
  error_report (Message "Detect some error or get a failover request") ;;;
  (* determine whether we need to failover *)
  fo <- failover_request_is_set ;;
  (if negb fo then g_usleep (2000 * 1000) else ret tt) ;;;
  (* check flag again *)
  fo <- failover_request_is_set ;;
  (if negb fo then
     error_report (Message "SVM is going to exit!") ;;;
     colo_proxy_destroy COLO_SECONDARY_MODE ;;;
     exit 1
   else
     wait_failover_completed ;;;
     failover_request_clear) ;;;
  modify (set_colo false) ;;;
  (if fb then qemu_bufclose else ret tt) ;;;
  call EvRamCacheRelease ;;;
  (if ctl then qemu_fclose Fctl else ret tt) ;;;
  qsb_free ;;;
  call EvLoadvmExitColo ;;;
  modify (set_qdev_hotplug dev_hotplug).

(** Every turn that goes on has read a command of 8 bytes: as many turns
    as there are bytes to come, and one more, always reach [out:]. *)
Definition incoming_fuel (w : world) : nat := S (length (rx (files w Fmig))).

Definition colo_process_incoming_checkpoints : M unit :=
  dev_hotplug <- gets qdev_hotplug ;;
  modify (set_qdev_hotplug 0) ;;;
  (* colo = qemu_coroutine_self(), which is not NULL *)
  modify (set_colo true) ;;;
  (* configure the network *)
  r <- colo_proxy_init COLO_SECONDARY_MODE ;;
  if negb (r =? 0) then
    error_report (Message "Init colo proxy error") ;;;
    colo_incoming_out false false dev_hotplug
  else
  ctl <- qemu_fopen_socket Fctl ;;
  if negb ctl then
    error_report (Message "Can't open incoming channel!") ;;;
    colo_incoming_out false false dev_hotplug
  else
  call EvRamCacheCreate ;;;
  buffer <- qsb_create ;;
  if negb buffer then
    error_report (Message "Failed to allocate colo buffer!") ;;;
    colo_incoming_out true false dev_hotplug
  else
  ret0 <- colo_ctl_put Fctl COLO_READY ;;
  if ret0 <? 0 then colo_incoming_out true false dev_hotplug else
  qemu_mutex_lock_iothread ;;;
  (* in COLO mode, slave is runing, so start the vm *)
  vm_start ;;;
  qemu_mutex_unlock_iothread ;;;
  fuel <- gets incoming_fuel ;;
  fb <- colo_incoming_loop fuel ;;
  colo_incoming_out true fb dev_hotplug.

(** ** Reading the log *)

(** The tokens written to file [f], in order. *)
Fixpoint tokens_out (f : fid) (l : list event) : list Z :=
  match l with
  | [] => []
  | EvPut64 g v :: l' =>
      if fid_eqb f g then v :: tokens_out f l' else tokens_out f l'
  | _ :: l' => tokens_out f l'
  end.

(** The 64-bit values read from file [f], in order. *)
Fixpoint tokens_in (f : fid) (l : list event) : list Z :=
  match l with
  | [] => []
  | EvGet64 g v :: l' =>
      if fid_eqb f g then v :: tokens_in f l' else tokens_in f l'
  | _ :: l' => tokens_in f l'
  end.

(** A world to run examples in: nothing on the wire, every script empty. *)
Definition idle_file : QEMUFile := mkFile [] [] 0.

Definition quiet : world :=
  mkWorld (fun _ => idle_file) (fun _ => []) [] MIGRATION_STATUS_ACTIVE
    RUN_STATE_PAUSED [] [] false false false false 0 CHECKPOINT_MAX_PEROID
    COLO_PRIMARY_MODE [] None None false 1 true.

Definition with_rx (f : fid) (bs : list byte) (w : world) : world :=
  set_file f (mkFile bs (flush_errs (files w f)) (last_error (files w f))) w.

Definition with_script (o : oracle) (l : list Z) (w : world) : world :=
  set_env (fun o' => if oracle_eqb o o' then l else env w o') w.

(** The value the next [qemu_get_be64] on [f] returns, the world it
    leaves, and the error a file reports. *)
Definition next_be64 (f : fid) (w : world) : Z :=
  let bs := take_bytes 8 (files w f) in
  be_decode (bs ++ repeat x00 (8 - length bs)).

Definition after_get (f : fid) (w : world) : world :=
  emit (EvGet64 f (next_be64 f w)) (set_file f (drop_bytes 8 (files w f)) w).

Definition channel_error (f : fid) (w : world) : Z := last_error (files w f).

(** The calls of a checkpoint transaction of the Primary that runs to its
    end: [state] is the device state serialized, [proxy] the answer of the
    proxy, [shutdown] whether a guest shutdown was pending. *)
Definition transaction_trace (state : list byte) (proxy : Z) (shutdown : bool)
  : list event :=
  let size := wrap_u64 (Z.of_nat (length state)) in
  [EvPut64 Fmig COLO_CHECKPOINT_NEW; EvFlush Fmig;
   EvGet64 Fctl COLO_CHECKPOINT_SUSPENDED;
   EvQsbSetLength 0; EvBufopen true true;
   EvFailoverIsSet false; EvLock; EvVmStop; EvUnlock; EvFailoverIsSet false;
   EvSavevmBegin 0 0; EvLock; EvSavevmComplete; EvUnlock; EvBufflush;
   EvProxyCheckpoint proxy;
   EvPut64 Fmig COLO_CHECKPOINT_SEND; EvFlush Fmig;
   EvPut64 Fmig size; EvFlush Fmig;
   EvPutBuffer Fmig (ztake size state); EvFlush Fmig;
   EvGet64 Fctl COLO_CHECKPOINT_RECEIVED;
   EvGet64 Fctl COLO_CHECKPOINT_LOADED]
  ++ (if shutdown
      then [EvPut64 Fmig COLO_GUEST_SHUTDOWN; EvFlush Fmig; EvFlush Fmig;
            EvShutdownRequestCore]
      else [])
  ++ [EvLock; EvVmStart; EvUnlock; EvBufclose].

(** The calls of a transaction in which the write view cannot be opened. *)
Definition open_failed_trace : list event :=
  [EvPut64 Fmig COLO_CHECKPOINT_NEW; EvFlush Fmig;
   EvGet64 Fctl COLO_CHECKPOINT_SUSPENDED;
   EvQsbSetLength 0; EvBufopen true false;
   EvErrorReport (Message "Open colo buffer for write failed")].

(** Kinds of events, to search a log for. *)
Definition is_vm_stop (e : event) : bool :=
  match e with EvVmStop => true | _ => false end.

Definition is_serialize (e : event) : bool :=
  match e with EvSavevmBegin _ _ | EvSavevmComplete => true | _ => false end.

Definition is_failover_seen (e : event) : bool :=
  match e with EvFailoverIsSet true => true | _ => false end.

Definition occurs (p : event -> bool) (l : list event) : bool := existsb p l.

(** How a transaction of the Primary starts when it gets to stop the VM;
    [b] is what the look at the failover flag after the stop finds. *)
Definition stop_prefix (b : bool) : list event :=
  [EvPut64 Fmig COLO_CHECKPOINT_NEW; EvFlush Fmig;
   EvGet64 Fctl COLO_CHECKPOINT_SUSPENDED;
   EvQsbSetLength 0; EvBufopen true true;
   EvFailoverIsSet false; EvLock; EvVmStop; EvUnlock; EvFailoverIsSet b].

Definition with_vmstate (st : list byte) (w : world) : world :=
  set_vmstate st w.

(** A Primary in COLO state whose peer sends the tokens [ctl] and then
    closes the connection; the device state is three bytes long. *)
Definition primary_world (ctl : list Z) : world :=
  with_vmstate [x01; x02; x03]
    (with_rx Fctl (flat_map be64_bytes ctl)
       (set_mig_state MIGRATION_STATUS_COLO quiet)).

(** How a turn of the Secondary starts when it gets to read the payload:
    [size] is the length announced, [n] the number of bytes obtained. *)
Definition receive_prefix (proxy size n : Z) : list event :=
  [EvGet64 Fmig COLO_CHECKPOINT_NEW; EvFailoverIsSet false;
   EvLock; EvVmStop; EvUnlock;
   EvPut64 Fctl COLO_CHECKPOINT_SUSPENDED; EvFlush Fctl;
   EvProxyCheckpoint proxy;
   EvGet64 Fmig COLO_CHECKPOINT_SEND;
   EvGet64 Fmig size; EvFillBuffer Fmig size n].

(** [k] calls of [failover_request_set] in a row. *)
Fixpoint repeat_request (k : nat) : M unit :=
  match k with
  | O => ret tt
  | S k' => failover_request_set ;;; repeat_request k'
  end.

(** A computation is steady when it leaves the migration status alone and
    only adds to the log. *)
Definition steady {A} (m : M A) : Prop :=
  forall w,
    mig_state (final (m w)) = mig_state w /\
    exists new, log (final (m w)) = log w ++ new.

Definition is_ready (e : event) : bool :=
  match e with EvGet64 Fctl v => v =? COLO_READY | _ => false end.

(** The calls that only the checkpoint loop of the Primary makes. *)
Definition is_loop_event (e : event) : bool :=
  match e with
  | EvProxyCompare _ | EvPut64 Fmig _ | EvSleepUs _ => true
  | _ => false
  end.

(** The tokens the Secondary sends in one round, and in [n] rounds. *)
Definition round_tokens : list Z :=
  [COLO_CHECKPOINT_SUSPENDED; COLO_CHECKPOINT_RECEIVED; COLO_CHECKPOINT_LOADED].

Fixpoint rounds (n : nat) : list Z :=
  match n with
  | O => []
  | S n' => round_tokens ++ rounds n'
  end.

(** The bytes that the calls of a log put on the wire of file [f]. *)
Fixpoint wire (f : fid) (l : list event) : list byte :=
  match l with
  | [] => []
  | EvPut64 g v :: l' =>
      if fid_eqb f g then be64_bytes v ++ wire f l' else wire f l'
  | EvPutBuffer g bs :: l' =>
      if fid_eqb f g then bs ++ wire f l' else wire f l'
  | _ :: l' => wire f l'
  end.

(** ** Queries of the COLO state (colo.c) *)

Definition colo_supported : M bool := ret true.

Definition migrate_in_colo_state : M bool :=
  state <- gets mig_state ;;
  ret (status_eqb state MIGRATION_STATUS_COLO).

(** ** The bottom half of the failover arbiter (colo-failover.c) *)

(** [colo_failover_bh] hands [failover_bh] to [qemu_bh_delete] unchecked.
    [None]: the call is made with a NULL bottom half, and the run is not
    followed further. *)
Definition colo_failover_bh (w : world) : option (outcome unit) :=
  match failover_bh w with
  | Some bh => Some ((qemu_bh_delete bh ;;; modify (set_failover_bh None)) w)
  | None => None
  end.

(** ** The first version of colo.c

    The source holds colo.c twice.  The version above is the later one; the
    earlier one has the same codec, [colo_start_checkpointer] and
    [colo_init_checkpointer], and the handshake alone: no checkpoint buffer,
    no proxy, no failover. *)

Module Early.

Definition colo_do_checkpoint_transaction : M Z :=
  ret0 <- colo_ctl_put Fmig COLO_CHECKPOINT_NEW ;;
  if ret0 <? 0 then ret ret0 else
  ret0 <- colo_ctl_get Fctl COLO_CHECKPOINT_SUSPENDED ;;
  if ret0 <? 0 then ret ret0 else
  (* TODO: suspend and save vm state to colo buffer *)
  ret0 <- colo_ctl_put Fmig COLO_CHECKPOINT_SEND ;;
  if ret0 <? 0 then ret ret0 else
  (* TODO: send vmstate to slave *)
  ret0 <- colo_ctl_get Fctl COLO_CHECKPOINT_RECEIVED ;;
  if ret0 <? 0 then ret ret0 else
  ret0 <- colo_ctl_get Fctl COLO_CHECKPOINT_LOADED ;;
  if ret0 <? 0 then ret ret0 else
  (* TODO: resume master *)
  ret ret0.

(** [while (s->state == MIGRATION_STATUS_COLO)] *)
Fixpoint colo_thread_loop (fuel : nat) : M unit :=
  state <- gets mig_state ;;
  if negb (status_eqb state MIGRATION_STATUS_COLO) then ret tt
  else
    match fuel with
    | O => out_of_fuel
    | S fuel' =>
        (* start a colo checkpoint *)
        r <- colo_do_checkpoint_transaction ;;
        if negb (r =? 0) then ret tt
        else colo_thread_loop fuel'
    end.

(** The label [out:] of [colo_thread]; [control] tells whether
    [colo_control] is open. *)
Definition colo_thread_out (control : bool) : M unit :=
  migrate_set_state MIGRATION_STATUS_COLO MIGRATION_STATUS_COMPLETED ;;;
  (if control then qemu_fclose Fctl else ret tt) ;;;
  qemu_mutex_lock_iothread ;;;
  call EvCleanupBh ;;;
  qemu_mutex_unlock_iothread.

Definition colo_thread (fuel : nat) : M unit :=
  colo_control <- qemu_fopen_socket Fctl ;;
  if negb colo_control then
    error_report (Message "Open colo_control failed!") ;;;
    colo_thread_out false
  else
  (* Wait for slave finish loading vm states and enter COLO restore. *)
  ret0 <- colo_ctl_get Fctl COLO_READY ;;
  if ret0 <? 0 then colo_thread_out true else
  qemu_mutex_lock_iothread ;;;
  vm_start ;;;
  qemu_mutex_unlock_iothread ;;;
  colo_thread_loop fuel ;;;
  colo_thread_out true.

(** return: 0: start a checkpoint; -1: some error happened, exit colo
    restore. *)
Definition colo_wait_handle_cmd (f : fid) (checkpoint_request : Z)
  : M (Z * Z) :=
  r <- colo_ctl_get_value f 0 ;;
  let '(ret0, cmd) := r in
  if ret0 <? 0 then ret (-1, checkpoint_request)
  else if cmd =? COLO_CHECKPOINT_NEW then ret (0, 1)
  else ret (-1, checkpoint_request).

(** What one turn of [while (true)] ends in: the next turn, or [out:]. *)
Inductive incoming_turn := Next | Out.

Definition colo_incoming_turn : M incoming_turn :=
  r <- colo_wait_handle_cmd Fmig 0 ;;
  let '(ret0, request) := r in
  if ret0 <? 0 then ret Out
  else if request =? 0 then ret Next
  else
  (* TODO: suspend guest *)
  ret0 <- colo_ctl_put Fctl COLO_CHECKPOINT_SUSPENDED ;;
  if ret0 <? 0 then ret Out else
  ret0 <- colo_ctl_get Fmig COLO_CHECKPOINT_SEND ;;
  if ret0 <? 0 then ret Out else
  (* TODO: read migration data into colo buffer *)
  ret0 <- colo_ctl_put Fctl COLO_CHECKPOINT_RECEIVED ;;
  if ret0 <? 0 then ret Out else
  (* TODO: load vm state *)
  ret0 <- colo_ctl_put Fctl COLO_CHECKPOINT_LOADED ;;
  if ret0 <? 0 then ret Out else
  ret Next.

Fixpoint colo_incoming_loop (fuel : nat) : M unit :=
  match fuel with
  | O => out_of_fuel
  | S fuel' =>
      t <- colo_incoming_turn ;;
      match t with
      | Next => colo_incoming_loop fuel'
      | Out => ret tt
      end
  end.

(** The label [out:] of [colo_process_incoming_checkpoints]; [ctl] tells
    whether the write view of the socket is open. *)
Definition colo_incoming_out (ctl : bool) : M unit :=
  modify (set_colo false) ;;;
  (if ctl then qemu_fclose Fctl else ret tt) ;;;
  call EvLoadvmExitColo.

Definition colo_process_incoming_checkpoints (fuel : nat) : M unit :=
  (* colo = qemu_coroutine_self(), which is not NULL *)
  modify (set_colo true) ;;;
  ctl <- qemu_fopen_socket Fctl ;;
  if negb ctl then
    error_report (Message "Can't open incoming channel!") ;;;
    colo_incoming_out false
  else
  ret0 <- colo_ctl_put Fctl COLO_READY ;;
  if ret0 <? 0 then colo_incoming_out true else
  (* TODO: in COLO mode, slave is runing, so start the vm *)
  colo_incoming_loop fuel ;;;
  colo_incoming_out true.

End Early.

(** ** Reading the log, continued *)

(** The calls that the code makes only while it holds the iothread lock:
    changes of the run state, the saving and loading of the device state,
    and the creation and scheduling of bottom halves. *)
Definition needs_lock (e : event) : bool :=
  match e with
  | EvVmStop | EvVmStart | EvSavevmComplete | EvSystemReset | EvLoadvm _
  | EvCleanupBh | EvBhNew _ | EvBhSchedule _ => true
  | _ => false
  end.

(** A walk along a log, [held] telling whether the thread holds the
    iothread lock.  [None]: the lock is taken while held, released while
    not held, or one of the calls above is made without it. *)
Fixpoint lock_walk (held : bool) (l : list event) : option bool :=
  match l with
  | [] => Some held
  | EvLock :: l' => if held then None else lock_walk true l'
  | EvUnlock :: l' => if held then lock_walk false l' else None
  | e :: l' =>
      if needs_lock e && negb held then None else lock_walk held l'
  end.

(** How many events of a log satisfy [p]. *)
Definition count (p : event -> bool) (l : list event) : nat :=
  length (filter p l).

Definition is_view_opened (e : event) : bool :=
  match e with EvBufopen _ true => true | _ => false end.

Definition is_view_closed (e : event) : bool :=
  match e with EvBufclose => true | _ => false end.

Definition is_vm_start (e : event) : bool :=
  match e with EvVmStart => true | _ => false end.

(** A file from which nothing has been read yet and on which the peer has
    put the bytes [bs]. *)
Definition file_with (bs : list byte) (q : QEMUFile) : QEMUFile :=
  mkFile bs (flush_errs q) (last_error q).

(** The events that a run started in [w] has added to the log. *)
Definition added {A} (w : world) (o : outcome A) : list event :=
  skipn (length (log w)) (log (final o)).

(** The world after a token [v] has been read from [f], [rest] being what
    follows it on the stream. *)
Definition token_read (f : fid) (v : Z) (rest : list byte) (w : world)
  : world :=
  emit (EvGet64 f v) (set_file f (file_with rest (files w f)) w).

(** A Secondary at rest, with [bs] to come on the migration stream. *)
Definition secondary_world (bs : list byte) : world :=
  mkWorld (fun f => match f with Fmig => mkFile bs [] 0 | Fctl => idle_file end)
    (fun _ => []) [] MIGRATION_STATUS_ACTIVE RUN_STATE_PAUSED [] [] false
    false false false 0 CHECKPOINT_MAX_PEROID COLO_SECONDARY_MODE [] None None
    false 1 true.

(** The last [n] events of a log. *)
Definition last_events (n : nat) (l : list event) : list event :=
  skipn (length l - n) l.

(** [m] keeps the invariant [P] of the world, and what it adds to the log
    has the property [Q]. *)
Definition keeps (P : world -> Prop) (Q : list event -> Prop) {A} (m : M A)
  : Prop :=
  forall w,
    P w ->
    P (final (m w)) /\ exists new, log (final (m w)) = log w ++ new /\ Q new.

(** The thread takes and releases the iothread lock in turn and ends
    without it, and makes the calls that need the lock while it holds
    it. *)
Definition well_locked (l : list event) : Prop :=
  lock_walk false l = Some false.

(** No checkpoint is being loaded. *)
Definition not_loading (w : world) : Prop := vmstate_loading w = false.

(** The log [l] ends with the events [tail]. *)
Definition ends_with (tail l : list event) : Prop :=
  exists pre, l = pre ++ tail.

(** The calls of [colo_thread] from the label [out:] on, when the thread
    returns: [seen] is what the look at the failover flag finds, [id] the
    bottom half of the request the thread raises itself, [control] whether
    [colo_control] is open. *)
Definition thread_out_trace (seen : bool) (id : nat) (control : bool)
  : list event :=
  [EvErrorReport (Message "colo: some error happens in colo_thread");
   EvLock; EvFailoverIsSet seen]
  ++ (if seen then []
      else [EvErrorReport (Message "master takeover from checkpoint channel");
            EvBhNew id; EvBhSchedule id])
  ++ [EvUnlock; EvFailoverClear; EvQsbFree]
  ++ (if control then [EvFclose Fctl] else [])
  ++ [EvLock; EvCleanupBh; EvUnlock].

(** [m] returns, or ends the process with status 1; it does not park. *)
Definition returns_or_exits_1 {A} (m : M A) : Prop :=
  forall w,
    match m w with
    | Done _ _ | Unfinished _ => True
    | Exited code _ => code = 1
    | Hung _ => False
    end.

(** What the Secondary does on GUEST_SHUTDOWN before it parks. *)
Definition shutdown_trace : list event :=
  [EvGet64 Fmig COLO_GUEST_SHUTDOWN; EvLock; EvShutdownRequestCore; EvUnlock].

(** The calls that move the device state, and the tokens of the
    Secondary. *)
Definition needs_stop (e : event) : bool :=
  match e with
  | EvSavevmBegin _ _ | EvSavevmComplete | EvPutBuffer _ _
  | EvFillBuffer _ _ _ | EvSystemReset | EvLoadvm _ | EvPut64 Fctl _ => true
  | _ => false
  end.

(** A walk along a log, [stopped] telling whether the thread has stopped
    the VM and not started it again.  [None]: one of the calls above is
    made while the VM is not stopped. *)
Fixpoint stop_walk (stopped : bool) (l : list event) : option bool :=
  match l with
  | [] => Some stopped
  | EvVmStop :: l' => stop_walk true l'
  | EvVmStart :: l' => stop_walk false l'
  | e :: l' =>
      if needs_stop e && negb stopped then None else stop_walk stopped l'
  end.

(** ** The handshake as a walk along the log *)

(** A walk along a log with the steps of an automaton.  [None]: an event
    that the automaton does not allow in the state it is in. *)
Fixpoint walk {State : Type} (step : State -> event -> option State)
    (s : State) (l : list event) : option State :=
  match l with
  | [] => Some s
  | e :: l' =>
      match step s e with
      | Some s' => walk step s' l'
      | None => None
      end
  end.

(** How far the Primary has got: [P_init] before READY, [P_start] between
    rounds, then the phases of a round; [P_open_failed] after the buffer of
    the round could not be opened, [P_broken] after a value other than the
    expected token has been read. *)
Inductive primary_phase :=
| P_init | P_start | P_new | P_suspended | P_opened | P_open_failed
| P_send | P_size | P_payload | P_received | P_loaded | P_shutdown
| P_broken.

(** The tokens and the payload of a round of the Primary and the opening
    of its buffer, each in its turn; the other calls leave the phase as it
    is. *)
Definition primary_step (p : primary_phase) (e : event)
  : option primary_phase :=
  match e with
  | EvPut64 Fmig v =>
      match p with
      | P_start => if v =? COLO_CHECKPOINT_NEW then Some P_new else None
      | P_opened => if v =? COLO_CHECKPOINT_SEND then Some P_send else None
      | P_send => Some P_size
      | P_loaded => if v =? COLO_GUEST_SHUTDOWN then Some P_shutdown else None
      | _ => None
      end
  | EvPutBuffer Fmig _ =>
      match p with
      | P_size => Some P_payload
      | _ => None
      end
  | EvGet64 Fctl v =>
      match p with
      | P_init => Some (if v =? COLO_READY then P_start else P_broken)
      | P_new =>
          Some (if v =? COLO_CHECKPOINT_SUSPENDED then P_suspended
                else P_broken)
      | P_payload =>
          Some (if v =? COLO_CHECKPOINT_RECEIVED then P_received
                else P_broken)
      | P_received =>
          Some (if v =? COLO_CHECKPOINT_LOADED then P_loaded else P_broken)
      | _ => None
      end
  | EvBufopen true ok =>
      match p with
      | P_suspended => Some (if ok then P_opened else P_open_failed)
      | _ => None
      end
  | EvPut64 Fctl _ | EvPutBuffer Fctl _ | EvGet64 Fmig _
  | EvFillBuffer _ _ _ | EvBufopen false _ => None
  | _ => Some p
  end.

Definition primary_walk : primary_phase -> list event -> option primary_phase :=
  walk primary_step.

(** The phases in which the Primary may start a round: between rounds,
    after a complete round, and after an opening of the buffer that has
    failed, where the round ends. *)
Definition primary_idle (p : primary_phase) : bool :=
  match p with
  | P_start | P_open_failed | P_loaded | P_shutdown => true
  | _ => false
  end.

(** The steps of a whole session of the Primary: those of a round, and the
    start of the next round. *)
Definition primary_session_step (p : primary_phase) (e : event)
  : option primary_phase :=
  match primary_step p e with
  | Some q => Some q
  | None => if primary_idle p then primary_step P_start e else None
  end.

(** How far the Secondary has got: [S_init] before READY, [S_start]
    between rounds, then the phases of a round. *)
Inductive secondary_phase :=
| S_init | S_start | S_new | S_suspended | S_send | S_size | S_payload
| S_received | S_loaded | S_broken.

Definition secondary_step (p : secondary_phase) (e : event)
  : option secondary_phase :=
  match e with
  | EvGet64 Fmig v =>
      match p with
      | S_start => Some (if v =? COLO_CHECKPOINT_NEW then S_new else S_broken)
      | S_suspended =>
          Some (if v =? COLO_CHECKPOINT_SEND then S_send else S_broken)
      | S_send => Some S_size
      | _ => None
      end
  | EvFillBuffer Fmig _ _ =>
      match p with
      | S_size => Some S_payload
      | _ => None
      end
  | EvPut64 Fctl v =>
      match p with
      | S_init => if v =? COLO_READY then Some S_start else None
      | S_new =>
          if v =? COLO_CHECKPOINT_SUSPENDED then Some S_suspended else None
      | S_payload =>
          if v =? COLO_CHECKPOINT_RECEIVED then Some S_received else None
      | S_received =>
          if v =? COLO_CHECKPOINT_LOADED then Some S_loaded else None
      | _ => None
      end
  | EvPut64 Fmig _ | EvPutBuffer _ _ | EvGet64 Fctl _
  | EvFillBuffer Fctl _ _ => None
  | _ => Some p
  end.

Definition secondary_walk
  : secondary_phase -> list event -> option secondary_phase :=
  walk secondary_step.

(** The phases in which the Secondary may start a round. *)
Definition secondary_idle (p : secondary_phase) : bool :=
  match p with
  | S_start | S_loaded => true
  | _ => false
  end.

Definition secondary_session_step (p : secondary_phase) (e : event)
  : option secondary_phase :=
  match secondary_step p e with
  | Some q => Some q
  | None => if secondary_idle p then secondary_step S_start e else None
  end.

(** ** The first version: a transaction that runs to its end *)

(** The calls of a transaction of the first version that runs to its
    end. *)
Definition early_trace : list event :=
  [EvPut64 Fmig COLO_CHECKPOINT_NEW; EvFlush Fmig;
   EvGet64 Fctl COLO_CHECKPOINT_SUSPENDED;
   EvPut64 Fmig COLO_CHECKPOINT_SEND; EvFlush Fmig;
   EvGet64 Fctl COLO_CHECKPOINT_RECEIVED;
   EvGet64 Fctl COLO_CHECKPOINT_LOADED].

(** ** A session as a walk along the log *)

(** Events that leave the automaton in the state it is in. *)
Definition silent {State : Type}
    (step : State -> event -> option State) (new : list event) : Prop :=
  forall s, walk step s new = Some s.

(** A piece of a session: started where the automaton is idle, it follows
    the steps of the automaton, and where it goes on (as its result tells)
    the automaton is idle again. *)
Definition piece {State A : Type} (step : State -> event -> option State)
    (idle : State -> bool) (goes_on : A -> bool) (m : M A) : Prop :=
  forall w q,
    idle q = true ->
    exists new p,
      log (final (m w)) = log w ++ new /\
      walk step q new = Some p /\
      match m w with
      | Done a _ => goes_on a = true -> idle p = true
      | _ => True
      end.

Definition turn_goes_on (t : turn) : bool :=
  match t with
  | Again _ => true
  | Leave => false
  end.

Definition incoming_goes_on (t : incoming_turn) : bool :=
  match t with
  | Next => true
  | Out _ => false
  end.

(** * Properties *)

(** ** The codec *)

Lemma colo_ctl_get_value_run (f : fid) (value : Z) (w : world) :
  colo_ctl_get_value f value w =
  Done (if channel_error f (after_get f w) <? 0 then (-1, value)
        else (0, next_be64 f w)) (after_get f w).
Proof.
  unfold colo_ctl_get_value, bind, qemu_get_be64, qemu_file_get_error.
  fold (next_be64 f w). fold (after_get f w). fold (channel_error f (after_get f w)).
  destruct (channel_error f (after_get f w) <? 0); reflexivity.
Qed.

Lemma ztake_length {A} (l : list A) :
  forall n, 0 <= n -> Z.of_nat (length (ztake n l)) = Z.min n (Z.of_nat (length l)).
Proof.
  induction l as [|a l IH]; intros n Hn; simpl.
  - lia.
  - destruct (Z.leb_spec n 0).
    + simpl. lia.
    + simpl length. rewrite Nat2Z.inj_succ, IH by lia. lia.
Qed.

Lemma ztake_all {A} (l : list A) :
  forall n, Z.of_nat (length l) <= n -> ztake n l = l.
Proof.
  induction l as [|a l IH]; intros n Hn; simpl in *.
  - reflexivity.
  - destruct (Z.leb_spec n 0); [lia|]. f_equal. apply IH. lia.
Qed.

Lemma ztake_app {A} (l l' : list A) :
  ztake (Z.of_nat (length l)) (l ++ l') = l.
Proof.
  induction l as [|a l IH]; simpl length.
  - destruct l'; simpl; [reflexivity|]. reflexivity.
  - rewrite Nat2Z.inj_succ. simpl.
    destruct (Z.leb_spec (Z.succ (Z.of_nat (length l))) 0); [lia|].
    f_equal. replace (Z.succ (Z.of_nat (length l)) - 1) with (Z.of_nat (length l)) by lia.
    exact IH.
Qed.

Lemma zdrop_app {A} (l l' : list A) :
  zdrop (Z.of_nat (length l)) (l ++ l') = l'.
Proof.
  induction l as [|a l IH]; simpl length.
  - destruct l'; simpl; reflexivity.
  - rewrite Nat2Z.inj_succ. simpl.
    destruct (Z.leb_spec (Z.succ (Z.of_nat (length l))) 0); [lia|].
    replace (Z.succ (Z.of_nat (length l)) - 1) with (Z.of_nat (length l)) by lia.
    exact IH.
Qed.

Lemma zdrop_length {A} (l : list A) :
  forall n, (length (zdrop n l) <= length l)%nat.
Proof.
  induction l as [|a l IH]; intros n; simpl.
  - lia.
  - destruct (n <=? 0); simpl; [lia|]. specialize (IH (n - 1)). lia.
Qed.

Lemma zdrop_shrinks {A} (l : list A) :
  forall n, 0 < n -> l <> [] -> (length (zdrop n l) < length l)%nat.
Proof.
  destruct l as [|a l]; intros n Hn Hl; [congruence|].
  simpl. destruct (Z.leb_spec n 0); [lia|].
  pose proof (zdrop_length l (n - 1)). simpl. lia.
Qed.

Lemma ztake_firstn {A} (l : list A) :
  forall n, 0 <= n -> ztake n l = firstn (Z.to_nat n) l.
Proof.
  induction l as [|a l IH]; intros n Hn; simpl.
  - now rewrite firstn_nil.
  - destruct (Z.leb_spec n 0).
    + replace n with 0 by lia. reflexivity.
    + replace (Z.to_nat n) with (S (Z.to_nat (n - 1))) by lia.
      simpl. f_equal. apply IH. lia.
Qed.

Lemma next_be64_full (f : fid) (w : world) :
  8 <= Z.of_nat (length (rx (files w f))) ->
  next_be64 f w = be_decode (firstn 8 (rx (files w f))).
Proof.
  intros Hlen. unfold next_be64, take_bytes.
  rewrite ztake_firstn by lia.
  change (Z.to_nat 8) with 8%nat.
  rewrite length_firstn, Nat.min_l by lia.
  simpl. now rewrite app_nil_r.
Qed.

(** C9. [colo_ctl_get_value] always returns.  When the channel reports an
    error after the read, the result is -1 and the caller's value is left
    as it was; otherwise the result is 0 and the value is the 8-byte
    big-endian number that was read. *)
Theorem colo_ctl_get_value_spec (f : fid) (value : Z) (w : world) :
  exists r out w',
    colo_ctl_get_value f value w = Done (r, out) w' /\
    w' = after_get f w /\
    (channel_error f w' < 0 -> r = -1 /\ out = value) /\
    (0 <= channel_error f w' -> r = 0 /\ out = next_be64 f w) /\
    (8 <= Z.of_nat (length (rx (files w f))) ->
     next_be64 f w = be_decode (firstn 8 (rx (files w f)))).
Proof.
  rewrite colo_ctl_get_value_run.
  destruct (Z.ltb_spec (channel_error f (after_get f w)) 0) as [He|He].
  - exists (-1), value, (after_get f w).
    repeat split; try lia. apply next_be64_full.
  - exists 0, (next_be64 f w), (after_get f w).
    repeat split; try lia. apply next_be64_full.
Qed.

Lemma colo_ctl_get_run (f : fid) (require : Z) (w : world) :
  colo_ctl_get f require w =
  if channel_error f (after_get f w) <? 0 then Done (-1) (after_get f w)
  else if next_be64 f w =? require then Done 0 (after_get f w)
  else Exited 1 (emit (EvErrorReport (UnexpectedState require (next_be64 f w)))
                   (after_get f w)).
Proof.
  unfold colo_ctl_get, bind. rewrite colo_ctl_get_value_run.
  destruct (channel_error f (after_get f w) <? 0); [reflexivity|].
  change (0 <? 0) with false. cbv iota.
  destruct (next_be64 f w =? require); reflexivity.
Qed.

(** C4 (as the code has it).  [colo_ctl_get]: when the read fails, the
    call returns -1, the result of [colo_ctl_get_value], whatever the error
    of the file is; when the value read is the required token, it returns
    0; when the value differs, the expected and the received values are
    reported and the call does not return: the process exits with
    status 1. *)
Theorem colo_ctl_get_spec (f : fid) (require : Z) (w : world) :
  let w1 := after_get f w in
  let value := next_be64 f w in
  (channel_error f w1 < 0 -> colo_ctl_get f require w = Done (-1) w1) /\
  (0 <= channel_error f w1 -> value = require ->
   colo_ctl_get f require w = Done 0 w1) /\
  (0 <= channel_error f w1 -> value <> require ->
   exists w2,
     colo_ctl_get f require w = Exited 1 w2 /\
     log w2 = log w ++ [EvGet64 f value;
                        EvErrorReport (UnexpectedState require value)]).
Proof.
  intros w1 value. rewrite colo_ctl_get_run. fold w1. fold value.
  repeat split.
  - intros He. apply Z.ltb_lt in He. now rewrite He.
  - intros He Hv. apply Z.ltb_ge in He. rewrite He.
    apply Z.eqb_eq in Hv. now rewrite Hv.
  - intros He Hv. apply Z.ltb_ge in He. rewrite He.
    apply Z.eqb_neq in Hv. rewrite Hv.
    eexists. split; [reflexivity|].
    unfold w1, after_get, emit. simpl. now rewrite <- app_assoc.
Qed.

Lemma colo_wait_handle_cmd_run (f : fid) (request : Z) (w : world) :
  colo_wait_handle_cmd f request w =
  if channel_error f (after_get f w) <? 0 then Done (-1, request) (after_get f w)
  else if next_be64 f w =? COLO_CHECKPOINT_NEW then Done (0, 1) (after_get f w)
  else if next_be64 f w =? COLO_GUEST_SHUTDOWN then
    Hung (emit EvUnlock (emit EvShutdownRequestCore (emit EvLock (after_get f w))))
  else Done (-1, request) (after_get f w).
Proof.
  unfold colo_wait_handle_cmd, bind. rewrite colo_ctl_get_value_run.
  destruct (channel_error f (after_get f w) <? 0); [reflexivity|].
  change (0 <? 0) with false. cbv iota.
  destruct (next_be64 f w =? COLO_CHECKPOINT_NEW); [reflexivity|].
  destruct (next_be64 f w =? COLO_GUEST_SHUTDOWN); reflexivity.
Qed.

(** C10. [colo_wait_handle_cmd]: the call returns 0 with the request flag
    set to 1 exactly when the token read is CHECKPOINT_NEW; it returns -1,
    the flag untouched, on a read error and on every token other than
    CHECKPOINT_NEW and GUEST_SHUTDOWN; on GUEST_SHUTDOWN it requests the
    shutdown under the iothread lock and never returns. *)
Theorem colo_wait_handle_cmd_spec (f : fid) (request : Z) (w : world) :
  let w1 := after_get f w in
  let cmd := next_be64 f w in
  ((exists w', colo_wait_handle_cmd f request w = Done (0, 1) w') <->
   (0 <= channel_error f w1 /\ cmd = COLO_CHECKPOINT_NEW)) /\
  (forall r q w', colo_wait_handle_cmd f request w = Done (r, q) w' ->
     r = 0 -> q = 1 /\ cmd = COLO_CHECKPOINT_NEW) /\
  (channel_error f w1 < 0 ->
   colo_wait_handle_cmd f request w = Done (-1, request) w1) /\
  (0 <= channel_error f w1 ->
   cmd <> COLO_CHECKPOINT_NEW -> cmd <> COLO_GUEST_SHUTDOWN ->
   colo_wait_handle_cmd f request w = Done (-1, request) w1) /\
  (0 <= channel_error f w1 -> cmd = COLO_GUEST_SHUTDOWN ->
   exists w2,
     colo_wait_handle_cmd f request w = Hung w2 /\
     log w2 = log w1 ++ [EvLock; EvShutdownRequestCore; EvUnlock]).
Proof.
  intros w1 cmd. rewrite colo_wait_handle_cmd_run. fold w1. fold cmd.
  destruct (Z.ltb_spec (channel_error f w1) 0) as [He|He];
    [|destruct (Z.eqb_spec cmd COLO_CHECKPOINT_NEW) as [Hn|Hn];
      [|destruct (Z.eqb_spec cmd COLO_GUEST_SHUTDOWN) as [Hs|Hs]]].
  - split; [split; [intros [w' E]; discriminate E | intros [? ?]; lia]|].
    split; [intros r q w' E Hr; inversion E; subst; lia|].
    split; [reflexivity|].
    split; intros; lia.
  - split; [split; [intros _; split; [lia|exact Hn] | intros _; eexists; reflexivity]|].
    split; [intros r q w' E Hr; inversion E; subst; split; [reflexivity|exact Hn]|].
    split; [intros; lia|].
    split; [intros; congruence|].
    intros _ Hs. rewrite Hn in Hs. discriminate Hs.
  - split; [split; [intros [w' E]; discriminate E | intros [_ ?]; congruence]|].
    split; [intros r q w' E Hr; discriminate E|].
    split; [intros; lia|].
    split; [intros; congruence|].
    intros _ _. eexists. split; [reflexivity|].
    unfold emit; simpl. rewrite <- !app_assoc. reflexivity.
  - split; [split; [intros [w' E]; discriminate E | intros [_ ?]; congruence]|].
    split; [intros r q w' E Hr; inversion E; subst; lia|].
    split; [intros; lia|].
    split; [reflexivity|].
    intros; congruence.
Qed.

(** ** Running the model on a symbolic world *)

(** [run] unfolds the model down to the tests the C code makes; [branch]
    follows the first test still undecided, both ways; [leaf] reads the
    outcome a path ends in. *)
Ltac run :=
  cbv beta iota zeta delta
    [colo_do_checkpoint_transaction transaction_out do_checkpoint
     colo_thread_turn colo_thread_out colo_thread colo_start_checkpointer
     colo_init_checkpointer colo_primary_session
     qmp_colo_set_checkpoint_period
     colo_wait_handle_cmd colo_incoming_turn colo_incoming_out
     colo_process_incoming_checkpoints
     colo_ctl_put colo_ctl_get colo_ctl_get_value
     failover_request_set qmp_colo_lost_heartbeat failover_request_is_set
     failover_request_clear colo_runstate_is_stopped wait_vmstate_loaded
     slave_do_failover master_do_failover colo_do_failover
     wait_failover_completed
     qemu_put_be64 qemu_fflush qemu_file_get_error qemu_get_be64
     qemu_bh_new qemu_bh_schedule qemu_bh_delete migrate_set_state
     runstate_is_running runstate_check_colo
     vm_stop_force_state vm_start
     qemu_mutex_lock_iothread qemu_mutex_unlock_iothread
     colo_proxy_init colo_proxy_destroy colo_proxy_compare
     colo_proxy_checkpoint colo_proxy_failover qemu_clock_get_ms g_usleep
     qemu_fopen_socket qemu_fclose qsb_create qsb_free qsb_set_length_0
     qsb_get_length qemu_bufopen qemu_bufflush qemu_bufclose
     qemu_savevm_state_begin qemu_savevm_state_complete qsb_put_buffer
     qsb_fill_buffer qemu_system_reset qemu_loadvm_state
     qemu_system_shutdown_request_core
     bind ret call gets modify out_of_fuel exit park error_report ask emit
     set_file set_vmstate set_colo set_qdev_hotplug set_autostart
     colo qdev_hotplug autostart loadvm_in_colo_state with_vmstate
     set_files set_env set_log set_mig_state set_runstate set_colo_buffer
     set_failover_request set_failover_completed set_vmstate_loading
     set_colo_shutdown_requested set_colo_checkpoint_period set_bhs
     set_failover_bh set_colo_bh
     files env log mig_state runstate vmstate colo_buffer failover_request
     failover_completed failover_done_later vmstate_loading
     colo_shutdown_requested colo_checkpoint_period colo_mode bhs
     failover_bh colo_bh
     next_be64 after_get channel_error final
     fid_eqb oracle_eqb].

Ltac head_cond t :=
  lazymatch t with
  | (if ?c then _ else _) => c
  | match ?s with
    | Done _ _ => _ | Exited _ _ => _ | Hung _ => _ | Unfinished _ => _
    end => head_cond s
  | match ?s with pair _ _ => _ end => head_cond s
  | ?f _ => head_cond f
  end.

Ltac has_var c := match c with context [?v] => is_var v end.

Ltac decide_cond c :=
  tryif has_var c then fail else idtac;
  let v := eval vm_compute in c in
  lazymatch v with
  | true => change c with true
  | false => change c with false
  end.

Ltac branch :=
  repeat (cbv beta iota;
    match goal with
    | |- ?l = _ -> _ =>
        let c := head_cond l in first [decide_cond c | destruct c eqn:?]
    end);
  cbv beta iota.

Lemma Done_inj {A} (a b : A) (w w' : world) :
  Done a w = Done b w' -> a = b /\ w = w'.
Proof. intros [= -> ->]. split; reflexivity. Qed.

Lemma Exited_Done {A} c (a : A) (w w' : world) : Exited c w = Done a w' -> False.
Proof. discriminate. Qed.

Lemma Hung_Done {A} (a : A) (w w' : world) : Hung w = Done a w' -> False.
Proof. discriminate. Qed.

Lemma Unfinished_Done {A} (a : A) (w w' : world) :
  Unfinished w = Done a w' -> False.
Proof. discriminate. Qed.

(** A path that ends in a return, when the goal is about a return. *)
Ltac leaf :=
  lazymatch goal with
  | |- Done _ _ = Done _ _ -> _ =>
      let E := fresh "E" in
      intros E; apply Done_inj in E; destruct E as [? ?]
  | |- Exited _ _ = Done _ _ -> _ =>
      let E := fresh "E" in intros E; exfalso; eapply Exited_Done; exact E
  | |- Hung _ = Done _ _ -> _ =>
      let E := fresh "E" in intros E; exfalso; eapply Hung_Done; exact E
  | |- Unfinished _ = Done _ _ -> _ =>
      let E := fresh "E" in intros E; exfalso; eapply Unfinished_Done; exact E
  end.

(** Tests of the C code as facts about integers. *)
Ltac tests :=
  repeat match goal with
  | H : negb _ = true |- _ => apply negb_true_iff in H
  | H : negb _ = false |- _ => apply negb_false_iff in H
  | H : (_ || _) = false |- _ => apply orb_false_iff in H; destruct H
  | H : (_ <? _) = true |- _ => apply Z.ltb_lt in H
  | H : (_ <? _) = false |- _ => apply Z.ltb_ge in H
  | H : (_ =? _) = true |- _ => apply Z.eqb_eq in H
  | H : (_ =? _) = false |- _ => apply Z.eqb_neq in H
  end.

(** The log of a path, as the old log followed by the new events. *)
Ltac flat := repeat rewrite <- app_assoc; cbn [app].

(** Tests that a path has settled, used in the log and then split. *)
Ltac settle :=
  repeat match goal with
  | H : ?c = true |- context [?c] => rewrite H
  | H : ?c = false |- context [?c] => rewrite H
  | H : negb _ = true |- _ => apply negb_true_iff in H
  | H : negb _ = false |- _ => apply negb_false_iff in H
  | H : (_ || _) = false |- _ => apply orb_false_iff in H; destruct H
  | H : (_ =? _) = true |- _ => apply Z.eqb_eq in H
  | H : be_decode _ = _ |- context [be_decode _] => rewrite H
  end;
  cbn [negb].

(** ** The checkpoint transaction of the Primary *)

(** A transaction returns 0 in two ways only: it ran to its end, or the
    write view could not be opened. *)
Lemma transaction_zero (w w' : world) :
  colo_do_checkpoint_transaction w = Done 0 w' ->
  log w' = log w ++ open_failed_trace \/
  exists proxy,
    0 <= proxy /\
    log w' = log w ++ transaction_trace (vmstate w) proxy
                        (negb (colo_shutdown_requested w =? 0)).
Proof.
  destruct w. run. branch; leaf; subst w'; cbn [log]; flat.
  all: try (exfalso; tests; lia).
  all: settle.
  all: first
    [ left; reflexivity
    | right;
      match goal with
      | H : (wrap_s32 ?x <? 0) = false |- _ =>
          exists (wrap_s32 x); split; [apply Z.ltb_ge; exact H | reflexivity]
      end ].
Qed.

(** The new events of a path, once the log is written as old ++ new. *)
Lemma app_self_nil {A} (l n : list A) : l = l ++ n -> n = [].
Proof.
  intros H. rewrite <- (app_nil_r l) in H at 1.
  apply app_inv_head in H. now symmetry.
Qed.

Ltac new_events H :=
  cbn [final log] in H; revert H; flat; intros H;
  first [apply app_inv_head in H | apply app_self_nil in H]; subst.

(** C5. In a checkpoint transaction of the Primary the failover flag is
    looked at before the VM is stopped and again right after the stop; when
    either look finds it set, the transaction returns -1 and nothing has
    been serialized into the checkpoint buffer. *)
Theorem failover_checked_around_stop
  (w : world) (o : outcome Z) (new : list event) :
  colo_do_checkpoint_transaction w = o ->
  log (final o) = log w ++ new ->
  (occurs is_vm_stop new = true ->
   exists b post,
     new = stop_prefix b ++ post /\
     occurs is_serialize (stop_prefix b) = false /\
     (b = true -> post = [EvBufclose])) /\
  (occurs is_serialize new = true ->
   exists post, new = stop_prefix false ++ post) /\
  (occurs is_failover_seen new = true ->
   (exists w', o = Done (-1) w') /\
   occurs is_serialize new = false /\
   colo_buffer (final o) = []).
Proof.
  destruct w. run. branch; intros <- Hlog; new_events Hlog.
  all: settle.
  all: cbn [occurs existsb is_vm_stop is_serialize is_failover_seen orb].
  all: split; [|split]; intros Hocc; try discriminate Hocc.
  all: try (eexists; eexists; split; [reflexivity|];
            split; [reflexivity|];
            intros Hb; first [reflexivity | discriminate Hb]).
  all: try (eexists; reflexivity).
  all: try (split; [eexists; reflexivity | split; reflexivity]).
Qed.

Lemma failover_checked_witness :
  let w := with_script OAsyncFailover [0; 1]
             (primary_world [COLO_CHECKPOINT_SUSPENDED]) in
  let o := colo_do_checkpoint_transaction w in
  log (final o) = stop_prefix true ++ [EvBufclose] /\
  (exists w', o = Done (-1) w') /\
  occurs is_serialize (log (final o)) = false /\
  colo_buffer (final o) = [].
Proof.
  intros w o.
  destruct (@failover_checked_around_stop w o (log (final o))
              eq_refl eq_refl) as (_ & _ & H).
  split; [vm_compute; reflexivity|].
  apply H. vm_compute. reflexivity.
Defined.

(** C1 (the code departs from the claim).  A round in which the write view
    of the buffer cannot be opened returns 0, the result of a successful
    round, after CHECKPOINT_NEW alone has been sent; the loop goes on and
    the next round sends CHECKPOINT_NEW again. *)
Theorem round_without_send_returns_success :
  (let w := with_script OBufopen [0]
              (primary_world [COLO_CHECKPOINT_SUSPENDED]) in
   exists w',
     colo_do_checkpoint_transaction w = Done 0 w' /\
     log w' = open_failed_trace /\
     tokens_out Fmig (log w') = [COLO_CHECKPOINT_NEW] /\
     tokens_in Fctl (log w') = [COLO_CHECKPOINT_SUSPENDED]) /\
  (let w := with_script OBufopen [0]
              (with_script OProxyCompare [1; 1]
                 (with_script OClock [0; 200; 300; 500]
                    (primary_world [COLO_READY; COLO_CHECKPOINT_SUSPENDED]))) in
   tokens_out Fmig (log (final (colo_thread 2 w))) =
   [COLO_CHECKPOINT_NEW; COLO_CHECKPOINT_NEW]).
Proof.
  split.
  - eexists. split; [vm_compute; reflexivity|].
    repeat split; vm_compute; reflexivity.
  - vm_compute. reflexivity.
Qed.

(** ** The checkpoint loop of the Primary *)

Lemma do_checkpoint_done (w4 w5 w6 : world) (t' : Z) :
  colo_do_checkpoint_transaction w4 = Done 0 w5 ->
  qemu_clock_get_ms w5 = Done t' w6 ->
  do_checkpoint w4 = Done (Again t') w6.
Proof.
  intros Ht Hc. unfold do_checkpoint, bind at 1. rewrite Ht.
  change (negb (0 =? 0)) with false. cbv iota.
  unfold bind. rewrite Hc. reflexivity.
Qed.

Lemma wrap_s64_small (z : Z) : - 2 ^ 63 <= z < 2 ^ 63 -> wrap_s64 z = z.
Proof.
  intros H. unfold wrap_s64.
  rewrite Z.mod_small by lia. lia.
Qed.

Lemma wrap_u64_small (z : Z) : 0 <= z < 2 ^ 64 -> wrap_u64 z = z.
Proof. intros H. unfold wrap_u64. now rewrite Z.mod_small. Qed.

Lemma wrap_s32_small (z : Z) : - 2 ^ 31 <= z < 2 ^ 31 -> wrap_s32 z = z.
Proof.
  intros H. unfold wrap_s32.
  rewrite Z.mod_small by lia. lia.
Qed.

(** Settle the test at the head of the run from the facts at hand. *)
Ltac solve_cond :=
  symmetry;
  first
    [ assumption
    | repeat match goal with
             | H : ?c = true |- context [?c] => rewrite H
             | H : ?c = false |- context [?c] => rewrite H
             end; reflexivity
    | apply Z.ltb_lt; lia
    | apply Z.ltb_ge; lia
    | apply negb_true_iff; apply Z.eqb_neq; lia
    | apply negb_false_iff; apply Z.eqb_eq; lia
    | apply Z.eqb_eq; lia
    | apply Z.eqb_neq; lia ].

Ltac resolve :=
  cbv beta iota;
  match goal with
  | |- ?l = _ =>
      let c := head_cond l in
      first [ replace c with true by solve_cond
            | replace c with false by solve_cond ]
  end;
  cbv beta iota.

(** C7. One turn of the Primary loop, once the failover flag is found
    clear and the proxy has answered [req]; [elapsed] is the time gone since
    the last checkpoint as the code computes it, the difference of the two
    readings of the clock in an [int64_t], which may be negative when the
    host clock has been set back.  On divergence ([req > 0]) with less than
    100 ms gone the turn sleeps [remaining] microseconds, which is the
    remaining time [1000 * (100 - elapsed)] whenever that fits the
    [int64_t] it is computed in, and runs the transaction; on no trigger
    ([req = 0]) with less than the period gone it sleeps 100 ms and runs no
    transaction; otherwise, in these two cases, it runs the transaction at
    once.  A transaction that succeeds is followed by a reading of the clock
    that becomes [checkpoint_time]; the period starts as 10000 ms. *)
Theorem checkpoint_pacing
  (checkpoint_time : Z) (w w1 w2 w3 : world) (req t : Z) :
  failover_request_is_set w = Done false w1 ->
  colo_proxy_compare w1 = Done req w2 ->
  qemu_clock_get_ms w2 = Done t w3 ->
  let elapsed := wrap_s64 (t - checkpoint_time) in
  let remaining :=
    wrap_u64 (wrap_s64 (1000 * wrap_s64 (CHECKPOINT_MIN_PERIOD - elapsed))) in
  (- 2 ^ 63 <= t - checkpoint_time < 2 ^ 63 -> elapsed = t - checkpoint_time) /\
  (elapsed < CHECKPOINT_MIN_PERIOD ->
   1000 * (CHECKPOINT_MIN_PERIOD - elapsed) < 2 ^ 63 ->
   remaining = 1000 * (CHECKPOINT_MIN_PERIOD - elapsed)) /\
  (0 < req -> elapsed < CHECKPOINT_MIN_PERIOD ->
   colo_thread_turn checkpoint_time w =
   do_checkpoint (emit (EvSleepUs remaining) w3)) /\
  (req = 0 -> elapsed < colo_checkpoint_period w ->
   colo_thread_turn checkpoint_time w =
   Done (Again checkpoint_time) (emit (EvSleepUs (100 * 1000)) w3)) /\
  ((0 < req /\ CHECKPOINT_MIN_PERIOD <= elapsed) \/
   (req = 0 /\ colo_checkpoint_period w <= elapsed) ->
   colo_thread_turn checkpoint_time w = do_checkpoint w3) /\
  (forall w4 w5 w6 t',
     colo_do_checkpoint_transaction w4 = Done 0 w5 ->
     qemu_clock_get_ms w5 = Done t' w6 ->
     do_checkpoint w4 = Done (Again t') w6) /\
  colo_checkpoint_period quiet = 10000.
Proof.
  intros H1 H2 H3 elapsed remaining.
  split; [intros Hr; apply wrap_s64_small; exact Hr|].
  split.
  { intros Hlt Hfit. subst remaining. unfold CHECKPOINT_MIN_PERIOD in *.
    assert (Hel : - 2 ^ 63 <= elapsed < 2 ^ 63).
    { subst elapsed. unfold wrap_s64.
      pose proof (Z.mod_pos_bound (t - checkpoint_time + 2 ^ 63) (2 ^ 64)).
      lia. }
    rewrite (wrap_s64_small (z:=100 - _)) by lia.
    rewrite (wrap_s64_small (z:=1000 * _)) by lia.
    apply wrap_u64_small. lia. }
  split; [|split; [|split; [|split; [exact do_checkpoint_done|reflexivity]]]].
  all: revert H1 H2 H3; unfold colo_thread_turn; generalize do_checkpoint;
    intros dc; destruct w; run.
  all: intros H1 H2 H3.
  all: apply Done_inj in H1; destruct H1 as [H1 <-].
  all: apply Done_inj in H2; destruct H2 as [<- <-].
  all: apply Done_inj in H3; destruct H3 as [<- <-].
  all: subst remaining elapsed; unfold CHECKPOINT_MIN_PERIOD in *.
  - intros Hpos Hlt. repeat (resolve; run). reflexivity.
  - intros Hz Hlt. repeat (resolve; run). reflexivity.
  - intros [[Hpos Hge]|[Hz Hge]]; repeat (resolve; run); reflexivity.
Qed.

Lemma checkpoint_pacing_witness :
  let w := with_script OProxyCompare [1]
             (with_script OClock [-50] (primary_world [])) in
  let w1 := final (failover_request_is_set w) in
  let w2 := final (colo_proxy_compare w1) in
  let w3 := final (qemu_clock_get_ms w2) in
  colo_thread_turn 0 w = do_checkpoint (emit (EvSleepUs 150000) w3).
Proof.
  intros w w1 w2 w3.
  refine (proj1 (proj2 (proj2 (@checkpoint_pacing 0 w w1 w2 w3 1 (-50)
                                 eq_refl eq_refl eq_refl))) _ _).
  - lia.
  - vm_compute. reflexivity.
Defined.

(** ** The Secondary *)

(** C8. At [out:] the Secondary looks at the failover flag; when it is not
    set it sleeps 2 s and looks again.  Not set at the second look: the
    proxy is destroyed and the process exits with status 1.  Set: the
    thread waits for [failover_completed], never leaving the wait when it
    does not come, then clears the flag and only then releases its
    resources. *)
Theorem incoming_termination
  (ctl fb : bool) (dev_hotplug : Z) (w w1 w2 : world) (b1 b2 : bool) :
  let w0 :=
    emit (EvErrorReport
            (Message "Detect some error or get a failover request")) w in
  failover_request_is_set w0 = Done b1 w1 ->
  failover_request_is_set
    (if b1 then w1 else emit (EvSleepUs (2000 * 1000)) w1) = Done b2 w2 ->
  (b1 = true -> b2 = true) /\
  (b2 = false ->
   colo_incoming_out ctl fb dev_hotplug w =
   Exited 1 (emit (EvProxyDestroy COLO_SECONDARY_MODE)
               (emit (EvErrorReport (Message "SVM is going to exit!")) w2))) /\
  (b2 = true ->
   failover_completed w = false -> failover_done_later w = false ->
   colo_incoming_out ctl fb dev_hotplug w = Hung w2) /\
  (b2 = true ->
   failover_completed w = true \/ failover_done_later w = true ->
   exists w',
     colo_incoming_out ctl fb dev_hotplug w = Done tt w' /\
     failover_completed w' = true /\
     failover_request w' = false /\
     qdev_hotplug w' = dev_hotplug /\
     log w' = log w2 ++ [EvFailoverClear]
                ++ (if fb then [EvBufclose] else [])
                ++ [EvRamCacheRelease]
                ++ (if ctl then [EvFclose Fctl] else [])
                ++ [EvQsbFree; EvLoadvmExitColo]).
Proof.
  intros w0 H1 H2. subst w0. revert H1 H2. destruct w. run.
  intros H1. apply Done_inj in H1. destruct H1 as [H1 <-].
  destruct b1; run; intros H2; apply Done_inj in H2; destruct H2 as [H2 <-].
  all: cbn [failover_completed failover_done_later].
  all: split; [|split; [|split]].
  all: try (intros _; rewrite <- H2, H1; apply orb_true_r).
  all: try (intros Hb; discriminate Hb).
  all: try (intros ->; repeat (resolve; run); reflexivity).
  all: try (intros -> -> ->; repeat (resolve; run); reflexivity).
  all: try (intros ->; exfalso; rewrite H1, orb_true_r in H2; discriminate H2).
  all: intros -> Hc; destruct failover_completed0, failover_done_later0;
    try (destruct Hc as [Hc|Hc]; discriminate Hc);
    destruct fb, ctl;
    (eexists; split; [repeat (resolve; run); reflexivity|];
     split; [reflexivity|]; split; [reflexivity|]; split; [reflexivity|]);
    cbn [log]; flat; reflexivity.
Qed.

Lemma ztake_length_le {A} (l : list A) :
  forall n, (length (ztake n l) <= length l)%nat.
Proof.
  induction l as [|a l IH]; intros n; simpl.
  - lia.
  - destruct (n <=? 0); simpl; [lia|]. specialize (IH (n - 1)). lia.
Qed.

Lemma drop_bytes_length (n : Z) (q : QEMUFile) :
  (length (rx (drop_bytes n q)) <= length (rx q))%nat.
Proof.
  unfold drop_bytes, qemu_file_set_error.
  destruct (Z.of_nat (length (rx q)) <? n); simpl;
    [destruct (last_error q =? 0); simpl|]; apply zdrop_length.
Qed.

Lemma take_bytes_length (n : Z) (q : QEMUFile) :
  (length (take_bytes n q) <= length (rx q))%nat.
Proof. apply ztake_length_le. Qed.

(** A count of bytes below 2^31 goes through [int ret] and the comparison
    with a [uint64_t] unchanged. *)
Lemma fill_count_fits (k : Z) (q : QEMUFile) :
  Z.of_nat (length (rx q)) < 2 ^ 31 ->
  wrap_u64
    (wrap_s32
       (Z.of_nat
          (length
             (take_bytes k (drop_bytes 8 (drop_bytes 8 (drop_bytes 8 q)))))))
  = Z.of_nat
      (length (take_bytes k (drop_bytes 8 (drop_bytes 8 (drop_bytes 8 q))))).
Proof.
  intros Hlen.
  pose proof (take_bytes_length k (drop_bytes 8 (drop_bytes 8 (drop_bytes 8 q)))).
  pose proof (drop_bytes_length 8 (drop_bytes 8 (drop_bytes 8 q))).
  pose proof (drop_bytes_length 8 (drop_bytes 8 q)).
  pose proof (drop_bytes_length 8 q).
  rewrite wrap_s32_small by lia. apply wrap_u64_small. lia.
Qed.

Lemma EvFillBuffer_inj (f f' : fid) (s s' n n' : Z) :
  EvFillBuffer f s n = EvFillBuffer f' s' n' -> s = s' /\ n = n'.
Proof. intros [= _ -> ->]. split; reflexivity. Qed.

(** A turn of the Secondary on a stream of fewer than 2^31 bytes, where
    the count of bytes obtained goes through [int ret] unchanged: the
    8-byte length is read right after CHECKPOINT_SEND and that many bytes
    are then read into the buffer; when the number of bytes obtained is not
    the length announced, the turn goes to [out:] and CHECKPOINT_RECEIVED is
    not sent. *)
Theorem short_payload_is_fatal
  (w : world) (o : outcome incoming_turn) (new : list event) (size n : Z) :
  colo_incoming_turn w = o ->
  log (final o) = log w ++ new ->
  In (EvFillBuffer Fmig size n) new ->
  Z.of_nat (length (rx (files w Fmig))) < 2 ^ 31 ->
  Z.of_nat (length (colo_buffer (final o))) = n /\
  exists proxy post,
    new = receive_prefix proxy size n ++ post /\
    (n <> size ->
     post = [EvErrorReport (Message "can't get all migration data")] /\
     tokens_out Fctl new = [COLO_CHECKPOINT_SUSPENDED] /\
     exists w', o = Done (Out false) w') /\
    (n = size ->
     exists post', post = EvPut64 Fctl COLO_CHECKPOINT_RECEIVED :: post').
Proof.
  intros Hrun Hlog HIn Hlen. revert Hlen HIn Hlog. revert Hrun.
  destruct w. run. branch; intros <-; cbn [final log colo_buffer].
  all: intros Hlen HIn Hlog; revert Hlog; flat; intros Hlog;
    apply app_inv_head in Hlog; subst new.
  all: cbn [In] in HIn.
  all: repeat (destruct HIn as [HIn|HIn]; [try discriminate HIn|]);
    try contradiction.
  all: apply EvFillBuffer_inj in HIn; destruct HIn as [<- <-].
  all: match goal with
       | H : negb (wrap_u64 (wrap_s32 _) =? _) = _ |- _ =>
           rewrite (fill_count_fits _ _ Hlen) in H
       end.
  all: split; [reflexivity|].
  all: eexists; eexists; split; [settle; reflexivity|].
  all: tests.
  all: split; [intros Hne | intros He].
  all: try (exfalso; congruence).
  all: try (eexists; reflexivity).
  all: split; [reflexivity|]; split; [|eexists; reflexivity].
  all: settle; cbn; reflexivity.
Qed.

(** ** The failover arbiter *)

Lemma update_bh_last (g : QEMUBH -> QEMUBH) (l : list QEMUBH) (b : QEMUBH) :
  update_bh (length l) g (l ++ [b]) = l ++ [g b].
Proof.
  induction l as [|a l IH]; simpl; [reflexivity|]. now rewrite IH.
Qed.

Lemma failover_request_set_run (w : world) :
  exists w',
    failover_request_set w = Done tt w' /\
    failover_request w' = true /\
    bhs w' = bhs w ++ [mkBH true false] /\
    failover_bh w' = Some (length (bhs w)) /\
    log w' = log w ++ [EvBhNew (length (bhs w));
                       EvBhSchedule (length (bhs w))] /\
    failover_completed w' = failover_completed w.
Proof.
  destruct w. run. eexists. split; [reflexivity|].
  cbn [failover_request bhs failover_bh log failover_completed].
  repeat split.
  - apply update_bh_last.
  - flat. reflexivity.
Qed.

Lemma scheduled_bhs_app (w w' : world) (l : list QEMUBH) :
  bhs w' = bhs w ++ l ->
  scheduled_bhs w' =
  (scheduled_bhs w
   + length (filter (fun b => bh_scheduled b && negb (bh_deleted b)) l))%nat.
Proof.
  intros H. unfold scheduled_bhs. rewrite H, filter_app, length_app.
  reflexivity.
Qed.

(** Every call of [failover_request_set] sets the flag and creates and
    schedules one more bottom half: [k] calls leave [k] more bottom halves
    scheduled.  [colo_do_failover] sets [failover_completed] whenever it
    returns and never clears it, so that only its first run can take the
    flag from false to true. *)
Theorem failover_requests_accumulate (k : nat) (w : world) :
  (exists w',
     repeat_request k w = Done tt w' /\
     (0 < k -> failover_request w' = true)%nat /\
     scheduled_bhs w' = (scheduled_bhs w + k)%nat /\
     length (bhs w') = (length (bhs w) + k)%nat) /\
  (forall w', colo_do_failover w = Done tt w' -> failover_completed w' = true) /\
  (failover_completed w = true ->
   failover_completed (final (colo_do_failover w)) = true).
Proof.
  split; [|split].
  - revert w. induction k as [|k IH]; intros w.
    + exists w. cbn. repeat split; try lia.
    + destruct (failover_request_set_run w)
        as (w1 & Hrun & Hflag & Hbhs & _ & _ & _).
      destruct (IH w1) as (w' & Hrest & Hflag' & Hsched & Hlen).
      exists w'. cbn [repeat_request]. unfold bind at 1. rewrite Hrun.
      split; [exact Hrest|]. split; [|split].
      * intros _. destruct k as [|k'].
        -- cbn in Hrest. apply Done_inj in Hrest.
           destruct Hrest as [_ <-]. exact Hflag.
        -- apply Hflag'. lia.
      * rewrite Hsched, (scheduled_bhs_app w w1 _ Hbhs). cbn. lia.
      * rewrite Hlen, Hbhs, length_app. cbn. lia.
  - revert w. intros w0 w'. destruct w0. run. branch; leaf; subst w'; reflexivity.
  - intros Hc. destruct w. cbn [failover_completed] in Hc. subst.
    match goal with
    | |- failover_completed (final ?t) = true =>
        remember t as o eqn:Ho
    end.
    symmetry in Ho. revert Ho. run. branch; intros <-; reflexivity.
Qed.

(** ** The migration status *)

Lemma steady_bind {A B} (m : M A) (k : A -> M B) :
  steady m -> (forall a, steady (k a)) -> steady (bind m k).
Proof.
  intros Hm Hk w. unfold bind.
  destruct (Hm w) as [Hs [n Hn]].
  destruct (m w) as [a w1|c w1|w1|w1]; cbn [final] in *;
    try (split; [assumption|exists n; assumption]).
  destruct (Hk a w1) as [Hs' [n' Hn']].
  split; [congruence|].
  exists (n ++ n'). rewrite Hn', Hn, app_assoc. reflexivity.
Qed.

Lemma steady_ret {A} (a : A) : steady (ret a).
Proof. intros w. split; [reflexivity|]. exists []. now rewrite app_nil_r. Qed.

Lemma steady_call (e : event) : steady (call e).
Proof. intros w. split; [reflexivity|]. exists [e]. reflexivity. Qed.

Lemma steady_exit {A} (c : Z) : steady (@exit A c).
Proof. intros w. split; [reflexivity|]. exists []. now rewrite app_nil_r. Qed.

Lemma steady_park {A} : steady (@park A).
Proof. intros w. split; [reflexivity|]. exists []. now rewrite app_nil_r. Qed.

Lemma steady_ask (o : oracle) (d : Z) : steady (ask o d).
Proof.
  intros w. split; [reflexivity|]. exists []. cbn. now rewrite app_nil_r.
Qed.

(** A change of the world that touches neither the status nor the log. *)
Lemma steady_quiet {A} (a : world -> A) (g : world -> world) :
  (forall w, mig_state (g w) = mig_state w) ->
  (forall w, log (g w) = log w) ->
  steady (fun w => Done (a w) (g w)).
Proof.
  intros Hs Hl w. cbn [final]. split; [apply Hs|].
  exists []. rewrite Hl. now rewrite app_nil_r.
Qed.

(** A change of the world that adds one event to the log. *)
Lemma steady_logged {A} (a : world -> A) (e : world -> event)
      (g : world -> world) :
  (forall w, mig_state (g w) = mig_state w) ->
  (forall w, log (g w) = log w) ->
  steady (fun w => Done (a w) (emit (e w) (g w))).
Proof.
  intros Hs Hl w. cbn [final]. split; [apply Hs|].
  exists [e w]. cbn. now rewrite Hl.
Qed.

Create HintDb steady.

#[local] Hint Resolve steady_ret steady_call steady_exit steady_park
  steady_ask : steady.

Ltac steady_prim :=
  first
    [ apply steady_quiet; intros; reflexivity
    | apply steady_logged; intros; reflexivity ].

Ltac steady_step :=
  lazymatch goal with
  | |- steady (bind _ _) => apply steady_bind; [|intros ?]
  | |- steady (if ?c then _ else _) => destruct c
  | |- steady (let '(_, _) := ?r in _) => destruct r
  | |- steady (match ?t with Again _ => _ | Leave => _ end) => destruct t
  | |- _ => first [solve [auto with steady] | steady_prim]
  end.

Ltac steady_auto := repeat steady_step.

Lemma steady_qemu_fflush f : steady (qemu_fflush f).
Proof. unfold qemu_fflush. steady_prim. Qed.

Lemma steady_qemu_file_get_error f : steady (qemu_file_get_error f).
Proof. unfold qemu_file_get_error. steady_prim. Qed.

Lemma steady_qemu_get_be64 f : steady (qemu_get_be64 f).
Proof. unfold qemu_get_be64. steady_prim. Qed.

#[local] Hint Resolve steady_qemu_fflush steady_qemu_file_get_error
  steady_qemu_get_be64 : steady.

Lemma steady_colo_ctl_put f v : steady (colo_ctl_put f v).
Proof. unfold colo_ctl_put, qemu_put_be64. steady_auto. Qed.

Lemma steady_colo_ctl_get_value f v : steady (colo_ctl_get_value f v).
Proof. unfold colo_ctl_get_value. steady_auto. Qed.

#[local] Hint Resolve steady_colo_ctl_put steady_colo_ctl_get_value : steady.

Lemma steady_colo_ctl_get f v : steady (colo_ctl_get f v).
Proof. unfold colo_ctl_get, error_report. steady_auto. Qed.

Lemma steady_failover_request_is_set : steady failover_request_is_set.
Proof. unfold failover_request_is_set. steady_auto. Qed.

#[local] Hint Resolve steady_colo_ctl_get steady_failover_request_is_set
  : steady.

Lemma steady_gets {A} (p : world -> A) : steady (gets p).
Proof. unfold gets. steady_prim. Qed.

Lemma steady_out_of_fuel {A} : steady (@out_of_fuel A).
Proof. intros w. split; [reflexivity|]. exists []. now rewrite app_nil_r. Qed.

#[local] Hint Resolve steady_gets steady_out_of_fuel : steady.

Lemma steady_wait_failover_completed : steady wait_failover_completed.
Proof.
  intros w. unfold wait_failover_completed.
  destruct (failover_completed w); [|destruct (failover_done_later w)];
    (split; [reflexivity|]; exists []; cbn; now rewrite app_nil_r).
Qed.

Lemma steady_failover_request_set : steady failover_request_set.
Proof.
  unfold failover_request_set, qemu_bh_new, qemu_bh_schedule, modify.
  steady_auto.
Qed.

#[local] Hint Resolve steady_wait_failover_completed
  steady_failover_request_set : steady.

Ltac unfold_collaborators :=
  unfold qsb_set_length_0, qemu_bufopen, qemu_bufclose, qemu_bufflush,
    qemu_mutex_lock_iothread, qemu_mutex_unlock_iothread,
    vm_stop_force_state, vm_start, qemu_savevm_state_begin,
    qemu_savevm_state_complete, colo_proxy_checkpoint, colo_proxy_compare,
    colo_proxy_init, colo_proxy_destroy, qsb_get_length, qsb_put_buffer,
    qemu_system_shutdown_request_core, qemu_clock_get_ms, g_usleep,
    failover_request_clear, qsb_free, qsb_create, qemu_fclose,
    qemu_fopen_socket, error_report, modify.

Lemma steady_transaction : steady colo_do_checkpoint_transaction.
Proof.
  unfold colo_do_checkpoint_transaction, transaction_out.
  unfold_collaborators. steady_auto.
Qed.

#[local] Hint Resolve steady_transaction : steady.

Lemma steady_do_checkpoint : steady do_checkpoint.
Proof. unfold do_checkpoint. unfold_collaborators. steady_auto. Qed.

#[local] Hint Resolve steady_do_checkpoint : steady.

Lemma steady_turn (checkpoint_time : Z) :
  steady (colo_thread_turn checkpoint_time).
Proof. unfold colo_thread_turn. unfold_collaborators. steady_auto. Qed.

Lemma steady_loop (fuel : nat) :
  forall checkpoint_time, steady (colo_thread_loop fuel checkpoint_time).
Proof.
  induction fuel as [|fuel IH]; intros ct; cbn [colo_thread_loop];
    (apply steady_bind; [apply steady_gets|]); intros state;
    destruct (negb (status_eqb state MIGRATION_STATUS_COLO));
    auto with steady.
  apply steady_bind; [apply steady_turn|].
  intros [ct'|]; [apply IH|apply steady_ret].
Qed.

Lemma steady_thread_out (control : bool) (dev_hotplug : Z) :
  steady (colo_thread_out control dev_hotplug).
Proof. unfold colo_thread_out. unfold_collaborators. steady_auto. Qed.

#[local] Hint Resolve steady_loop steady_thread_out : steady.

Lemma steady_thread (fuel : nat) : steady (colo_thread fuel).
Proof. unfold colo_thread. unfold_collaborators. steady_auto. Qed.

(** [colo_start_checkpointer] moves the status from ACTIVE to COLO by
    compare-and-set and creates the thread; nothing has been read from the
    peer by then. *)
Lemma start_checkpointer_run (w : world) :
  exists w' pre swapped,
    colo_start_checkpointer w = Done tt w' /\
    mig_state w' =
      (if status_eqb (mig_state w) MIGRATION_STATUS_ACTIVE
       then MIGRATION_STATUS_COLO else mig_state w) /\
    log w' = log w ++ pre ++
             [EvUnlock; EvThreadJoin; EvLock;
              EvMigrateSetState MIGRATION_STATUS_ACTIVE MIGRATION_STATUS_COLO
                swapped;
              EvThreadCreate] /\
    occurs is_ready (pre ++ [EvUnlock; EvThreadJoin; EvLock]) = false.
Proof.
  destruct w. destruct colo_bh0 as [bh|];
    destruct (status_eqb mig_state0 MIGRATION_STATUS_ACTIVE) eqn:Hs; run;
    rewrite Hs; cbv beta iota; run; rewrite ?Hs.
  1, 2: eexists; exists [EvBhDelete bh]; eexists.
  3, 4: eexists; exists []; eexists.
  all: (split; [reflexivity|]); (split; [reflexivity|]);
    cbn [log app]; flat; split; reflexivity.
Qed.

(** The checkpoint loop of [colo_thread] is entered only after READY has
    been received. *)
Lemma loop_after_ready
  (fuel : nat) (w : world) (o : outcome unit) (new : list event) :
  colo_thread fuel w = o ->
  log (final o) = log w ++ new ->
  occurs is_loop_event new = true ->
  occurs is_ready new = true.
Proof.
  unfold colo_thread.
  pose proof (steady_loop fuel) as Hlp. revert Hlp.
  generalize (colo_thread_loop fuel). intros lp Hlp.
  destruct w. run. branch.
  all: try (intros <- Hlog; new_events Hlog;
            cbn [occurs existsb is_loop_event orb];
            intros Hocc; discriminate Hocc).
  match goal with
  | |- match lp ?ct ?W with _ => _ end = _ -> _ =>
      destruct (Hlp ct W) as [_ [n Hn]];
      destruct (lp ct W) as [a w1|c w1|w1|w1]; cbn [final] in Hn;
      destruct w1; cbn [log] in Hn; subst
  end.
  all: run; branch.
  all: intros <- Hlog; new_events Hlog; intros _.
  all: settle.
  all: cbn [occurs existsb is_ready orb]; rewrite Z.eqb_refl; reflexivity.
Qed.

Lemma status_eqb_eq (a b : MigrationStatus) : status_eqb a b = true -> a = b.
Proof. destruct a, b; cbn; intros H; congruence. Qed.

(** The failover action changes the status only from COLO to COMPLETED,
    and only by the compare-and-set. *)
Lemma failover_leaves_colo_by_cas
  (w : world) (o : outcome unit) (new : list event) :
  colo_do_failover w = o ->
  log (final o) = log w ++ new ->
  mig_state (final o) = mig_state w \/
  (mig_state w = MIGRATION_STATUS_COLO /\
   mig_state (final o) = MIGRATION_STATUS_COMPLETED /\
   In (EvMigrateSetState MIGRATION_STATUS_COLO MIGRATION_STATUS_COMPLETED true)
      new).
Proof.
  destruct w. run. branch; intros <- Hlog; new_events Hlog;
    cbn [final mig_state].
  all: try (left; reflexivity).
  all: right; split;
    [apply status_eqb_eq; assumption | split; [reflexivity|]].
  all: cbn [In]; tauto.
Qed.

(** C3 (as the code has it).  The status is set to COLO, by
    compare-and-set from ACTIVE, in [colo_start_checkpointer], before the
    checkpoint thread exists and so before READY is awaited; what waits for
    READY is the checkpoint loop, which the thread enters only after READY
    has been received.  The thread itself never writes the status; the
    failover action takes it out of COLO, to COMPLETED, by compare-and-set
    only. *)
Theorem colo_status_discipline :
  (forall w,
     exists w' pre swapped,
       colo_start_checkpointer w = Done tt w' /\
       mig_state w' =
         (if status_eqb (mig_state w) MIGRATION_STATUS_ACTIVE
          then MIGRATION_STATUS_COLO else mig_state w) /\
       log w' = log w ++ pre ++
                [EvUnlock; EvThreadJoin; EvLock;
                 EvMigrateSetState MIGRATION_STATUS_ACTIVE
                   MIGRATION_STATUS_COLO swapped;
                 EvThreadCreate] /\
       occurs is_ready (pre ++ [EvUnlock; EvThreadJoin; EvLock]) = false) /\
  (forall fuel w new,
     log (final (colo_thread fuel w)) = log w ++ new ->
     occurs is_loop_event new = true ->
     occurs is_ready new = true) /\
  (forall fuel w, mig_state (final (colo_thread fuel w)) = mig_state w) /\
  (forall w new,
     log (final (colo_do_failover w)) = log w ++ new ->
     mig_state (final (colo_do_failover w)) = mig_state w \/
     (mig_state w = MIGRATION_STATUS_COLO /\
      mig_state (final (colo_do_failover w)) = MIGRATION_STATUS_COMPLETED /\
      In (EvMigrateSetState MIGRATION_STATUS_COLO MIGRATION_STATUS_COMPLETED
            true) new)).
Proof.
  split; [exact start_checkpointer_run|].
  split; [intros fuel w new; exact (@loop_after_ready fuel w _ new eq_refl)|].
  split; [intros fuel w; exact (proj1 (steady_thread fuel w))|].
  intros w new. exact (@failover_leaves_colo_by_cas w _ new eq_refl).
Qed.

(** The status is COLO while READY has not been received: a session whose
    peer never sends READY. *)
Lemma colo_entered_before_ready :
  let started := final (colo_start_checkpointer quiet) in
  let ended := final (colo_primary_session 1 quiet) in
  mig_state quiet = MIGRATION_STATUS_ACTIVE /\
  mig_state started = MIGRATION_STATUS_COLO /\
  occurs is_ready (log started) = false /\
  mig_state ended = MIGRATION_STATUS_COLO /\
  occurs is_ready (log ended) = false.
Proof. vm_compute. repeat split; reflexivity. Qed.

(** C2 (the code departs from the claim).  A second request is not
    ignored.  [failover_request_set] has no guard: two calls in a row leave
    two bottom halves scheduled, not one, and [failover_bh] holds only the
    second.  The first run of [colo_failover_bh] deletes that one and
    resets [failover_bh]; the bottom half of the first call is still
    scheduled, and its run hands a NULL bottom half to [qemu_bh_delete]. *)
Theorem second_request_schedules_again :
  let w' := final (repeat_request 2 quiet) in
  failover_request w' = true /\
  scheduled_bhs quiet = 0%nat /\
  scheduled_bhs w' = 2%nat /\
  scheduled_bhs w' <> 1%nat /\
  failover_bh w' = Some 1%nat /\
  exists w1,
    colo_failover_bh w' = Some (Done tt w1) /\
    failover_bh w1 = None /\
    scheduled_bhs w1 = 1%nat /\
    colo_failover_bh w1 = None.
Proof.
  vm_compute. repeat split; try reflexivity; try discriminate.
  eexists. repeat split; reflexivity.
Qed.

Lemma failover_requests_accumulate_witness :
  exists w',
    repeat_request 3 quiet = Done tt w' /\
    failover_request w' = true /\
    scheduled_bhs w' = 3%nat.
Proof.
  destruct (failover_requests_accumulate 3 quiet)
    as [(w' & Hrun & Hflag & Hsched & _) _].
  exists w'. split; [exact Hrun|]. split; [apply Hflag; lia|exact Hsched].
Defined.

(** ** The theorems at work on concrete worlds *)

Lemma colo_ctl_get_value_witness :
  let w := with_rx Fmig [x00; x46] quiet in
  exists w', colo_ctl_get_value Fmig 7 w = Done (-1, 7) w'.
Proof.
  intros w.
  destruct (colo_ctl_get_value_spec Fmig 7 w)
    as (r & out & w' & Hrun & Hw & Herr & _).
  exists w'. rewrite Hrun.
  destruct Herr as [-> ->]; [|reflexivity].
  rewrite Hw. vm_compute. reflexivity.
Defined.

Lemma colo_ctl_get_witness :
  let w := with_rx Fctl (be64_bytes COLO_CHECKPOINT_LOADED) quiet in
  exists w2,
    colo_ctl_get Fctl COLO_CHECKPOINT_SUSPENDED w = Exited 1 w2 /\
    log w2 = [EvGet64 Fctl COLO_CHECKPOINT_LOADED;
              EvErrorReport
                (UnexpectedState COLO_CHECKPOINT_SUSPENDED
                   COLO_CHECKPOINT_LOADED)].
Proof.
  intros w.
  destruct (colo_ctl_get_spec Fctl COLO_CHECKPOINT_SUSPENDED w)
    as (_ & _ & H).
  apply H.
  - vm_compute. discriminate.
  - vm_compute. discriminate.
Defined.

(** On a file in error -32 the read of [colo_ctl_get] fails and the call
    returns -1, not the error of the file, which [colo_ctl_put] does
    return. *)
Lemma read_error_is_not_passed_on :
  let w := set_file Fctl
             (mkFile (be64_bytes COLO_CHECKPOINT_SUSPENDED) [] (-32)) quiet in
  channel_error Fctl (after_get Fctl w) = -32 /\
  colo_ctl_get Fctl COLO_CHECKPOINT_SUSPENDED w
  = Done (-1) (after_get Fctl w) /\
  exists w', colo_ctl_put Fctl COLO_CHECKPOINT_SUSPENDED w = Done (-32) w'.
Proof.
  vm_compute. split; [reflexivity|]. split; [reflexivity|].
  eexists. reflexivity.
Qed.

Lemma colo_wait_handle_cmd_witness :
  let w := with_rx Fmig (be64_bytes COLO_GUEST_SHUTDOWN) quiet in
  exists w2,
    colo_wait_handle_cmd Fmig 0 w = Hung w2 /\
    log w2 = log (after_get Fmig w)
             ++ [EvLock; EvShutdownRequestCore; EvUnlock].
Proof.
  intros w.
  destruct (colo_wait_handle_cmd_spec Fmig 0 w) as (_ & _ & _ & _ & H).
  apply H.
  - vm_compute. discriminate.
  - vm_compute. reflexivity.
Defined.

Lemma short_payload_witness :
  let w := with_rx Fmig
             (flat_map be64_bytes
                [COLO_CHECKPOINT_NEW; COLO_CHECKPOINT_SEND; 5]
              ++ [x01; x02; x03]) quiet in
  let o := colo_incoming_turn w in
  (exists w', o = Done (Out false) w') /\
  tokens_out Fctl (log (final o)) = [COLO_CHECKPOINT_SUSPENDED] /\
  Z.of_nat (length (colo_buffer (final o))) = 3.
Proof.
  intros w o.
  assert (HIn : In (EvFillBuffer Fmig 5 3) (log (final o))).
  { vm_compute. repeat (first [left; reflexivity | right]). }
  assert (Hlen : Z.of_nat (length (rx (files w Fmig))) < 2 ^ 31).
  { vm_compute. reflexivity. }
  destruct (@short_payload_is_fatal w o (log (final o)) 5 3
              eq_refl eq_refl HIn Hlen)
    as (Hbuf & proxy & post & Hnew & Hne & _).
  destruct Hne as (_ & Htok & Hout); [discriminate|].
  split; [exact Hout|]. split; [exact Htok|exact Hbuf].
Defined.

Lemma incoming_termination_witness :
  let w0 := emit (EvErrorReport
                    (Message "Detect some error or get a failover request"))
                 quiet in
  let w1 := final (failover_request_is_set w0) in
  let w2 := final (failover_request_is_set
                     (emit (EvSleepUs (2000 * 1000)) w1)) in
  colo_incoming_out true false 1 quiet =
  Exited 1 (emit (EvProxyDestroy COLO_SECONDARY_MODE)
              (emit (EvErrorReport (Message "SVM is going to exit!")) w2)).
Proof.
  intros w0 w1 w2.
  destruct (@incoming_termination true false 1 quiet w1 w2 false false
              eq_refl eq_refl) as (_ & H & _).
  apply H. reflexivity.
Defined.

Lemma colo_status_discipline_witness :
  let w := with_script OProxyCompare [1]
             (with_script OClock [0; 200; 300]
                (primary_world
                   [COLO_READY; COLO_CHECKPOINT_SUSPENDED;
                    COLO_CHECKPOINT_RECEIVED; COLO_CHECKPOINT_LOADED])) in
  occurs is_ready (log (final (colo_thread 2 w))) = true /\
  mig_state (final (colo_thread 2 w)) = MIGRATION_STATUS_COLO.
Proof.
  intros w.
  destruct colo_status_discipline as (_ & Hready & Hstate & _).
  split.
  - apply (Hready 2%nat w (log (final (colo_thread 2 w))) eq_refl).
    vm_compute. reflexivity.
  - rewrite Hstate. reflexivity.
Defined.

(** ** The order of the tokens of the Secondary *)

Lemma tokens_out_app (f : fid) (l l' : list event) :
  tokens_out f (l ++ l') = tokens_out f l ++ tokens_out f l'.
Proof.
  induction l as [|e l IH]; [reflexivity|].
  destruct e; cbn [app tokens_out]; try exact IH.
  destruct (fid_eqb f f0); cbn [app]; now rewrite IH.
Qed.

Lemma drop_bytes_shrinks (n : Z) (q : QEMUFile) :
  0 < n -> rx q <> [] ->
  (length (rx (drop_bytes n q)) < length (rx q))%nat.
Proof.
  intros Hn Hq. unfold drop_bytes, qemu_file_set_error.
  destruct (Z.of_nat (length (rx q)) <? n); cbn [rx last_error];
    [destruct (last_error q =? 0); cbn [rx]|];
    apply zdrop_shrinks; assumption.
Qed.

(** A token other than 0 cannot be read from an empty stream. *)
Lemma token_read_nonempty (q : QEMUFile) (v : Z) :
  be_decode (take_bytes 8 q ++ repeat x00 (8 - length (take_bytes 8 q))) = v ->
  v <> 0 -> rx q <> [].
Proof.
  intros Hv Hnz Hq. apply Hnz. rewrite <- Hv.
  unfold take_bytes. rewrite Hq. reflexivity.
Qed.

(** A turn that goes on to the next one has sent the three tokens of a
    round, in order, and has used up some of the stream; a turn that ends
    the loop has sent the first few of them. *)
Lemma incoming_turn_tokens
  (w : world) (o : outcome incoming_turn) (new : list event) :
  colo_incoming_turn w = o ->
  log (final o) = log w ++ new ->
  match o with
  | Done Next w' =>
      tokens_out Fctl new = round_tokens /\
      (length (rx (files w' Fmig)) < length (rx (files w Fmig)))%nat
  | Unfinished _ => False
  | _ => exists k, tokens_out Fctl new = firstn k round_tokens
  end.
Proof.
  destruct w. run. branch; intros <- Hlog; new_events Hlog.
  all: cbn [tokens_out fid_eqb files rx].
  all: try (exists 0%nat; reflexivity).
  all: try (exists 1%nat; reflexivity).
  all: try (exists 2%nat; reflexivity).
  all: try (exists 3%nat; reflexivity).
  split; [reflexivity|].
  apply Z.eqb_eq in Heqb0.
  pose proof (token_read_nonempty _ Heqb0 ltac:(discriminate)) as Hne.
  pose proof (drop_bytes_shrinks (n:=8) (files0 Fmig) ltac:(lia) Hne).
  pose proof (drop_bytes_length 8 (drop_bytes 8 (files0 Fmig))).
  pose proof (drop_bytes_length 8 (drop_bytes 8 (drop_bytes 8 (files0 Fmig)))).
  match goal with
  | |- (length (rx (drop_bytes ?k ?q)) < _)%nat =>
      pose proof (drop_bytes_length k q)
  end.
  lia.
Qed.

Lemma steady_incoming_turn : steady colo_incoming_turn.
Proof.
  unfold colo_incoming_turn, colo_wait_handle_cmd.
  unfold_collaborators.
  unfold qsb_fill_buffer, qemu_system_reset, qemu_loadvm_state.
  steady_auto.
Qed.

Lemma rounds_snoc (n : nat) : rounds n ++ round_tokens = rounds (S n).
Proof.
  induction n as [|n IH]; [reflexivity|].
  cbn [rounds]. rewrite <- app_assoc, IH. reflexivity.
Qed.

(** The loop of the Secondary, given a turn for every byte to come and one
    more, reaches [out:] (or exits, or parks); the tokens it has sent by
    then are whole rounds followed by the beginning of one. *)
Lemma incoming_loop_tokens (fuel : nat) :
  forall w,
    (length (rx (files w Fmig)) < fuel)%nat ->
    exists new n k,
      log (final (colo_incoming_loop fuel w)) = log w ++ new /\
      tokens_out Fctl new = rounds n ++ firstn k round_tokens /\
      (forall w', colo_incoming_loop fuel w <> Unfinished w').
Proof.
  induction fuel as [|fuel IH]; intros w Hlen; [lia|].
  cbn [colo_incoming_loop]. unfold bind.
  destruct (steady_incoming_turn w) as [_ [new1 Hnew1]].
  pose proof (@incoming_turn_tokens w _ new1 eq_refl Hnew1) as Hturn.
  destruct (colo_incoming_turn w) as [[|fb] w1|c w1|w1|w1];
    cbn [final] in Hnew1.
  - destruct Hturn as [Htok Hshrink].
    destruct (IH w1 ltac:(lia)) as (new2 & n & k & Hlog & Htok2 & Hfin).
    exists (new1 ++ new2), (S n), k. split; [|split].
    + rewrite Hlog, Hnew1, app_assoc. reflexivity.
    + rewrite tokens_out_app, Htok, Htok2. cbn [rounds].
      now rewrite app_assoc.
    + exact Hfin.
  - destruct Hturn as [k Hk]. exists new1, 0%nat, k.
    split; [exact Hnew1|]. split; [exact Hk|]. discriminate.
  - destruct Hturn as [k Hk]. exists new1, 0%nat, k.
    split; [exact Hnew1|]. split; [exact Hk|]. discriminate.
  - destruct Hturn as [k Hk]. exists new1, 0%nat, k.
    split; [exact Hnew1|]. split; [exact Hk|]. discriminate.
  - contradiction.
Qed.

(** X2. The tokens of the Secondary.  In every run of
    [colo_process_incoming_checkpoints] the thread sends nothing at all, or
    READY once and then, round after round, SUSPENDED, RECEIVED and LOADED
    in this order, the last round possibly cut short; the loop never runs
    out of turns, whatever is on the stream. *)
Lemma incoming_token_order (w : world) :
  exists new,
    log (final (colo_process_incoming_checkpoints w)) = log w ++ new /\
    (tokens_out Fctl new = [] \/
     exists n k,
       tokens_out Fctl new = COLO_READY :: rounds n ++ firstn k round_tokens) /\
    (forall w', colo_process_incoming_checkpoints w <> Unfinished w').
Proof.
  remember (colo_process_incoming_checkpoints w) as o eqn:Ho.
  symmetry in Ho. revert Ho.
  destruct w. run. branch.
  all: try (intros <-; cbv beta iota; flat; eexists;
            (split; [reflexivity|]); (split; [|discriminate]);
            cbn [tokens_out fid_eqb];
            first [left; reflexivity
                  | right; exists 0%nat, 0%nat; reflexivity]).
  match goal with
  | |- match colo_incoming_loop ?fuel ?W with _ => _ end = _ -> _ =>
      destruct (@incoming_loop_tokens fuel W (Nat.lt_succ_diag_r _))
        as (new2 & n & k & Hlog & Htok & Hfin);
      destruct (colo_incoming_loop fuel W) as [fb w1|c w1|w1|w1];
      cbn [final] in Hlog; destruct w1; cbn [log] in Hlog; subst
  end.
  all: try (exfalso; eapply Hfin; reflexivity).
  all: run; branch.
  all: intros <-; cbv beta iota; flat; eexists;
    (split; [reflexivity|]); (split; [|discriminate]); right;
    exists n, k; rewrite <- Htok.
  all: cbn [tokens_out fid_eqb]; rewrite ?tokens_out_app;
    cbn [tokens_out fid_eqb]; rewrite ?app_nil_r; reflexivity.
Qed.

(** ** The wire format *)

Lemma byte_val_range (b : byte) : 0 <= byte_val b < 256.
Proof. unfold byte_val. pose proof (Byte.to_N_bounded b). lia. Qed.

Lemma byte_val_of_Z (z : Z) : byte_val (byte_of_Z z) = z mod 256.
Proof.
  unfold byte_of_Z, byte_val.
  change 255 with (Z.ones 8). rewrite Z.land_ones by lia.
  change (2 ^ 8) with 256.
  pose proof (Z.mod_pos_bound z 256 ltac:(lia)) as Hr.
  destruct (Byte.of_N (Z.to_N (z mod 256))) as [b|] eqn:Hb.
  - apply Byte.to_of_N in Hb. rewrite Hb. lia.
  - apply Byte.of_N_None_iff in Hb. lia.
Qed.

Lemma small_high_bits (b n : Z) :
  0 <= b < 256 -> 8 <= n -> Z.testbit b n = false.
Proof.
  intros Hb Hn. destruct (Z.eq_dec b 0) as [->|Hnz]; [apply Z.bits_0|].
  apply Z.bits_above_log2; [lia|].
  apply Z.log2_lt_pow2; [lia|].
  assert (2 ^ 8 <= 2 ^ n) by (apply Z.pow_le_mono_r; lia).
  change (2 ^ 8) with 256 in *. lia.
Qed.

Lemma land_shifted_small (a b : Z) : 0 <= b < 256 -> Z.land (a * 256) b = 0.
Proof.
  intros Hb. apply Z.bits_inj'; intros n Hn.
  rewrite Z.land_spec, Z.bits_0.
  destruct (Z.lt_ge_cases n 8) as [Hlt|Hge].
  - change 256 with (2 ^ 8). rewrite Z.mul_pow2_bits_low by lia. reflexivity.
  - rewrite (@small_high_bits b n Hb) by lia. apply andb_false_r.
Qed.

(** Shifting in one more byte is multiplying by 256 and adding it. *)
Lemma lor_shift_add (a b : Z) :
  0 <= b < 256 -> Z.lor (Z.shiftl a 8) b = a * 256 + b.
Proof.
  intros Hb. rewrite Z.shiftl_mul_pow2 by lia. change (2 ^ 8) with 256.
  rewrite <- Z.lxor_lor by (apply land_shifted_small; assumption).
  symmetry. apply Z.add_nocarry_lxor. apply land_shifted_small; assumption.
Qed.

(** What [qemu_put_be64] writes, [qemu_get_be64] reads back. *)
Lemma be64_roundtrip (v : Z) :
  0 <= v < 2 ^ 64 -> be_decode (be64_bytes v) = v.
Proof.
  intros Hv. unfold be_decode, be64_bytes. cbn [map fold_left].
  rewrite !byte_val_of_Z.
  rewrite !lor_shift_add by (apply Z.mod_pos_bound; lia).
  rewrite !Z.shiftr_div_pow2 by lia.
  change (8 * 7) with 56. change (8 * 6) with 48. change (8 * 5) with 40.
  change (8 * 4) with 32. change (8 * 3) with 24. change (8 * 2) with 16.
  change (8 * 1) with 8. change (8 * 0) with 0.
  assert (Hstep : forall k, 0 <= k ->
            v / 2 ^ k = 256 * (v / 2 ^ (k + 8)) + (v / 2 ^ k) mod 256).
  { intros k Hk. rewrite Z.pow_add_r by lia.
    rewrite <- Z.div_div by lia. change (2 ^ 8) with 256.
    apply Z.div_mod. lia. }
  pose proof (Hstep 0 ltac:(lia)) as H0.
  pose proof (Hstep 8 ltac:(lia)) as H8.
  pose proof (Hstep 16 ltac:(lia)) as H16.
  pose proof (Hstep 24 ltac:(lia)) as H24.
  pose proof (Hstep 32 ltac:(lia)) as H32.
  pose proof (Hstep 40 ltac:(lia)) as H40.
  pose proof (Hstep 48 ltac:(lia)) as H48.
  pose proof (Hstep 56 ltac:(lia)) as H56.
  cbn [Z.add Pos.add Pos.succ Pos.add_carry] in *.
  assert (Htop : v / 2 ^ 64 = 0) by (apply Z.div_small; lia).
  assert (Hbot : v / 2 ^ 0 = v) by (change (2 ^ 0) with 1; apply Z.div_1_r).
  lia.
Qed.

(** The tokens of a transaction that runs to its end, by direction. *)
Lemma transaction_trace_tokens (state : list byte) (proxy : Z) (shutdown : bool) :
  tokens_out Fmig (transaction_trace state proxy shutdown) =
    [COLO_CHECKPOINT_NEW; COLO_CHECKPOINT_SEND;
     wrap_u64 (Z.of_nat (length state))]
    ++ (if shutdown then [COLO_GUEST_SHUTDOWN] else []) /\
  tokens_in Fctl (transaction_trace state proxy shutdown) =
    [COLO_CHECKPOINT_SUSPENDED; COLO_CHECKPOINT_RECEIVED;
     COLO_CHECKPOINT_LOADED].
Proof. destruct shutdown; split; reflexivity. Qed.

(** A round end to end: the Primary runs a transaction against the tokens
    of a Secondary, and a Secondary reads what that transaction put on the
    wire; the buffer of the Secondary ends up holding the device state of
    the Primary, and both VMs run. *)
Example happy_round :
  let primary :=
    primary_world [COLO_CHECKPOINT_SUSPENDED; COLO_CHECKPOINT_RECEIVED;
                   COLO_CHECKPOINT_LOADED] in
  let sent := final (colo_do_checkpoint_transaction primary) in
  let secondary := with_rx Fmig (wire Fmig (log sent)) quiet in
  let loaded := final (colo_incoming_turn secondary) in
  (exists w', colo_do_checkpoint_transaction primary = Done 0 w') /\
  (exists w', colo_incoming_turn secondary = Done Next w') /\
  tokens_out Fmig (log sent) =
    [COLO_CHECKPOINT_NEW; COLO_CHECKPOINT_SEND; 3] /\
  tokens_out Fctl (log loaded) = round_tokens /\
  colo_buffer loaded = vmstate primary /\
  runstate sent = RUN_STATE_RUNNING /\
  runstate loaded = RUN_STATE_RUNNING /\
  mig_state sent = MIGRATION_STATUS_COLO.
Proof.
  cbv zeta.
  split; [eexists; vm_compute; reflexivity|].
  split; [eexists; vm_compute; reflexivity|].
  vm_compute. repeat split; reflexivity.
Qed.

(** * Further properties *)

(** ** A token on the wire *)

Lemma be64_bytes_length (v : Z) : length (be64_bytes v) = 8%nat.
Proof. reflexivity. Qed.

Lemma take_bytes_token (v : Z) (rest : list byte) (fl : list Z) (e : Z) :
  take_bytes 8 (mkFile (be64_bytes v ++ rest) fl e) = be64_bytes v.
Proof.
  unfold take_bytes. cbn [rx].
  change 8 with (Z.of_nat (length (be64_bytes v))). apply ztake_app.
Qed.

Lemma drop_bytes_token (v : Z) (rest : list byte) (fl : list Z) (e : Z) :
  drop_bytes 8 (mkFile (be64_bytes v ++ rest) fl e) = mkFile rest fl e.
Proof.
  unfold drop_bytes. cbn [rx flush_errs last_error].
  rewrite length_app, be64_bytes_length.
  replace (Z.of_nat (8 + length rest) <? 8) with false
    by (symmetry; apply Z.ltb_ge; lia).
  change 8 with (Z.of_nat (length (be64_bytes v))) at 1.
  now rewrite zdrop_app.
Qed.

Lemma decode_token (v : Z) (rest : list byte) (fl : list Z) (e : Z) :
  0 <= v < 2 ^ 64 ->
  let bs := take_bytes 8 (mkFile (be64_bytes v ++ rest) fl e) in
  be_decode (bs ++ repeat x00 (8 - length bs)) = v.
Proof.
  intros Hv bs. subst bs. rewrite take_bytes_token, be64_bytes_length.
  cbn [Nat.sub repeat]. rewrite app_nil_r. now apply be64_roundtrip.
Qed.

(** The file [f] of a world holds [bs], still to be read. *)
Lemma file_shape (q : QEMUFile) (bs : list byte) :
  rx q = bs -> q = mkFile bs (flush_errs q) (last_error q).
Proof. intros <-. now destruct q. Qed.

Lemma set_file_same (f : fid) (q : QEMUFile) (w : world) :
  files (set_file f q w) f = q.
Proof. destruct f; reflexivity. Qed.

Lemma colo_ctl_get_value_token
  (f : fid) (v value : Z) (rest : list byte) (w : world) :
  0 <= v < 2 ^ 64 ->
  0 <= last_error (files w f) ->
  rx (files w f) = be64_bytes v ++ rest ->
  colo_ctl_get_value f value w = Done (0, v) (token_read f v rest w).
Proof.
  intros Hv He Hrx. rewrite colo_ctl_get_value_run.
  assert (Hn : next_be64 f w = v).
  { unfold next_be64. rewrite (file_shape _ Hrx). now apply decode_token. }
  assert (Ha : after_get f w = token_read f v rest w).
  { unfold after_get, token_read, file_with. rewrite Hn.
    rewrite (file_shape _ Hrx) at 1. now rewrite drop_bytes_token. }
  rewrite Ha, Hn.
  replace (channel_error f (token_read f v rest w) <? 0) with false;
    [reflexivity|].
  symmetry. apply Z.ltb_ge. unfold channel_error, token_read, emit.
  destruct w, f; cbn; cbn in He; exact He.
Qed.

Lemma added_app {A} (w : world) (o : outcome A) (new : list event) :
  log (final o) = log w ++ new -> added w o = new.
Proof.
  intros H. unfold added. rewrite H, skipn_app, skipn_all, Nat.sub_diag.
  reflexivity.
Qed.

Lemma added_put (g : fid) (v : Z) (w : world) :
  added w (colo_ctl_put g v w) = [EvPut64 g v; EvFlush g].
Proof.
  apply added_app. destruct w. cbn. rewrite <- app_assoc. reflexivity.
Qed.

(** X1. What [colo_ctl_put] puts on the wire, [colo_ctl_get_value] reads
    back from a file that is not in error: the result is 0, the value is
    the one that was put, and the stream is left at the byte that follows
    the token; [colo_ctl_get] asked for that value returns 0. *)
Theorem codec_round_trip
  (f g : fid) (v value : Z) (rest : list byte) (sender receiver : world) :
  0 <= v < 2 ^ 64 ->
  0 <= last_error (files receiver f) ->
  rx (files receiver f) =
    wire g (added sender (colo_ctl_put g v sender)) ++ rest ->
  exists w',
    colo_ctl_get_value f value receiver = Done (0, v) w' /\
    colo_ctl_get f v receiver = Done 0 w' /\
    rx (files w' f) = rest /\
    last_error (files w' f) = last_error (files receiver f) /\
    log w' = log receiver ++ [EvGet64 f v].
Proof.
  intros Hv He Hrx. rewrite added_put in Hrx.
  cbn [wire] in Hrx. destruct (fid_eqb g g) eqn:Hg; [|destruct g; discriminate].
  rewrite app_nil_r in Hrx.
  pose proof (@colo_ctl_get_value_token f v value rest receiver Hv He Hrx)
    as Hget.
  exists (token_read f v rest receiver).
  split; [exact Hget|]. split.
  - unfold colo_ctl_get, bind.
    rewrite (@colo_ctl_get_value_token f v 0 rest receiver Hv He Hrx).
    cbv beta iota.
    change (0 <? 0) with false. cbv iota. rewrite Z.eqb_refl. reflexivity.
  - unfold token_read, emit, file_with.
    destruct receiver, f; cbn; repeat split; reflexivity.
Qed.

Lemma codec_round_trip_witness :
  exists w',
    colo_ctl_get_value Fctl 0
      (with_rx Fctl (be64_bytes COLO_CHECKPOINT_SEND ++ [x01]) quiet)
    = Done (0, COLO_CHECKPOINT_SEND) w' /\
    rx (files w' Fctl) = [x01].
Proof.
  destruct (@codec_round_trip Fctl Fmig COLO_CHECKPOINT_SEND 0 [x01] quiet
              (with_rx Fctl (be64_bytes COLO_CHECKPOINT_SEND ++ [x01]) quiet))
    as (w' & Hget & _ & Hrx & _).
  - vm_compute. split; [discriminate|reflexivity].
  - vm_compute. discriminate.
  - vm_compute. reflexivity.
  - exists w'. split; [exact Hget|exact Hrx].
Defined.

(** ** Reading what a run has added *)

Ltac open_world w :=
  let x0 := fresh "files0" in
  let x1 := fresh "env0" in
  let x2 := fresh "log0" in
  let x3 := fresh "mig_state0" in
  let x4 := fresh "runstate0" in
  let x5 := fresh "vmstate0" in
  let x6 := fresh "colo_buffer0" in
  let x7 := fresh "failover_request0" in
  let x8 := fresh "failover_completed0" in
  let x9 := fresh "failover_done_later0" in
  let x10 := fresh "vmstate_loading0" in
  let x11 := fresh "colo_shutdown_requested0" in
  let x12 := fresh "colo_checkpoint_period0" in
  let x13 := fresh "colo_mode0" in
  let x14 := fresh "bhs0" in
  let x15 := fresh "failover_bh0" in
  let x16 := fresh "colo_bh0" in
  let x17 := fresh "colo0" in
  let x18 := fresh "qdev_hotplug0" in
  let x19 := fresh "autostart0" in
  destruct w as
    [x0 x1 x2 x3 x4 x5 x6 x7 x8 x9
     x10 x11 x12 x13 x14 x15 x16 x17 x18 x19].

Lemma skipn_exact {A} (l n : list A) : skipn (length l) (l ++ n) = n.
Proof. now rewrite skipn_app, skipn_all, Nat.sub_diag. Qed.

(** The events of a log built by [emit], as one list after the old log. *)
Ltac flat_events t acc :=
  lazymatch t with
  | ?l ++ [?e] => flat_events l constr:(e :: acc)
  | ?l ++ ?m =>
      lazymatch acc with
      | nil => flat_events l m
      | _ => flat_events l constr:(m ++ acc)
      end
  | _ => constr:((t, acc))
  end.

Lemma skipn_read {A} (l t new : list A) :
  t = l ++ new -> skipn (length l) t = new.
Proof. intros ->. apply skipn_exact. Qed.

Ltac read_added :=
  unfold added; cbn [final log];
  repeat match goal with
  | |- context [skipn (length ?l0) ?t] =>
      let p := flat_events t (@nil event) in
      lazymatch p with
      | (_, ?acc) =>
          replace (skipn (length l0) t) with acc
            by (symmetry; apply skipn_read;
                repeat rewrite <- app_assoc; cbn [app];
                first [reflexivity | symmetry; apply app_nil_r])
      end
  end.

(** The tests of a path, used in the goal: first as facts about integers,
    then one rewriting each. *)
Ltac settled :=
  repeat match goal with
  | H : negb _ = true |- _ => apply negb_true_iff in H
  | H : negb _ = false |- _ => apply negb_false_iff in H
  | H : (_ || _) = false |- _ => apply orb_false_iff in H; destruct H
  end;
  repeat match goal with
  | H : ?c = true |- context [?c] => rewrite H
  | H : ?c = false |- context [?c] => rewrite H
  end;
  repeat match goal with
  | H : (_ =? _) = true |- _ => apply Z.eqb_eq in H
  end;
  repeat match goal with
  | H : be_decode _ = _ |- context [be_decode _] => rewrite H
  end;
  cbn [negb].

(** Follow every path of a run started in an open world. *)
Ltac paths o :=
  let Ho := fresh "Ho" in
  remember o as o' eqn:Ho; symmetry in Ho; revert Ho; run; branch; intros <-;
  cbv beta iota.

Ltac paths_of f :=
  match goal with |- context [f ?W] => paths (f W) end.

(** ** The failover arbiter, continued *)

Lemma repeat_request_run (k : nat) :
  forall w,
    exists w',
      repeat_request (S k) w = Done tt w' /\
      failover_request w' = true /\
      bhs w' = bhs w ++ repeat (mkBH true false) (S k) /\
      failover_bh w' = Some (length (bhs w) + k)%nat.
Proof.
  induction k as [|k IH]; intros w;
    destruct (failover_request_set_run w)
      as (w1 & Hrun & Hflag & Hbhs & Hbh & _ & _);
    cbn [repeat_request]; unfold bind at 1; rewrite Hrun.
  - exists w1. cbn [repeat_request ret repeat].
    rewrite Nat.add_0_r. repeat split; assumption.
  - destruct (IH w1) as (w' & Hrest & Hflag' & Hbhs' & Hbh').
    exists w'. split; [exact Hrest|]. split; [exact Hflag'|]. split.
    + rewrite Hbhs', Hbhs, <- app_assoc. reflexivity.
    + rewrite Hbh', Hbhs, length_app. cbn [length]. f_equal. lia.
Qed.

Lemma scheduled_repeat (k : nat) :
  length (filter (fun b => bh_scheduled b && negb (bh_deleted b))
            (repeat (mkBH true false) k)) = k.
Proof. induction k as [|k IH]; cbn; [reflexivity|]. now rewrite IH. Qed.

(** X3. After one or more calls of [failover_request_set], a run of
    [colo_failover_bh] deletes the bottom half that was created last and
    resets [failover_bh]; the request flag stays set and the bottom halves
    of the earlier calls stay scheduled.  A second run finds [failover_bh]
    NULL. *)
Theorem failover_bh_round_trip (k : nat) (w : world) :
  exists w1 w',
    repeat_request (S k) w = Done tt w1 /\
    colo_failover_bh w1 = Some (Done tt w') /\
    failover_bh w' = None /\
    failover_request w' = true /\
    scheduled_bhs w' = (scheduled_bhs w + k)%nat /\
    added w1 (Done tt w') = [EvBhDelete (length (bhs w) + k)] /\
    colo_failover_bh w' = None.
Proof.
  destruct (repeat_request_run k w) as (w1 & Hrun & Hflag & Hbhs & Hbh).
  exists w1. unfold colo_failover_bh at 1. rewrite Hbh.
  eexists. split; [exact Hrun|]. split; [reflexivity|].
  clear Hrun. unfold scheduled_bhs. revert Hbhs Hbh.
  generalize (bhs w). intros l0 Hbhs Hbh.
  open_world w1. cbn [failover_request bhs failover_bh] in Hflag, Hbhs, Hbh.
  subst. run. cbn [failover_bh failover_request].
  split; [reflexivity|]. split; [reflexivity|]. split; [|split].
  - cbn [bhs repeat]. rewrite repeat_cons, app_assoc.
    replace (length l0 + k)%nat
      with (length (l0 ++ repeat (mkBH true false) k))
      by (rewrite length_app, repeat_length; reflexivity).
    rewrite update_bh_last, !filter_app, !length_app, scheduled_repeat.
    cbn. lia.
  - read_added. reflexivity.
  - reflexivity.
Qed.

(** X4. Once a failover has been requested, neither side starts a
    checkpoint.  The turn of the Primary loop reports the request and
    leaves the loop without asking the proxy; the turn of the Secondary
    loop never goes on to a next turn, sends no token and does not stop
    the VM. *)
Theorem no_checkpoint_once_failover_requested
  (checkpoint_time : Z) (w : world) :
  failover_request w = true ->
  (exists w',
     colo_thread_turn checkpoint_time w = Done Leave w' /\
     added w (colo_thread_turn checkpoint_time w) =
       [EvFailoverIsSet true; EvErrorReport (Message "failover request")]) /\
  (forall w', colo_incoming_turn w <> Done Next w') /\
  tokens_out Fctl (added w (colo_incoming_turn w)) = [] /\
  occurs is_vm_stop (added w (colo_incoming_turn w)) = false.
Proof.
  intros Hreq. open_world w. cbn [failover_request] in Hreq. subst.
  split; [|].
  - generalize do_checkpoint. intros dc.
    unfold colo_thread_turn. fold do_checkpoint.
    assert (Hset : forall a : bool, a || true = true) by apply orb_true_r.
    unfold bind at 1. run. rewrite Hset. cbv beta iota.
    eexists. split; [reflexivity|]. read_added. reflexivity.
  - paths (colo_incoming_turn
             (mkWorld files0 env0 log0 mig_state0 runstate0 vmstate0
                colo_buffer0 true failover_completed0 failover_done_later0
                vmstate_loading0 colo_shutdown_requested0
                colo_checkpoint_period0 colo_mode0 bhs0 failover_bh0
                colo_bh0 colo0 qdev_hotplug0 autostart0)).
    all: try (exfalso;
              match goal with
              | H : (_ || true) = false |- _ =>
                  rewrite orb_true_r in H; discriminate H
              end).
    all: split; [intros w'; discriminate|].
    all: read_added; split; reflexivity.
Qed.

Lemma no_checkpoint_once_failover_requested_witness :
  let w := final (qmp_colo_lost_heartbeat
                    (with_rx Fmig (be64_bytes COLO_CHECKPOINT_NEW) quiet)) in
  tokens_out Fctl (added w (colo_incoming_turn w)) = [] /\
  occurs is_vm_stop (added w (colo_incoming_turn w)) = false.
Proof.
  intros w.
  exact (proj2 (proj2 (@no_checkpoint_once_failover_requested 0 w eq_refl))).
Defined.

(** ** The failover actions *)

(** X5. On the Primary, [colo_do_failover] always returns.  It stops the VM
    when it was running, and only once: the test in [master_do_failover]
    then finds it stopped.  It destroys the proxy, takes the status from
    COLO to COMPLETED by compare-and-set unless the status is FAILED,
    starts the VM again and sets [failover_completed]; the status is not
    COLO afterwards. *)
Theorem primary_failover (w : world) :
  colo_mode w = COLO_PRIMARY_MODE ->
  let o := colo_do_failover w in
  (exists w', o = Done tt w') /\
  added w o =
    (if runstate_is_running w then [EvVmStop] else [])
    ++ [EvProxyDestroy COLO_PRIMARY_MODE]
    ++ (if status_eqb (mig_state w) MIGRATION_STATUS_FAILED then []
        else [EvMigrateSetState MIGRATION_STATUS_COLO
                MIGRATION_STATUS_COMPLETED
                (status_eqb (mig_state w) MIGRATION_STATUS_COLO)])
    ++ [EvVmStart] /\
  runstate (final o) = RUN_STATE_RUNNING /\
  failover_completed (final o) = true /\
  mig_state (final o) =
    (if status_eqb (mig_state w) MIGRATION_STATUS_COLO
     then MIGRATION_STATUS_COMPLETED else mig_state w) /\
  migrate_in_colo_state (final o) = Done false (final o).
Proof.
  intros Hmode o. subst o. open_world w. cbn [colo_mode] in Hmode. subst.
  destruct runstate0, mig_state0; paths_of colo_do_failover;
    (split; [eexists; reflexivity|]);
    (split; [read_added; reflexivity|]);
    repeat split; reflexivity.
Qed.

Lemma primary_failover_witness :
  exists w',
    colo_do_failover (set_runstate RUN_STATE_RUNNING (primary_world []))
    = Done tt w' /\
    runstate w' = RUN_STATE_RUNNING /\
    mig_state w' = MIGRATION_STATUS_COMPLETED.
Proof.
  destruct (@primary_failover
              (set_runstate RUN_STATE_RUNNING (primary_world [])) eq_refl)
    as ((w' & Hrun) & _ & Hrs & _ & Hst & _).
  exists w'. split; [exact Hrun|]. rewrite Hrun in Hrs, Hst.
  split; [exact Hrs|exact Hst].
Defined.



(** ** The checkpoint transaction of the Primary, continued *)

(** X7. [colo_do_checkpoint_transaction] returns or ends the process with
    status 1; it opens at most one view of the buffer; when it returns, it
    has closed the view if and only if it had opened it; when the process
    ends, the view has not been closed. *)
Theorem transaction_closes_its_view (w : world) :
  let o := colo_do_checkpoint_transaction w in
  let new := added w o in
  (count is_view_opened new <= 1)%nat /\
  match o with
  | Done _ _ => count is_view_closed new = count is_view_opened new
  | Exited code _ => code = 1 /\ count is_view_closed new = 0%nat
  | _ => False
  end.
Proof.
  intros o new. subst new o. open_world w.
  paths_of colo_do_checkpoint_transaction.
  all: read_added; settled.
  all: split; [cbn; lia|].
  all: first [reflexivity | split; reflexivity].
Qed.

(** X8. A round of the Primary starts the VM again only when it succeeds.
    If the transaction has stopped the VM and then fails (or the process
    ends on an unexpected token), the VM is left stopped, in RUN_STATE_COLO,
    and [vm_start] has not been called; if it returns 0 after the stop, the
    VM runs.  A transaction that does not get to the stop leaves the run
    state as it was. *)
Theorem failed_transaction_leaves_vm_stopped (w : world) :
  let o := colo_do_checkpoint_transaction w in
  let new := added w o in
  let succeeded := match o with Done 0 _ => true | _ => false end in
  runstate (final o) =
    (if occurs is_vm_stop new
     then if succeeded then RUN_STATE_RUNNING else RUN_STATE_COLO
     else runstate w) /\
  occurs is_vm_start new = occurs is_vm_stop new && succeeded.
Proof.
  intros o new succeeded. subst succeeded new o. open_world w.
  paths_of colo_do_checkpoint_transaction.
  all: read_added; cbn [final runstate]; settled.
  all: repeat match goal with
       | H : (?r <? 0) = true |- context [match ?r with _ => _ end] =>
           destruct r; try discriminate H
       end.
  all: split; reflexivity.
Qed.

(** X9. A pending guest shutdown is passed on only at the end of a
    complete round: the transaction sends GUEST_SHUTDOWN and calls
    [qemu_system_shutdown_request_core] right after it has received
    CHECKPOINT_LOADED, clears [colo_shutdown_requested] and returns 0.  On
    every other path the shutdown call is not made and the request is left
    as it was. *)
Theorem guest_shutdown_is_not_lost (w : world) :
  let o := colo_do_checkpoint_transaction w in
  let new := added w o in
  (~ In EvShutdownRequestCore new /\
   colo_shutdown_requested (final o) = colo_shutdown_requested w) \/
  (colo_shutdown_requested w <> 0 /\
   colo_shutdown_requested (final o) = 0 /\
   (exists w', o = Done 0 w') /\
   last_events 9 new =
     [EvGet64 Fctl COLO_CHECKPOINT_LOADED;
      EvPut64 Fmig COLO_GUEST_SHUTDOWN; EvFlush Fmig; EvFlush Fmig;
      EvShutdownRequestCore; EvLock; EvVmStart; EvUnlock; EvBufclose]).
Proof.
  intros o new. subst new o. open_world w.
  paths_of colo_do_checkpoint_transaction.
  all: read_added; cbn [final colo_shutdown_requested]; settled.
  all: first
    [ left; split; [|reflexivity];
      cbn [In]; intros HIn;
      repeat (destruct HIn as [HIn|HIn]; [discriminate HIn|]); exact HIn
    | right; split; [tests; assumption|];
      split; [reflexivity|]; split; [eexists; reflexivity|reflexivity] ].
Qed.

(** X10. In a round that gets to send the payload, what the Primary puts
    on the migration stream is CHECKPOINT_NEW, CHECKPOINT_SEND, the length
    of the device state as a 64-bit number and the device state itself,
    whole; what the buffer held before the round is not sent.  Only
    GUEST_SHUTDOWN may follow. *)
Theorem payload_on_the_wire (w : world) (bs : list byte) :
  let o := colo_do_checkpoint_transaction w in
  let new := added w o in
  In (EvPutBuffer Fmig bs) new ->
  Z.of_nat (length (vmstate w)) < 2 ^ 64 ->
  bs = vmstate w /\
  colo_buffer (final o) = vmstate w /\
  exists tail,
    wire Fmig new =
      be64_bytes COLO_CHECKPOINT_NEW ++ be64_bytes COLO_CHECKPOINT_SEND
      ++ be64_bytes (Z.of_nat (length (vmstate w))) ++ vmstate w ++ tail /\
    (tail = [] \/
     tail = be64_bytes COLO_GUEST_SHUTDOWN /\
     colo_shutdown_requested w <> 0 /\ exists w', o = Done 0 w').
Proof.
  intros o new. subst new o. open_world w. cbn [vmstate].
  paths_of colo_do_checkpoint_transaction.
  all: read_added; cbn [final colo_buffer app]; settled.
  all: intros HIn Hlen; cbn [In] in HIn.
  all: repeat (destruct HIn as [HIn|HIn]; [try discriminate HIn|]);
    try contradiction.
  all: rewrite wrap_u64_small in * by lia.
  all: rewrite ztake_all in * by lia.
  all: injection HIn as <-.
  all: split; [reflexivity|]; split; [reflexivity|].
  all: cbn [wire fid_eqb]; eexists; split;
    [rewrite <- ?app_assoc; reflexivity|].
  all: first
    [ left; reflexivity
    | right; split; [reflexivity|]; split; [tests; assumption|];
      eexists; reflexivity ].
Qed.

(** ** A round, end to end *)

Lemma decode_token_bytes (v : Z) :
  0 <= v < 2 ^ 64 ->
  be_decode
    (be64_bytes v ++ repeat x00 (8 - length (be64_bytes v))) = v.
Proof.
  intros Hv. rewrite be64_bytes_length. cbn [Nat.sub repeat].
  rewrite app_nil_r. now apply be64_roundtrip.
Qed.

Lemma take_bytes_payload (bs rest : list byte) (fl : list Z) (e : Z) :
  take_bytes (Z.of_nat (length bs)) (mkFile (bs ++ rest) fl e) = bs.
Proof. unfold take_bytes. cbn [rx]. apply ztake_app. Qed.

Lemma drop_bytes_payload (bs rest : list byte) (fl : list Z) (e : Z) :
  drop_bytes (Z.of_nat (length bs)) (mkFile (bs ++ rest) fl e)
  = mkFile rest fl e.
Proof.
  unfold drop_bytes. cbn [rx flush_errs last_error].
  rewrite length_app.
  replace (Z.of_nat (length bs + length rest) <? Z.of_nat (length bs))
    with false by (symmetry; apply Z.ltb_ge; lia).
  now rewrite zdrop_app.
Qed.

(** Follow the paths of a run that reads a stream whose beginning is
    known: [Hfile] gives the file, [Hok] says that it is not in error. *)
Ltac stream_facts Hfile Hok :=
  rewrite ?Hfile;
  repeat (progress
            (rewrite ?drop_bytes_token, ?take_bytes_token,
               ?take_bytes_payload, ?drop_bytes_payload;
             cbn [last_error rx flush_errs]));
  rewrite ?Hok;
  rewrite ?decode_token_bytes
    by (first [lia | vm_compute; split; [discriminate|reflexivity]]);
  rewrite ?wrap_s32_small by lia;
  rewrite ?wrap_u64_small by lia;
  rewrite ?Z.eqb_refl.

Ltac stream_branch Hfile Hok :=
  repeat (cbv beta iota; stream_facts Hfile Hok;
    match goal with
    | |- ?l = _ -> _ =>
        let c := head_cond l in first [decide_cond c | destruct c eqn:?]
    end);
  cbv beta iota.

Lemma incoming_turn_on_round
  (state rest : list byte) (w : world) :
  Z.of_nat (length state) < 2 ^ 31 ->
  0 <= last_error (files w Fmig) ->
  rx (files w Fmig) =
    be64_bytes COLO_CHECKPOINT_NEW ++ be64_bytes COLO_CHECKPOINT_SEND
    ++ be64_bytes (Z.of_nat (length state)) ++ state ++ rest ->
  let o := colo_incoming_turn w in
  (exists t w', o = Done t w') /\
  ~ In (EvErrorReport (Message "can't get all migration data"))
       (added w o) /\
  (In (EvPut64 Fctl COLO_CHECKPOINT_RECEIVED) (added w o) ->
   colo_buffer (final o) = state /\ rx (files (final o) Fmig) = rest) /\
  (forall w', o = Done Next w' ->
   tokens_out Fctl (added w o) = round_tokens).
Proof.
  intros Hlen He Hrx o. subst o.
  pose proof (file_shape _ Hrx) as Hfile.
  revert He Hfile. generalize (flush_errs (files w Fmig)).
  generalize (last_error (files w Fmig)). intros e fl He Hfile.
  assert (Hok : (e <? 0) = false) by (apply Z.ltb_ge; exact He).
  clear Hrx. open_world w. cbn [files] in Hfile.
  remember (colo_incoming_turn
    (mkWorld files0 env0 log0 mig_state0 runstate0 vmstate0 colo_buffer0
       failover_request0 failover_completed0 failover_done_later0
       vmstate_loading0 colo_shutdown_requested0 colo_checkpoint_period0
       colo_mode0 bhs0 failover_bh0 colo_bh0 colo0 qdev_hotplug0 autostart0))
    as o eqn:Ho.
  symmetry in Ho. revert Ho. run. stream_branch Hfile Hok.
  all: intros <-.
  all: read_added; cbn [final colo_buffer files rx fid_eqb]; settled.
  all: split; [eexists; eexists; reflexivity|].
  all: split;
    [cbn [In]; intros HIn;
     repeat (destruct HIn as [HIn|HIn]; [discriminate HIn|]); exact HIn|].
  all: split;
    [cbn [In]; intros HIn;
     first
       [ split; reflexivity
       | exfalso;
         repeat (destruct HIn as [HIn|HIn];
                 [first [discriminate HIn
                        | apply (f_equal (fun e => match e with
                                                   | EvPut64 _ v => v
                                                   | _ => 0 end)) in HIn;
                          vm_compute in HIn; discriminate HIn]|]);
         exact HIn ]|].
  all: intros w' E; first [discriminate E | reflexivity].
Qed.

Lemma wire_of_round (state : list byte) (proxy : Z) (shutdown : bool) :
  Z.of_nat (length state) < 2 ^ 64 ->
  wire Fmig (transaction_trace state proxy shutdown) =
    be64_bytes COLO_CHECKPOINT_NEW ++ be64_bytes COLO_CHECKPOINT_SEND
    ++ be64_bytes (Z.of_nat (length state)) ++ state
    ++ (if shutdown then be64_bytes COLO_GUEST_SHUTDOWN else []).
Proof.
  intros Hlen. unfold transaction_trace.
  rewrite wrap_u64_small by lia. rewrite ztake_all by lia.
  destruct shutdown; cbn [wire fid_eqb app];
    rewrite <- ?app_assoc, ?app_nil_r; reflexivity.
Qed.

(** X11. A round, end to end, for a device state of fewer than 2^31
    bytes (the Secondary keeps the count of the bytes obtained in an
    [int]).  When a transaction of the Primary has returned 0 after opening
    the buffer, and a Secondary finds on its stream what that transaction
    has put on the wire, a turn of the Secondary loop always returns; it
    never reports missing migration data; once it has sent
    CHECKPOINT_RECEIVED its buffer holds the device state of the Primary,
    and the stream is left at what follows the round (the GUEST_SHUTDOWN
    token when the Primary had a shutdown pending); when the turn goes on
    to the next one it has sent SUSPENDED, RECEIVED and LOADED in this
    order. *)
Theorem checkpoint_round_trip
  (primary sent secondary : world) (rest : list byte) :
  colo_do_checkpoint_transaction primary = Done 0 sent ->
  occurs is_view_opened (added primary (Done 0 sent)) = true ->
  Z.of_nat (length (vmstate primary)) < 2 ^ 31 ->
  0 <= last_error (files secondary Fmig) ->
  rx (files secondary Fmig) =
    wire Fmig (added primary (Done 0 sent)) ++ rest ->
  let o := colo_incoming_turn secondary in
  (exists t w', o = Done t w') /\
  ~ In (EvErrorReport (Message "can't get all migration data"))
       (added secondary o) /\
  (In (EvPut64 Fctl COLO_CHECKPOINT_RECEIVED) (added secondary o) ->
   colo_buffer (final o) = vmstate primary /\
   rx (files (final o) Fmig) =
     (if colo_shutdown_requested primary =? 0 then []
      else be64_bytes COLO_GUEST_SHUTDOWN) ++ rest) /\
  (forall w', o = Done Next w' ->
   tokens_out Fctl (added secondary o) = round_tokens).
Proof.
  intros Hrun Hopen Hlen He Hrx.
  destruct (@transaction_zero primary sent Hrun) as [Hlog|(proxy & _ & Hlog)];
    rewrite (@added_app _ primary (Done 0 sent) _ Hlog) in Hopen, Hrx.
  - discriminate Hopen.
  - rewrite wire_of_round in Hrx by lia.
    rewrite <- !app_assoc in Hrx.
    pose proof (@incoming_turn_on_round (vmstate primary) _ secondary
                  Hlen He Hrx) as H.
    destruct (colo_shutdown_requested primary =? 0); exact H.
Qed.

Lemma checkpoint_round_trip_witness :
  let primary :=
    primary_world [COLO_CHECKPOINT_SUSPENDED; COLO_CHECKPOINT_RECEIVED;
                   COLO_CHECKPOINT_LOADED] in
  let sent := final (colo_do_checkpoint_transaction primary) in
  let secondary := secondary_world (wire Fmig (log sent)) in
  colo_buffer (final (colo_incoming_turn secondary)) = vmstate primary /\
  rx (files (final (colo_incoming_turn secondary)) Fmig) = [].
Proof.
  intros primary sent secondary.
  assert (H1 : colo_do_checkpoint_transaction primary = Done 0 sent)
    by (vm_compute; reflexivity).
  assert (H2 : occurs is_view_opened (added primary (Done 0 sent)) = true)
    by (vm_compute; reflexivity).
  assert (H3 : Z.of_nat (length (vmstate primary)) < 2 ^ 31)
    by (vm_compute; reflexivity).
  assert (H4 : 0 <= last_error (files secondary Fmig))
    by (vm_compute; discriminate).
  assert (H5 : rx (files secondary Fmig) =
               wire Fmig (added primary (Done 0 sent)) ++ [])
    by (vm_compute; reflexivity).
  destruct (@checkpoint_round_trip primary sent secondary [] H1 H2 H3 H4 H5)
    as (_ & _ & H & _).
  apply H. vm_compute. repeat (first [left; reflexivity | right]).
Defined.

Lemma payload_on_the_wire_witness :
  let w := primary_world [COLO_CHECKPOINT_SUSPENDED; COLO_CHECKPOINT_RECEIVED;
                          COLO_CHECKPOINT_LOADED] in
  colo_buffer (final (colo_do_checkpoint_transaction w)) = vmstate w.
Proof.
  intros w.
  destruct (@payload_on_the_wire w [x01; x02; x03]) as (_ & H & _).
  - vm_compute. repeat (first [left; reflexivity | right]).
  - vm_compute. reflexivity.
  - exact H.
Defined.

(** ** The count of the payload in an [int]

    [colo_process_incoming_checkpoints] keeps what [qsb_fill_buffer]
    returns in [int ret] and compares it with the [uint64_t total_size]. *)




(** ** Invariants of the threads *)

Section Keeping.

Variable P : world -> Prop.
Variable Q : list event -> Prop.
Hypothesis Q_nil : Q [].
Hypothesis Q_app : forall a b, Q a -> Q b -> Q (a ++ b).

Lemma keeps_bind {A B} (m : M A) (k : A -> M B) :
  keeps P Q m -> (forall a, keeps P Q (k a)) -> keeps P Q (bind m k).
Proof.
  intros Hm Hk w Hw. unfold bind.
  destruct (Hm w Hw) as [HP (n & Hn & HQ)].
  destruct (m w) as [a w1|c w1|w1|w1]; cbn [final] in *;
    try (split; [assumption|exists n; split; assumption]).
  destruct (Hk a w1 HP) as [HP' (n' & Hn' & HQ')].
  split; [assumption|].
  exists (n ++ n'). split; [|apply Q_app; assumption].
  rewrite Hn', Hn, app_assoc. reflexivity.
Qed.

(** A computation that leaves the world as it is. *)
Lemma keeps_still {A} (m : M A) :
  (forall w, final (m w) = w) -> keeps P Q m.
Proof.
  intros H w Hw. rewrite H. split; [assumption|].
  exists []. split; [now rewrite app_nil_r|exact Q_nil].
Qed.

Lemma keeps_thread_loop (fuel : nat) :
  (forall ct, keeps P Q (colo_thread_turn ct)) ->
  forall ct, keeps P Q (colo_thread_loop fuel ct).
Proof.
  intros Hturn.
  induction fuel as [|fuel IH]; intros ct; cbn [colo_thread_loop];
    (apply keeps_bind; [apply keeps_still; reflexivity|]); intros state;
    destruct (negb (status_eqb state MIGRATION_STATUS_COLO));
    try (apply keeps_still; reflexivity).
  apply keeps_bind; [apply Hturn|].
  intros [ct'|]; [apply IH|apply keeps_still; reflexivity].
Qed.

Lemma keeps_incoming_loop (fuel : nat) :
  keeps P Q colo_incoming_turn -> keeps P Q (colo_incoming_loop fuel).
Proof.
  intros Hturn.
  induction fuel as [|fuel IH]; cbn [colo_incoming_loop];
    [apply keeps_still; reflexivity|].
  apply keeps_bind; [exact Hturn|].
  intros [|fb]; [exact IH|apply keeps_still; reflexivity].
Qed.

End Keeping.

(** ** The iothread lock *)

Lemma lock_walk_app (l l' : list event) :
  forall held,
    lock_walk held (l ++ l') =
    match lock_walk held l with
    | Some held' => lock_walk held' l'
    | None => None
    end.
Proof.
  induction l as [|e l IH]; intros held; [reflexivity|].
  destruct e; cbn [app lock_walk needs_lock andb]; try apply IH;
    destruct held; cbn [negb]; try reflexivity; apply IH.
Qed.

Lemma well_locked_app (a b : list event) :
  well_locked a -> well_locked b -> well_locked (a ++ b).
Proof.
  unfold well_locked. intros Ha Hb. now rewrite lock_walk_app, Ha.
Qed.

(** Every path of a function, for an invariant of the log alone. *)
Ltac log_paths :=
  let w := fresh "w" in
  intros w _; split; [exact I|]; open_world w;
  match goal with |- context [final ?o] => paths o end;
  cbn [final log]; flat;
  eexists; (split; [first [reflexivity | symmetry; apply app_nil_r]|]);
  reflexivity.

Lemma transaction_locks :
  keeps (fun _ => True) well_locked colo_do_checkpoint_transaction.
Proof. unfold keeps. log_paths. Qed.

Ltac keeps_step leaf :=
  lazymatch goal with
  | |- keeps _ _ (bind _ _) =>
      apply keeps_bind;
      [first [reflexivity | exact well_locked_app | intros; exact I]
      | |intros ?]
  | |- keeps _ _ (if ?c then _ else _) => destruct c
  | |- keeps _ _ (let '(_, _) := ?r in _) => destruct r
  | |- keeps _ _ (match ?t with Again _ => _ | Leave => _ end) => destruct t
  | |- _ => first [assumption | leaf]
  end.

Lemma do_checkpoint_locks : keeps (fun _ => True) well_locked do_checkpoint.
Proof.
  pose proof transaction_locks as Ht.
  unfold do_checkpoint. unfold_collaborators.
  repeat keeps_step ltac:(unfold keeps; log_paths).
Qed.

Lemma turn_locks (checkpoint_time : Z) :
  keeps (fun _ => True) well_locked (colo_thread_turn checkpoint_time).
Proof.
  pose proof do_checkpoint_locks as Hd.
  unfold colo_thread_turn. unfold_collaborators.
  repeat keeps_step ltac:(unfold keeps; log_paths).
Qed.

Lemma thread_loop_locks (fuel : nat) (checkpoint_time : Z) :
  keeps (fun _ => True) well_locked (colo_thread_loop fuel checkpoint_time).
Proof.
  apply keeps_thread_loop;
    [reflexivity | exact well_locked_app | exact turn_locks].
Qed.

(** X12. The checkpoint thread of the Primary and the iothread lock.  In
    every run of [colo_thread], however it ends, and in every checkpoint
    transaction taken alone, the lock is taken and released in turn and is
    not held at the end; the VM is stopped and started, the device state
    saved and bottom halves created and scheduled only while the thread
    holds the lock. *)
Theorem primary_lock_discipline (fuel : nat) (w : world) :
  well_locked (added w (colo_thread fuel w)) /\
  well_locked (added w (colo_do_checkpoint_transaction w)).
Proof.
  split.
  - pose proof (fun ct => thread_loop_locks fuel ct) as Hlp.
    unfold colo_thread. revert Hlp. generalize (colo_thread_loop fuel).
    intros lp Hlp. open_world w.
    match goal with
    | |- context [added _ ?o] =>
        remember o as o' eqn:Ho; symmetry in Ho; revert Ho
    end.
    run; branch.
    all: try (intros <-; read_added; reflexivity).
    match goal with
    | |- match lp ?ct ?W with _ => _ end = _ -> _ =>
        destruct (Hlp ct W I) as [_ (n & Hn & HQ)];
        destruct (lp ct W) as [? w1|? w1|w1|w1]; cbn [final] in Hn;
        open_world w1; cbn [log] in Hn; subst
    end.
    all: run; branch; intros <-; read_added.
    all: unfold well_locked in *; cbn [lock_walk needs_lock andb negb].
    all: first [exact HQ | rewrite lock_walk_app, HQ; reflexivity].
  - destruct (@transaction_locks w I) as [_ (n & Hn & HQ)].
    now rewrite (@added_app _ _ _ _ Hn).
Qed.

(** ** The Secondary: the lock and the loading flag *)

(** The end of a path: the invariant of the world and the property of the
    log are read off the world the path ends in. *)
Ltac path_end :=
  cbn [final log vmstate_loading];
  (split; [first [exact I | reflexivity]|]); flat; eexists;
  (split; [first [reflexivity | symmetry; apply app_nil_r]|]).

Ltac enter_paths :=
  match goal with
  | |- context [final ?o] =>
      let Ho := fresh "Ho" in
      remember o as o' eqn:Ho; symmetry in Ho; revert Ho
  end;
  run; branch.

(** The paths of [colo_process_incoming_checkpoints], the loop taken as a
    whole with what [Hlp] says of it. *)
Ltac incoming_thread_paths Hlp HP0 :=
  enter_paths;
  try (intros <-; path_end; first [exact I | reflexivity]);
  match goal with
  | |- match colo_incoming_loop ?fuel ?W with _ => _ end = _ -> _ =>
      let HP := fresh "HP" in
      let n := fresh "n" in
      let Hn := fresh "Hn" in
      let HQ := fresh "HQ" in
      let w1 := fresh "w1" in
      destruct (Hlp fuel W HP0) as [HP (n & Hn & HQ)];
      destruct (colo_incoming_loop fuel W) as [? w1|? w1|w1|w1];
      cbn [final] in Hn, HP; open_world w1; cbn [log] in Hn;
      cbv beta delta [not_loading] in HP; cbn [vmstate_loading] in HP; subst;
      run; branch; intros <-; path_end;
      first
        [ exact I
        | unfold well_locked in *; cbn [lock_walk needs_lock andb negb];
          first [exact HQ | rewrite lock_walk_app, HQ; reflexivity] ]
  end.

Lemma incoming_turn_locks :
  keeps (fun _ => True) well_locked colo_incoming_turn.
Proof. unfold keeps. log_paths. Qed.

Lemma incoming_thread_locks :
  keeps (fun _ => True) well_locked colo_process_incoming_checkpoints.
Proof.
  assert (Hlp : forall fuel,
            keeps (fun _ => True) well_locked (colo_incoming_loop fuel)).
  { intros fuel. apply keeps_incoming_loop;
      [reflexivity | exact well_locked_app | exact incoming_turn_locks]. }
  intros w _. open_world w. incoming_thread_paths Hlp I.
Qed.



(** X13. The checkpoint thread of the Secondary and the iothread lock.  In
    every run of [colo_process_incoming_checkpoints], however it ends, and
    in every turn of its loop taken alone, the lock is taken and released
    in turn and is not held at the end; the VM is stopped, reset and started
    and the device state loaded only while the thread holds the lock. *)
Theorem secondary_lock_discipline (w : world) :
  well_locked (added w (colo_process_incoming_checkpoints w)) /\
  well_locked (added w (colo_incoming_turn w)).
Proof.
  split.
  - destruct (@incoming_thread_locks w I) as [_ (n & Hn & HQ)].
    now rewrite (@added_app _ _ _ _ Hn).
  - destruct (@incoming_turn_locks w I) as [_ (n & Hn & HQ)].
    now rewrite (@added_app _ _ _ _ Hn).
Qed.



(** ** How the threads end *)

Lemma ends_with_refl (l : list event) : ends_with l l.
Proof. exists []. reflexivity. Qed.

Lemma ends_with_cons (tail l : list event) (e : event) :
  ends_with tail l -> ends_with tail (e :: l).
Proof. intros [pre ->]. exists (e :: pre). reflexivity. Qed.

Lemma ends_with_app (tail l n : list event) :
  ends_with tail l -> ends_with tail (n ++ l).
Proof. intros [pre ->]. exists (n ++ pre). now rewrite app_assoc. Qed.

Ltac find_tail :=
  repeat first
    [ assumption
    | apply ends_with_refl
    | apply ends_with_cons
    | apply ends_with_app ].

Lemma outcome_bind {A B} (m : M A) (k : A -> M B) :
  returns_or_exits_1 m -> (forall a, returns_or_exits_1 (k a)) ->
  returns_or_exits_1 (bind m k).
Proof.
  intros Hm Hk w. unfold bind. specialize (Hm w).
  destruct (m w) as [a w1|c w1|w1|w1]; try assumption. apply Hk.
Qed.

Ltac outcome_step :=
  lazymatch goal with
  | |- returns_or_exits_1 (bind _ _) => apply outcome_bind; [|intros ?]
  | |- returns_or_exits_1 (if ?c then _ else _) => destruct c
  | |- returns_or_exits_1 (let '(_, _) := ?r in _) => destruct r
  | |- returns_or_exits_1 (match ?t with Again _ => _ | Leave => _ end) =>
      destruct t
  | |- _ =>
      first [ assumption
            | intros ?; first [exact I | reflexivity]
            | intros ?; cbv beta delta [migrate_set_state];
              match goal with |- context [if ?c then _ else _] => destruct c end;
              exact I ]
  end.

Ltac outcome_auto :=
  unfold_collaborators;
  unfold colo_ctl_put, colo_ctl_get, colo_ctl_get_value, qemu_put_be64,
    qemu_fflush, qemu_file_get_error, qemu_get_be64, failover_request_is_set,
    ask, call, gets, ret, exit, out_of_fuel;
  repeat outcome_step.

Lemma transaction_outcome : returns_or_exits_1 colo_do_checkpoint_transaction.
Proof.
  unfold colo_do_checkpoint_transaction, transaction_out. outcome_auto.
Qed.

Lemma turn_outcome (checkpoint_time : Z) :
  returns_or_exits_1 (colo_thread_turn checkpoint_time).
Proof.
  pose proof transaction_outcome as Ht.
  unfold colo_thread_turn, do_checkpoint. outcome_auto.
Qed.

Lemma thread_loop_outcome (fuel : nat) :
  forall checkpoint_time,
    returns_or_exits_1 (colo_thread_loop fuel checkpoint_time).
Proof.
  induction fuel as [|fuel IH]; intros ct; cbn [colo_thread_loop];
    (apply outcome_bind; [intros ?; exact I|]); intros state;
    destruct (negb (status_eqb state MIGRATION_STATUS_COLO));
    try (intros ?; exact I).
  apply outcome_bind; [apply turn_outcome|].
  intros [ct'|]; [apply IH|intros ?; exact I].
Qed.

(** X15. How the checkpoint thread of the Primary ends.  Whatever made
    the thread leave its loop, at [out:] it looks at the failover flag under
    the lock and raises the request itself when none is pending; it then
    waits for [failover_completed].  It returns only once the failover is
    completed: the request is cleared, the buffer freed, [qdev_hotplug] has
    the value it had on entry, and the cleanup bottom half is scheduled
    last, under the lock.  When the failover never completes the thread
    stays in the wait, the request being set.  The process ends only on an
    unexpected token, with status 1. *)
Theorem primary_thread_ends_in_failover (fuel : nat) (w : world) :
  match colo_thread fuel w with
  | Done _ w' =>
      failover_completed w' = true /\
      failover_request w' = false /\
      colo_buffer w' = [] /\
      qdev_hotplug w' = qdev_hotplug w /\
      exists seen id control,
        ends_with (thread_out_trace seen id control)
          (added w (colo_thread fuel w))
  | Hung w' => failover_request w' = true /\ failover_completed w' = false
  | Exited code _ => code = 1
  | Unfinished _ => True
  end.
Proof.
  pose proof (steady_loop fuel) as Hst.
  pose proof (thread_loop_outcome fuel) as Hout.
  unfold colo_thread. revert Hst Hout.
  generalize (colo_thread_loop fuel). intros lp Hst Hout.
  open_world w.
  match goal with
  | |- context [added _ ?o] =>
      remember o as o' eqn:Ho; symmetry in Ho; revert Ho
  end.
  run; branch.
  all: try match goal with
       | |- match ?f ?ct ?W with _ => _ end = _ -> _ =>
           is_var f;
           let w1 := fresh "w1" in
           let n := fresh "n" in
           let Hn := fresh "Hn" in
           let Ho := fresh "Ho" in
           destruct (Hst ct W) as [_ [n Hn]];
           pose proof (Hout ct W) as Ho;
           destruct (f ct W) as [? w1|? w1|w1|w1]; cbn [final] in Hn;
           open_world w1; cbn [log] in Hn; subst;
           try contradiction;
           run; branch
       end.
  all: intros <-; cbv beta iota.
  all: try exact I; try reflexivity.
  all: read_added; cbn [final failover_request failover_completed]; settled.
  all: try (split; reflexivity).
  all: repeat (split; [reflexivity|]).
  all: first
    [ exists true; eexists; exists true;
      cbn [thread_out_trace app]; solve [find_tail]
    | exists true; eexists; exists false;
      cbn [thread_out_trace app]; solve [find_tail]
    | exists false; eexists; exists true;
      cbn [thread_out_trace app]; solve [find_tail]
    | exists false; eexists; exists false;
      cbn [thread_out_trace app]; solve [find_tail] ].
  Unshelve. all: exact O.
Qed.

(** A turn of the Secondary loop ends the process only with status 1, and
    parks only on GUEST_SHUTDOWN. *)
Lemma incoming_turn_outcome (w : world) :
  exists new,
    log (final (colo_incoming_turn w)) = log w ++ new /\
    match colo_incoming_turn w with
    | Exited code _ => code = 1
    | Hung _ => new = shutdown_trace
    | _ => True
    end.
Proof.
  open_world w.
  match goal with
  | |- context [final ?o] =>
      remember o as o' eqn:Ho; symmetry in Ho; revert Ho
  end.
  run; branch; intros <-; cbn [final log]; flat; eexists;
    (split; [reflexivity|]); try exact I; try reflexivity.
  settled. reflexivity.
Qed.

Lemma incoming_loop_outcome (fuel : nat) :
  forall w,
    (length (rx (files w Fmig)) < fuel)%nat ->
    exists new,
      log (final (colo_incoming_loop fuel w)) = log w ++ new /\
      match colo_incoming_loop fuel w with
      | Done _ _ => True
      | Exited code _ => code = 1
      | Hung _ => ends_with shutdown_trace new
      | Unfinished _ => False
      end.
Proof.
  induction fuel as [|fuel IH]; intros w Hlen; [lia|].
  cbn [colo_incoming_loop]. unfold bind.
  destruct (incoming_turn_outcome w) as (new1 & Hnew1 & Hout).
  pose proof (@incoming_turn_tokens w _ new1 eq_refl Hnew1) as Hturn.
  destruct (colo_incoming_turn w) as [[|fb] w1|c w1|w1|w1];
    cbn [final] in Hnew1.
  - destruct Hturn as [_ Hshrink].
    destruct (IH w1 ltac:(lia)) as (new2 & Hlog & Hout2).
    exists (new1 ++ new2). split.
    + rewrite Hlog, Hnew1, app_assoc. reflexivity.
    + destruct (colo_incoming_loop fuel w1); try assumption.
      apply ends_with_app. exact Hout2.
  - exists new1. split; [exact Hnew1|exact I].
  - exists new1. split; [exact Hnew1|exact Hout].
  - exists new1. split; [exact Hnew1|]. subst new1. apply ends_with_refl.
  - contradiction.
Qed.

(** X16. How the checkpoint thread of the Secondary ends.
    [colo_process_incoming_checkpoints] reaches the end of its loop on
    every stream.  It returns only after a failover that has completed: the
    request is cleared, [colo] is NULL, the buffer is freed and
    [qdev_hotplug] has the value it had on entry.  It parks in two places
    only: after GUEST_SHUTDOWN, and in the wait for [failover_completed],
    the request being set.  The process ends only with status 1. *)
Theorem secondary_thread_ends (w : world) :
  let o := colo_process_incoming_checkpoints w in
  match o with
  | Done _ w' =>
      failover_completed w' = true /\
      failover_request w' = false /\
      colo w' = false /\
      colo_buffer w' = [] /\
      qdev_hotplug w' = qdev_hotplug w /\
      ends_with [EvQsbFree; EvLoadvmExitColo] (added w o)
  | Hung w' =>
      ends_with shutdown_trace (added w o) \/
      failover_request w' = true /\ failover_completed w' = false
  | Exited code _ => code = 1
  | Unfinished _ => False
  end.
Proof.
  intros o. subst o. open_world w.
  match goal with
  | |- context [added _ ?o] =>
      remember o as o' eqn:Ho; symmetry in Ho; revert Ho
  end.
  run; branch.
  all: try match goal with
       | |- match colo_incoming_loop ?fuel ?W with _ => _ end = _ -> _ =>
           let w1 := fresh "w1" in
           let n := fresh "n" in
           let Hn := fresh "Hn" in
           let Ho := fresh "Ho" in
           destruct (@incoming_loop_outcome fuel W (Nat.lt_succ_diag_r _))
             as (n & Hn & Ho);
           destruct (colo_incoming_loop fuel W) as [? w1|? w1|w1|w1];
           cbn [final] in Hn; open_world w1; cbn [log] in Hn; subst;
           try contradiction;
           run; branch
       end.
  all: intros <-; cbv beta iota.
  all: try exact I; try reflexivity.
  all: read_added; settled;
    cbn [final failover_request failover_completed colo colo_buffer
         qdev_hotplug].
  all: try (right; split; reflexivity).
  all: try (left; solve [find_tail]).
  all: repeat (split; [reflexivity|]).
  all: try solve [find_tail].
  all: right; split; [|reflexivity].
  all: first
    [ apply orb_true_r
    | match goal with
      | H1 : hd 0 (_ OAsyncFailover) = 0, H2 : ?f = false,
        H3 : (_ || (_ || ?f)) = true |- _ =>
          rewrite H1, H2 in H3; exact H3
      end ].
Qed.

(** ** The VM is stopped while its state moves *)

(** X17. In a round, on either side, the device state moves only while the
    VM is stopped.  The Primary saves the state and sends the payload, and
    the Secondary sends its tokens, receives the payload, resets the VM and
    loads the state, only after the thread has stopped the VM and before it
    starts it again. *)
Theorem state_moves_while_stopped (w : world) :
  (exists b,
     stop_walk false (added w (colo_do_checkpoint_transaction w)) = Some b) /\
  (exists b, stop_walk false (added w (colo_incoming_turn w)) = Some b).
Proof.
  open_world w. split.
  - paths_of colo_do_checkpoint_transaction.
    all: read_added; eexists; reflexivity.
  - paths_of colo_incoming_turn.
    all: read_added; eexists; reflexivity.
Qed.

(** X18. The Secondary and the run state.  A turn of the Secondary loop
    that stops the VM starts it again only when the round is complete: the
    turn then goes on to the next one and the VM runs.  When the turn leaves
    the loop after the stop, or the process ends, the VM is left stopped, in
    RUN_STATE_COLO, and [vm_start] has not been called.  A turn that does
    not get to the stop leaves the run state as it was. *)
Theorem failed_turn_leaves_vm_stopped (w : world) :
  let o := colo_incoming_turn w in
  let new := added w o in
  let complete := match o with Done Next _ => true | _ => false end in
  runstate (final o) =
    (if occurs is_vm_stop new
     then if complete then RUN_STATE_RUNNING else RUN_STATE_COLO
     else runstate w) /\
  occurs is_vm_start new = occurs is_vm_stop new && complete.
Proof.
  intros o new complete. subst complete new o. open_world w.
  paths_of colo_incoming_turn.
  all: read_added; cbn [final runstate].
  all: split; reflexivity.
Qed.

(** ** The order of the handshake *)

Ltac split_tests :=
  repeat match goal with
         | |- context [if ?c then _ else _] => destruct c
         end.

(** X19. The order of a round of the Primary.  Whatever the outcome, the
    transaction puts and reads its tokens in the order of the handshake:
    NEW, then SUSPENDED read, then the buffer opened for write, then SEND,
    the size and the payload, then RECEIVED and LOADED read, then
    GUEST_SHUTDOWN if at all; nothing is put or read after a value other
    than the expected token has been read, nor after the buffer could not
    be opened.  A return of 0 comes after LOADED (or GUEST_SHUTDOWN), or
    else right after an opening of the buffer that has failed. *)
Theorem primary_handshake_order (w : world) :
  let o := colo_do_checkpoint_transaction w in
  exists p,
    primary_walk P_start (added w o) = Some p /\
    match o with
    | Done 0 _ => p = P_open_failed \/ p = P_loaded \/ p = P_shutdown
    | _ => True
    end.
Proof.
  intros o. subst o. open_world w.
  paths_of colo_do_checkpoint_transaction.
  all: read_added; settled.
  all: cbn [primary_walk walk primary_step]; rewrite ?Z.eqb_refl.
  all: repeat match goal with
       | H : (?r <? 0) = true |- context [match ?r with _ => _ end] =>
           destruct r; try discriminate H
       end.
  all: split_tests.
  all: eexists; (split; [reflexivity|]); try exact I.
  all: tauto.
Qed.

(** X20. The order of a round of the Secondary: NEW read, SUSPENDED sent,
    SEND and the size read, the payload received, RECEIVED sent, LOADED
    sent; nothing is sent or read after a value other than the expected
    token has been read.  A turn that goes on to the next one has sent
    LOADED. *)
Theorem secondary_handshake_order (w : world) :
  let o := colo_incoming_turn w in
  exists p,
    secondary_walk S_start (added w o) = Some p /\
    match o with
    | Done Next _ => p = S_loaded
    | _ => True
    end.
Proof.
  intros o. subst o. open_world w.
  paths_of colo_incoming_turn.
  all: read_added; settled.
  all: cbn [secondary_walk walk secondary_step]; rewrite ?Z.eqb_refl.
  all: split_tests.
  all: eexists; (split; [reflexivity|]); first [exact I | reflexivity].
Qed.

(** ** Starting the checkpointer *)

Lemma update_bh_twice (g h : QEMUBH -> QEMUBH) (l : list QEMUBH) (b : QEMUBH) :
  update_bh (length l) h (update_bh (length l) g (l ++ [b])) = l ++ [h (g b)].
Proof. now rewrite !update_bh_last. Qed.

(** X21. [colo_init_checkpointer] creates and schedules a bottom half, and
    [colo_start_checkpointer], which is what the bottom half runs, deletes
    it again: after the two, [colo_bh] is NULL and no more bottom halves are
    scheduled than before.  [colo_start_checkpointer] is entered with the
    iothread lock held; it gives the lock up while it joins the migration
    thread and holds it again when it moves the status from ACTIVE to COLO,
    by compare-and-set, and creates the checkpoint thread. *)
Theorem checkpointer_start (w : world) :
  let o := (colo_init_checkpointer ;;; colo_start_checkpointer) w in
  let id := length (bhs w) in
  (exists w', o = Done tt w') /\
  added w o =
    [EvBhNew id; EvBhSchedule id; EvBhDelete id; EvUnlock; EvThreadJoin;
     EvLock;
     EvMigrateSetState MIGRATION_STATUS_ACTIVE MIGRATION_STATUS_COLO
       (status_eqb (mig_state w) MIGRATION_STATUS_ACTIVE);
     EvThreadCreate] /\
  lock_walk true (added w o) = Some true /\
  colo_bh (final o) = None /\
  scheduled_bhs (final o) = scheduled_bhs w /\
  bhs (final o) = bhs w ++ [mkBH false true] /\
  mig_state (final o) =
    (if status_eqb (mig_state w) MIGRATION_STATUS_ACTIVE
     then MIGRATION_STATUS_COLO else mig_state w).
Proof.
  intros o id. subst o id. open_world w. cbn [bhs mig_state].
  destruct mig_state0;
    match goal with |- context [added _ ?o] => paths o end;
    read_added; cbn [final colo_bh bhs mig_state lock_walk needs_lock andb];
    unfold scheduled_bhs; cbn [bhs];
    rewrite update_bh_twice, filter_app, length_app;
    (split; [eexists; reflexivity|]);
    (split; [reflexivity|]); (split; [reflexivity|]);
    (split; [reflexivity|]); (split; [cbn; lia|]); split; reflexivity.
Qed.

(** ** The first version of colo.c *)

Ltac run_early :=
  cbv beta delta
    [Early.colo_do_checkpoint_transaction Early.colo_thread_out
     Early.colo_thread Early.colo_wait_handle_cmd Early.colo_incoming_turn
     Early.colo_incoming_out Early.colo_process_incoming_checkpoints];
  run.

Ltac early_paths :=
  match goal with
  | |- context [final ?o] =>
      let Ho := fresh "Ho" in
      remember o as o' eqn:Ho; symmetry in Ho; revert Ho
  | |- context [added _ ?o] =>
      let Ho := fresh "Ho" in
      remember o as o' eqn:Ho; symmetry in Ho; revert Ho
  end;
  run_early; branch.

(** X22. The transaction of the first version returns, or ends the process
    with status 1 on an unexpected token.  It returns 0 or a negative value,
    and 0 only when the whole handshake has taken place, in order: NEW put,
    SUSPENDED read, SEND put, RECEIVED and LOADED read.  In every case the
    tokens it has put are NEW, or NEW and then SEND. *)
Theorem early_transaction_handshake (w : world) :
  let o := Early.colo_do_checkpoint_transaction w in
  (exists k,
     tokens_out Fmig (added w o)
     = firstn (S k) [COLO_CHECKPOINT_NEW; COLO_CHECKPOINT_SEND]) /\
  match o with
  | Done r _ => r <= 0 /\ (r = 0 -> added w o = early_trace)
  | Exited code _ => code = 1
  | _ => False
  end.
Proof.
  intros o. subst o. open_world w. early_paths.
  all: intros <-; cbv beta iota.
  all: read_added; settled; unfold early_trace.
  all: split;
    [first [exists 0%nat; reflexivity | exists 1%nat; reflexivity]|].
  all: try reflexivity.
  all: split; [tests; lia|].
  all: intros E; first [reflexivity | exfalso; tests; lia].
Qed.

(** A transaction of the first version leaves the status alone and does not
    touch the lock; when it returns 0 it has used up some of the control
    stream. *)
Lemma early_transaction_step (w : world) :
  let o := Early.colo_do_checkpoint_transaction w in
  mig_state (final o) = mig_state w /\
  (exists new, log (final o) = log w ++ new /\ well_locked new) /\
  match o with
  | Done r w' =>
      r = 0 ->
      (length (rx (files w' Fctl)) < length (rx (files w Fctl)))%nat
  | Exited code _ => code = 1
  | _ => False
  end.
Proof.
  intros o. subst o. open_world w. early_paths.
  all: intros <-; cbv beta iota; cbn [final log mig_state files rx fid_eqb].
  all: (split; [reflexivity|]).
  all: split; [flat; eexists; split; reflexivity|].
  all: try reflexivity.
  all: intros E; try (exfalso; tests; lia).
  tests.
  match goal with
  | H : be_decode _ = COLO_CHECKPOINT_SUSPENDED |- _ =>
      pose proof (token_read_nonempty _ H ltac:(discriminate)) as Hne
  end.
  pose proof (drop_bytes_shrinks (n:=8) (files0 Fctl) ltac:(lia) Hne).
  pose proof (drop_bytes_length 8 (drop_bytes 8 (files0 Fctl))).
  pose proof (drop_bytes_length 8 (drop_bytes 8 (drop_bytes 8 (files0 Fctl)))).
  lia.
Qed.

Lemma early_loop_unfold (fuel : nat) (w : world) :
  Early.colo_thread_loop (S fuel) w =
  if negb (status_eqb (mig_state w) MIGRATION_STATUS_COLO) then Done tt w
  else
    match Early.colo_do_checkpoint_transaction w with
    | Done r w1 =>
        if negb (r =? 0) then Done tt w1 else Early.colo_thread_loop fuel w1
    | Exited c w1 => Exited c w1
    | Hung w1 => Hung w1
    | Unfinished w1 => Unfinished w1
    end.
Proof.
  cbn [Early.colo_thread_loop]. unfold bind, gets, ret.
  destruct (negb (status_eqb (mig_state w) MIGRATION_STATUS_COLO));
    [reflexivity|].
  destruct (Early.colo_do_checkpoint_transaction w) as [r w1|c w1|w1|w1];
    try reflexivity.
  destruct (negb (r =? 0)); reflexivity.
Qed.

Lemma early_loop_run (fuel : nat) :
  forall w,
    (length (rx (files w Fctl)) < fuel)%nat ->
    let o := Early.colo_thread_loop fuel w in
    mig_state (final o) = mig_state w /\
    (exists new, log (final o) = log w ++ new /\ well_locked new) /\
    match o with
    | Done _ _ => True
    | Exited code _ => code = 1
    | _ => False
    end.
Proof.
  induction fuel as [|fuel IH]; intros w Hlen o; [lia|]. subst o.
  rewrite early_loop_unfold.
  destruct (negb (status_eqb (mig_state w) MIGRATION_STATUS_COLO)).
  - cbn [final]. split; [reflexivity|]. split; [|exact I].
    exists []. split; [now rewrite app_nil_r|reflexivity].
  - destruct (early_transaction_step w) as (Hs & (n & Hn & HQ) & Hout).
    destruct (Early.colo_do_checkpoint_transaction w) as [r w1|c w1|w1|w1];
      cbn [final] in *; try contradiction.
    + destruct (Z.eqb_spec r 0) as [->|Hr]; cbn [negb].
      * specialize (Hout eq_refl).
        destruct (IH w1 ltac:(lia)) as (Hs' & (n' & Hn' & HQ') & Hout').
        split; [congruence|]. split; [|exact Hout'].
        exists (n ++ n'). split; [|now apply well_locked_app].
        rewrite Hn', Hn, app_assoc. reflexivity.
      * cbn [final]. split; [exact Hs|]. split; [|exact I].
        exists n. split; assumption.
    + split; [exact Hs|]. split; [|exact Hout]. exists n. split; assumption.
Qed.

(** X23. The checkpoint thread of the first version.  Given a turn for
    every byte of the control stream, and one more, [colo_thread] returns,
    or the process ends with status 1 on an unexpected token.  When it
    returns, the status has been taken from COLO to COMPLETED by
    compare-and-set, and is otherwise as it was; the cleanup bottom half is
    scheduled last, under the iothread lock, which the thread takes and
    releases in turn and does not hold at the end. *)
Theorem early_thread_ends (fuel : nat) (w : world) :
  (length (rx (files w Fctl)) < fuel)%nat ->
  let o := Early.colo_thread fuel w in
  match o with
  | Done _ w' =>
      mig_state w' =
        (if status_eqb (mig_state w) MIGRATION_STATUS_COLO
         then MIGRATION_STATUS_COMPLETED else mig_state w) /\
      ends_with [EvLock; EvCleanupBh; EvUnlock] (added w o) /\
      well_locked (added w o)
  | Exited code _ => code = 1
  | _ => False
  end.
Proof.
  intros Hlen o. subst o. open_world w. cbn [files mig_state] in *.
  early_paths.
  all: try match goal with
       | |- match Early.colo_thread_loop ?fuel ?W with _ => _ end = _ -> _ =>
           let w1 := fresh "w1" in
           let n := fresh "n" in
           let Hn := fresh "Hn" in
           let HQ := fresh "HQ" in
           let Hs := fresh "Hs" in
           let Ho := fresh "Ho" in
           destruct (@early_loop_run fuel W) as (Hs & (n & Hn & HQ) & Ho);
           [cbn [files fid_eqb];
            pose proof (drop_bytes_length 8 (files0 Fctl)); lia|];
           destruct (Early.colo_thread_loop fuel W) as [? w1|? w1|w1|w1];
           cbn [final] in Hn, Hs; open_world w1;
           cbn [log mig_state] in Hn, Hs; subst;
           try contradiction;
           run_early; branch
       end.
  all: intros <-; cbv beta iota; try reflexivity.
  all: read_added; settled.
  all: split;
    [first [reflexivity
           | match goal with
             | H : status_eqb ?s _ = false |- _ = ?s => reflexivity
             end]|].
  all: split; [solve [find_tail]|].
  all: unfold well_locked in *; cbn [lock_walk needs_lock andb negb].
  all: first [reflexivity | rewrite lock_walk_app, HQ; reflexivity].
Qed.

Lemma early_thread_ends_witness :
  let w := primary_world [COLO_READY; COLO_CHECKPOINT_SUSPENDED;
                          COLO_CHECKPOINT_RECEIVED; COLO_CHECKPOINT_LOADED] in
  mig_state (final (Early.colo_thread 33 w)) = MIGRATION_STATUS_COMPLETED.
Proof.
  intros w.
  assert (Hlen : (length (rx (files w Fctl)) < 33)%nat)
    by (vm_compute; lia).
  pose proof (@early_thread_ends 33 w Hlen) as H. cbv zeta in H.
  destruct (Early.colo_thread 33 w) as [u w'|c w'|w'|w'] eqn:E;
    try contradiction.
  - destruct H as [H _]. exact H.
  - vm_compute in E. discriminate E.
Defined.


(** A turn of the Secondary loop of the first version. *)
Lemma early_incoming_turn_step (w : world) :
  let o := Early.colo_incoming_turn w in
  exists new,
    log (final o) = log w ++ new /\
    colo (final o) = colo w /\
    match o with
    | Done Early.Next w' =>
        tokens_out Fctl new = round_tokens /\
        (length (rx (files w' Fmig)) < length (rx (files w Fmig)))%nat
    | Done Early.Out _ => exists k, tokens_out Fctl new = firstn k round_tokens
    | Exited code _ =>
        code = 1 /\ exists k, tokens_out Fctl new = firstn k round_tokens
    | _ => False
    end.
Proof.
  intros o. subst o. open_world w. early_paths.
  all: intros <-; cbv beta iota; cbn [final log colo files rx fid_eqb]; flat.
  all: eexists; (split; [first [reflexivity | symmetry; apply app_nil_r]|]).
  all: (split; [reflexivity|]).
  all: cbn [tokens_out fid_eqb].
  all: try (split; [reflexivity|]).
  all: try (exists 0%nat; reflexivity).
  all: try (exists 1%nat; reflexivity).
  all: try (exists 2%nat; reflexivity).
  all: try (exists 3%nat; reflexivity).
  tests.
  match goal with
  | H : be_decode _ = COLO_CHECKPOINT_NEW |- _ =>
      pose proof (token_read_nonempty _ H ltac:(discriminate)) as Hne
  end.
  pose proof (drop_bytes_shrinks (n:=8) (files0 Fmig) ltac:(lia) Hne).
  pose proof (drop_bytes_length 8 (drop_bytes 8 (files0 Fmig))).
  lia.
Qed.

Lemma early_incoming_loop_unfold (fuel : nat) (w : world) :
  Early.colo_incoming_loop (S fuel) w =
  match Early.colo_incoming_turn w with
  | Done Early.Next w1 => Early.colo_incoming_loop fuel w1
  | Done Early.Out w1 => Done tt w1
  | Exited c w1 => Exited c w1
  | Hung w1 => Hung w1
  | Unfinished w1 => Unfinished w1
  end.
Proof.
  cbn [Early.colo_incoming_loop]. unfold bind, ret.
  destruct (Early.colo_incoming_turn w) as [[|] w1|c w1|w1|w1]; reflexivity.
Qed.

Lemma early_incoming_loop_run (fuel : nat) :
  forall w,
    (length (rx (files w Fmig)) < fuel)%nat ->
    let o := Early.colo_incoming_loop fuel w in
    exists new n k,
      log (final o) = log w ++ new /\
      colo (final o) = colo w /\
      tokens_out Fctl new = rounds n ++ firstn k round_tokens /\
      match o with
      | Done _ _ => True
      | Exited code _ => code = 1
      | _ => False
      end.
Proof.
  induction fuel as [|fuel IH]; intros w Hlen o; [lia|]. subst o.
  rewrite early_incoming_loop_unfold.
  destruct (early_incoming_turn_step w) as (new1 & Hnew1 & Hc & Hturn).
  destruct (Early.colo_incoming_turn w) as [[|] w1|c w1|w1|w1];
    cbn [final] in *; try contradiction.
  - destruct Hturn as [Htok Hshrink].
    destruct (IH w1 ltac:(lia)) as (new2 & n & k & Hlog & Hc2 & Htok2 & Hout).
    exists (new1 ++ new2), (S n), k. split; [|split; [|split]].
    + rewrite Hlog, Hnew1, app_assoc. reflexivity.
    + congruence.
    + rewrite tokens_out_app, Htok, Htok2. cbn [rounds].
      now rewrite app_assoc.
    + exact Hout.
  - destruct Hturn as [k Hk]. exists new1, 0%nat, k.
    repeat split; assumption.
  - destruct Hturn as [-> [k Hk]]. exists new1, 0%nat, k.
    repeat split; assumption.
Qed.

(** X24. The Secondary of the first version.  Given a turn for every byte
    of the migration stream, and one more,
    [colo_process_incoming_checkpoints] returns, or the process ends with
    status 1 on an unexpected token.  It sends READY once and then, round
    after round, SUSPENDED, RECEIVED and LOADED in this order.  When it
    returns, [colo] is NULL and [loadvm_exit_colo] is the last call. *)
Theorem early_incoming_token_order (fuel : nat) (w : world) :
  (length (rx (files w Fmig)) < fuel)%nat ->
  let o := Early.colo_process_incoming_checkpoints fuel w in
  (tokens_out Fctl (added w o) = [] \/
   exists n k,
     tokens_out Fctl (added w o)
     = COLO_READY :: rounds n ++ firstn k round_tokens) /\
  match o with
  | Done _ w' =>
      colo w' = false /\ ends_with [EvLoadvmExitColo] (added w o)
  | Exited code _ => code = 1
  | _ => False
  end.
Proof.
  intros Hlen o. subst o. open_world w. cbn [files] in Hlen.
  early_paths.
  all: try match goal with
       | |- match Early.colo_incoming_loop ?fuel ?W with _ => _ end = _ -> _ =>
           let w1 := fresh "w1" in
           let new := fresh "new" in
           let n := fresh "n" in
           let k := fresh "k" in
           let Hn := fresh "Hn" in
           let Hc := fresh "Hc" in
           let Htok := fresh "Htok" in
           let Ho := fresh "Ho" in
           destruct (@early_incoming_loop_run fuel W)
             as (new & n & k & Hn & Hc & Htok & Ho);
           [exact Hlen|];
           destruct (Early.colo_incoming_loop fuel W) as [? w1|? w1|w1|w1];
           cbn [final] in Hn, Hc; open_world w1;
           cbn [log colo] in Hn, Hc; subst;
           try contradiction;
           run_early; branch
       end.
  all: intros <-; cbv beta iota.
  all: read_added; cbn [tokens_out fid_eqb].
  all: rewrite ?tokens_out_app; cbn [tokens_out fid_eqb];
    rewrite ?app_nil_r.
  all: split;
    [first [left; reflexivity
           | right; exists 0%nat, 0%nat; reflexivity
           | right; eexists; eexists; rewrite Htok; reflexivity]|].
  all: try reflexivity.
  all: split; [reflexivity|solve [find_tail]].
Qed.

Lemma early_incoming_token_order_witness :
  let w := secondary_world
             (flat_map be64_bytes
                [COLO_CHECKPOINT_NEW; COLO_CHECKPOINT_SEND;
                 COLO_CHECKPOINT_NEW]) in
  let o := Early.colo_process_incoming_checkpoints 25 w in
  (tokens_out Fctl (added w o) = [] \/
   exists n k,
     tokens_out Fctl (added w o)
     = COLO_READY :: rounds n ++ firstn k round_tokens) /\
  match o with
  | Done _ w' =>
      colo w' = false /\ ends_with [EvLoadvmExitColo] (added w o)
  | Exited code _ => code = 1
  | _ => False
  end.
Proof.
  intros w.
  exact (@early_incoming_token_order 25 w ltac:(vm_compute; lia)).
Defined.

(** ** The checkpoint period *)

(** X25. [qmp_colo_set_checkpoint_period] stores the value as it is given,
    and the loop reads it anew at every turn.  In a turn in which no
    failover is requested and the proxy asks for nothing, the time gone
    since the last checkpoint, which is negative when the host clock has
    been set back, is compared with that value: below it the thread sleeps
    100 ms and goes on with the same [checkpoint_time]; otherwise it runs
    the transaction at once.  With a period of 0 or less, every such turn
    whose clock has not gone back runs the transaction. *)
Theorem checkpoint_period_setting
  (value checkpoint_time t : Z) (w0 w w1 w2 w3 : world) :
  qmp_colo_set_checkpoint_period value w0 = Done tt w ->
  failover_request_is_set w = Done false w1 ->
  colo_proxy_compare w1 = Done 0 w2 ->
  qemu_clock_get_ms w2 = Done t w3 ->
  - 2 ^ 63 <= t - checkpoint_time < 2 ^ 63 ->
  colo_checkpoint_period w = value /\
  colo_thread_turn checkpoint_time w =
    (if t - checkpoint_time <? value
     then Done (Again checkpoint_time) (emit (EvSleepUs (100 * 1000)) w3)
     else do_checkpoint w3) /\
  (value <= 0 -> 0 <= t - checkpoint_time ->
   colo_thread_turn checkpoint_time w = do_checkpoint w3).
Proof.
  intros H0 H1 H2 H3 Hel.
  assert (Hw : w = set_colo_checkpoint_period value w0).
  { revert H0. unfold qmp_colo_set_checkpoint_period, modify.
    intros E. apply Done_inj in E. now destruct E as [_ <-]. }
  subst w. clear H0.
  assert (Hturn :
    colo_thread_turn checkpoint_time (set_colo_checkpoint_period value w0) =
    (if t - checkpoint_time <? value
     then Done (Again checkpoint_time) (emit (EvSleepUs (100 * 1000)) w3)
     else do_checkpoint w3)).
  { revert H1 H2 H3. unfold colo_thread_turn. generalize do_checkpoint.
    intros dc. open_world w0. run.
    intros H1 H2 H3.
    apply Done_inj in H1; destruct H1 as [H1 <-].
    apply Done_inj in H2; destruct H2 as [H2 <-].
    apply Done_inj in H3; destruct H3 as [<- <-].
    rewrite H1. cbv beta iota. rewrite H2. cbv beta iota.
    change (0 <? 0) with false. change (negb (0 =? 0)) with false.
    cbv beta iota.
    rewrite wrap_s64_small by exact Hel.
    destruct (wrap_s64 (hd 0 (env0 OClock)) - checkpoint_time <? value);
      reflexivity. }
  split; [destruct w0; reflexivity|]. split; [exact Hturn|].
  intros Hv He. rewrite Hturn.
  replace (t - checkpoint_time <? value) with false
    by (symmetry; apply Z.ltb_ge; lia).
  reflexivity.
Qed.

Lemma checkpoint_period_setting_witness :
  let w0 := with_script OClock [250] (primary_world []) in
  let w := final (qmp_colo_set_checkpoint_period 200 w0) in
  let w1 := final (failover_request_is_set w) in
  let w2 := final (colo_proxy_compare w1) in
  let w3 := final (qemu_clock_get_ms w2) in
  colo_thread_turn 100 w =
  Done (Again 100) (emit (EvSleepUs (100 * 1000)) w3).
Proof.
  intros w0 w w1 w2 w3.
  refine (proj1 (proj2 (@checkpoint_period_setting 200 100 250 w0 w w1 w2 w3
                          eq_refl eq_refl eq_refl eq_refl _))).
  lia.
Defined.

(** ** The order of a whole session *)

Lemma walk_app (State : Type) (step : State -> event -> option State)
    (a b : list event) :
  forall s,
    walk step s (a ++ b) =
    match walk step s a with
    | Some s' => walk step s' b
    | None => None
    end.
Proof.
  induction a as [|e a IH]; intros s; [reflexivity|].
  cbn [app walk]. destruct (step s e); [apply IH | reflexivity].
Qed.

(** A session allows whatever a round allows. *)
Lemma primary_session_extends (l : list event) :
  forall p r,
    walk primary_step p l = Some r -> walk primary_session_step p l = Some r.
Proof.
  induction l as [|e l IH]; intros p r; cbn [walk]; [easy|].
  unfold primary_session_step at 1.
  destruct (primary_step p e); [apply IH | discriminate].
Qed.

(** A round may start wherever the Primary is idle. *)
Lemma primary_session_restarts (l : list event) :
  forall q r,
    primary_idle q = true ->
    walk primary_step P_start l = Some r ->
    exists r',
      walk primary_session_step q l = Some r' /\
      (primary_idle r = true -> primary_idle r' = true).
Proof.
  induction l as [|e l IH]; intros q r Hq; cbn [walk].
  - intros [= <-]. exists q. now split.
  - destruct (primary_step P_start e) as [p|] eqn:He; [|discriminate].
    intros Hw.
    assert (Hcases :
      (p = P_start /\ primary_session_step q e = Some q) \/
      primary_session_step q e = Some p).
    { destruct e; try (destruct f); try (destruct write);
        cbn in He; try discriminate He;
        try (left; split; [congruence|];
             destruct q; try discriminate Hq; reflexivity).
      right.
      match type of He with
      | (if ?c then _ else _) = _ => destruct c eqn:Hv; [|discriminate]
      end.
      injection He as <-. apply Z.eqb_eq in Hv. subst v.
      destruct q; try discriminate Hq; reflexivity. }
    destruct Hcases as [[-> Hs]| Hs]; rewrite Hs.
    + now apply IH.
    + exists r. split; [now apply primary_session_extends | easy].
Qed.

Lemma transaction_walk (w : world) :
  let o := colo_do_checkpoint_transaction w in
  exists p,
    walk primary_step P_start (added w o) = Some p /\
    match o with
    | Done 0 _ => primary_idle p = true
    | _ => True
    end.
Proof.
  intros o. subst o. open_world w.
  paths_of colo_do_checkpoint_transaction.
  all: read_added; settled.
  all: cbn [walk primary_step]; rewrite ?Z.eqb_refl.
  all: repeat match goal with
       | H : (?r <? 0) = true |- context [match ?r with _ => _ end] =>
           destruct r; try discriminate H
       end.
  all: split_tests.
  all: eexists; (split; [reflexivity|]); first [exact I | reflexivity].
Qed.

Section Pieces.

Variable State : Type.
Variable step : State -> event -> option State.
Variable idle : State -> bool.

Lemma silent_nil : silent step [].
Proof. intros s. reflexivity. Qed.

Lemma silent_app (a b : list event) :
  silent step a -> silent step b -> silent step (a ++ b).
Proof. intros Ha Hb s. now rewrite walk_app, Ha. Qed.

Lemma silent_piece {A} (g : A -> bool) (m : M A) :
  keeps (fun _ => True) (silent step) m -> piece step idle g m.
Proof.
  intros Hm w q Hq. destruct (Hm w I) as [_ (n & Hn & HQ)].
  exists n, q. repeat split; trivial.
  destruct (m w); trivial.
Qed.

Lemma piece_after_silence {A B} (g : B -> bool) (m : M A) (k : A -> M B) :
  keeps (fun _ => True) (silent step) m ->
  (forall a, piece step idle g (k a)) ->
  piece step idle g (bind m k).
Proof.
  intros Hm Hk w q Hq. unfold bind.
  destruct (Hm w I) as [_ (n & Hn & HQ)].
  destruct (m w) as [a w1|c w1|w1|w1]; cbn [final] in *;
    try (exists n, q; repeat split; trivial; fail).
  destruct (Hk a w1 q Hq) as (n' & p & Hn' & Hw & Hp).
  exists (n ++ n'), p. repeat split; trivial.
  - rewrite Hn', Hn, app_assoc. reflexivity.
  - now rewrite walk_app, HQ.
Qed.

Lemma piece_bind {A B} (ga : A -> bool) (gb : B -> bool)
    (m : M A) (k : A -> M B) :
  piece step idle ga m ->
  (forall a, keeps (fun _ => True) (silent step) (k a)) ->
  (forall a w,
     ga a = false ->
     match k a w with Done b _ => gb b = false | _ => True end) ->
  piece step idle gb (bind m k).
Proof.
  intros Hm Hk Hstop w q Hq. unfold bind.
  destruct (Hm w q Hq) as (n & p & Hn & Hw & Hp).
  destruct (m w) as [a w1|c w1|w1|w1]; cbn [final] in *;
    try (exists n, p; repeat split; trivial; fail).
  destruct (Hk a w1 I) as [_ (n' & Hn' & HQ')].
  exists (n ++ n'), p. repeat split.
  - rewrite Hn', Hn, app_assoc. reflexivity.
  - now rewrite walk_app, Hw.
  - specialize (Hstop a w1). destruct (k a w1) as [b ?| | |]; trivial.
    intros Hb. apply Hp. destruct (ga a); [reflexivity|].
    rewrite Hstop in Hb; [discriminate|reflexivity].
Qed.

Lemma piece_then {A B} (ga : A -> bool) (gb : B -> bool)
    (m : M A) (k : A -> M B) :
  piece step idle ga m ->
  (forall a, ga a = true -> piece step idle gb (k a)) ->
  (forall a, ga a = false -> keeps (fun _ => True) (silent step) (k a)) ->
  (forall a w,
     ga a = false ->
     match k a w with Done b _ => gb b = false | _ => True end) ->
  piece step idle gb (bind m k).
Proof.
  intros Hm Hgo Hk Hstop w q Hq. unfold bind.
  destruct (Hm w q Hq) as (n & p & Hn & Hw & Hp).
  destruct (m w) as [a w1|c w1|w1|w1]; cbn [final] in *;
    try (exists n, p; repeat split; trivial; fail).
  destruct (ga a) eqn:Ha.
  - destruct (Hgo a Ha w1 p (Hp eq_refl)) as (n' & p' & Hn' & Hw' & Hp').
    exists (n ++ n'), p'. repeat split; trivial.
    + rewrite Hn', Hn, app_assoc. reflexivity.
    + now rewrite walk_app, Hw.
  - destruct (Hk a Ha w1 I) as [_ (n' & Hn' & HQ')].
    exists (n ++ n'), p. repeat split.
    + rewrite Hn', Hn, app_assoc. reflexivity.
    + now rewrite walk_app, Hw.
    + specialize (Hstop a w1 Ha). destruct (k a w1) as [b ?| | |]; trivial.
      intros Hb. rewrite Hstop in Hb. discriminate.
Qed.

End Pieces.

Lemma transaction_piece :
  piece primary_session_step primary_idle (fun r => r =? 0)
    colo_do_checkpoint_transaction.
Proof.
  intros w q Hq.
  destruct (@transaction_locks w I) as [_ (n & Hn & _)].
  pose proof (transaction_walk w) as Hw. cbv zeta in Hw.
  rewrite (@added_app _ _ _ _ Hn) in Hw. destruct Hw as (p & Hw & Hp).
  destruct (@primary_session_restarts n q p Hq Hw) as (r' & Hr' & Hidle).
  exists n, r'. repeat split; trivial.
  destruct (colo_do_checkpoint_transaction w) as [r ?| | |]; trivial.
  intros Hr. apply Z.eqb_eq in Hr. subst r. auto.
Qed.

(** Every path of a function whose calls leave the phase as it is. *)
Ltac silent_paths :=
  let w := fresh "w" in
  intros w _; split; [exact I|]; open_world w;
  match goal with |- context [final ?o] => paths o end;
  cbn [final log]; flat;
  eexists; (split; [first [reflexivity | symmetry; apply app_nil_r]|]);
  intros ?; reflexivity.

Ltac piece_step :=
  lazymatch goal with
  | |- piece _ _ _ (if ?c then _ else _) => destruct c
  | |- piece _ _ _ (bind _ _) =>
      apply piece_after_silence; [unfold keeps; silent_paths|intros ?]
  | |- piece _ _ _ _ =>
      first [assumption | apply silent_piece; unfold keeps; silent_paths]
  end.

Lemma do_checkpoint_piece :
  piece primary_session_step primary_idle turn_goes_on do_checkpoint.
Proof.
  unfold do_checkpoint.
  apply piece_bind with (ga := fun r => r =? 0);
    [exact transaction_piece| |].
  - intros r. unfold keeps. silent_paths.
  - intros r w Hr. rewrite Hr. reflexivity.
Qed.

Lemma turn_piece (checkpoint_time : Z) :
  piece primary_session_step primary_idle turn_goes_on
    (colo_thread_turn checkpoint_time).
Proof.
  pose proof do_checkpoint_piece as Hd.
  unfold colo_thread_turn. unfold_collaborators.
  repeat piece_step.
Qed.

Lemma thread_loop_piece (fuel : nat) :
  forall checkpoint_time,
    piece primary_session_step primary_idle (fun _ : unit => false)
      (colo_thread_loop fuel checkpoint_time).
Proof.
  induction fuel as [|fuel IH]; intros ct; cbn [colo_thread_loop];
    (apply piece_after_silence; [unfold keeps; silent_paths|]); intros state;
    destruct (negb (status_eqb state MIGRATION_STATUS_COLO));
    try (apply silent_piece; unfold keeps; silent_paths).
  apply piece_then with (ga := turn_goes_on); [apply turn_piece| | |].
  - intros [ct'|]; [intros _; apply IH|discriminate].
  - intros [ct'|]; [discriminate|intros _; unfold keeps; silent_paths].
  - intros [ct'|] w0; [discriminate|reflexivity].
Qed.

(** X26. The order of a whole session of the Primary.  In every run of
    [colo_thread], however it ends, the thread first reads READY and then
    goes round by round: NEW, SUSPENDED read, the buffer opened for write,
    SEND, the size and the payload, RECEIVED and LOADED read,
    GUEST_SHUTDOWN if at all.  A new round starts only after LOADED or
    GUEST_SHUTDOWN, or after an opening of the buffer that has failed;
    nothing is put or read after a value other than the expected token has
    been read. *)
Theorem primary_session_order (fuel : nat) (w : world) :
  exists p,
    walk primary_session_step P_init (added w (colo_thread fuel w)) = Some p.
Proof.
  pose proof (thread_loop_piece fuel) as Hlp.
  unfold colo_thread. revert Hlp. generalize (colo_thread_loop fuel).
  intros lp Hlp. open_world w.
  match goal with
  | |- context [added _ ?o] =>
      remember o as o' eqn:Ho; symmetry in Ho; revert Ho
  end.
  run; branch.
  all: try (intros <-; read_added; settled;
            cbn [walk primary_session_step primary_step primary_idle];
            rewrite ?Z.eqb_refl; split_tests; eexists; reflexivity).
  match goal with
  | |- match lp ?ct ?W with _ => _ end = _ -> _ =>
      destruct (Hlp ct W P_start eq_refl) as (n & p & Hn & Hw & _);
      destruct (lp ct W) as [? w1|? w1|w1|w1]; cbn [final] in Hn;
      open_world w1; cbn [log] in Hn; subst
  end.
  all: run; branch; intros <-; read_added; settled.
  all: cbn [walk primary_session_step primary_step primary_idle];
    rewrite ?Z.eqb_refl.
  all: first [rewrite walk_app, Hw | rewrite Hw].
  all: cbn [walk primary_session_step primary_step primary_idle].
  all: eexists; reflexivity.
Qed.

Lemma secondary_session_extends (l : list event) :
  forall p r,
    walk secondary_step p l = Some r ->
    walk secondary_session_step p l = Some r.
Proof.
  induction l as [|e l IH]; intros p r; cbn [walk]; [easy|].
  unfold secondary_session_step at 1.
  destruct (secondary_step p e); [apply IH | discriminate].
Qed.

Lemma secondary_session_restarts (l : list event) :
  forall q r,
    secondary_idle q = true ->
    walk secondary_step S_start l = Some r ->
    exists r',
      walk secondary_session_step q l = Some r' /\
      (secondary_idle r = true -> secondary_idle r' = true).
Proof.
  induction l as [|e l IH]; intros q r Hq; cbn [walk].
  - intros [= <-]. exists q. now split.
  - destruct (secondary_step S_start e) as [p|] eqn:He; [|discriminate].
    intros Hw.
    assert (Hcases :
      (p = S_start /\ secondary_session_step q e = Some q) \/
      secondary_session_step q e = Some p).
    { destruct e; try (destruct f); cbn in He; try discriminate He;
        try (left; split; [congruence|];
             destruct q; try discriminate Hq; reflexivity).
      right. injection He as <-.
      destruct q; try discriminate Hq; reflexivity. }
    destruct Hcases as [[-> Hs]| Hs]; rewrite Hs.
    + now apply IH.
    + exists r. split; [now apply secondary_session_extends | easy].
Qed.

Lemma incoming_turn_walk (w : world) :
  let o := colo_incoming_turn w in
  exists p,
    walk secondary_step S_start (added w o) = Some p /\
    match o with
    | Done Next _ => secondary_idle p = true
    | _ => True
    end.
Proof.
  intros o. subst o. open_world w.
  paths_of colo_incoming_turn.
  all: read_added; settled.
  all: cbn [walk secondary_step]; rewrite ?Z.eqb_refl.
  all: split_tests.
  all: eexists; (split; [reflexivity|]); first [exact I | reflexivity].
Qed.

Lemma incoming_turn_piece :
  piece secondary_session_step secondary_idle incoming_goes_on
    colo_incoming_turn.
Proof.
  intros w q Hq.
  destruct (@incoming_turn_locks w I) as [_ (n & Hn & _)].
  pose proof (incoming_turn_walk w) as Hw. cbv zeta in Hw.
  rewrite (@added_app _ _ _ _ Hn) in Hw. destruct Hw as (p & Hw & Hp).
  destruct (@secondary_session_restarts n q p Hq Hw) as (r' & Hr' & Hidle).
  exists n, r'. repeat split; trivial.
  destruct (colo_incoming_turn w) as [[|fb] ?| | |]; trivial.
  - intros _. auto.
  - discriminate.
Qed.

Lemma incoming_loop_piece (fuel : nat) :
  piece secondary_session_step secondary_idle (fun _ : bool => false)
    (colo_incoming_loop fuel).
Proof.
  induction fuel as [|fuel IH]; cbn [colo_incoming_loop];
    [apply silent_piece; unfold keeps; silent_paths|].
  apply piece_then with (ga := incoming_goes_on);
    [apply incoming_turn_piece| | |].
  - intros [|fb]; [intros _; apply IH|discriminate].
  - intros [|fb]; [discriminate|intros _; unfold keeps; silent_paths].
  - intros [|fb] w0; [discriminate|reflexivity].
Qed.

(** X27. The order of a whole session of the Secondary.  In every run of
    [colo_process_incoming_checkpoints], however it ends, the thread first
    sends READY and then goes round by round: NEW read, SUSPENDED sent,
    SEND and the size read, the payload received, RECEIVED and LOADED
    sent.  A command is read only before the first round and after LOADED;
    nothing is sent or read after a value other than the expected token
    has been read. *)
Theorem secondary_session_order (w : world) :
  exists p,
    walk secondary_session_step S_init
      (added w (colo_process_incoming_checkpoints w)) = Some p.
Proof.
  pose proof incoming_loop_piece as Hlp.
  open_world w.
  match goal with
  | |- context [added _ ?o] =>
      remember o as o' eqn:Ho; symmetry in Ho; revert Ho
  end.
  run; branch.
  all: try (intros <-; read_added; settled;
            repeat (progress
                      (cbn [walk secondary_session_step secondary_step
                            secondary_idle COLO_READY Z.eqb Pos.eqb];
                       rewrite ?Z.eqb_refl));
            split_tests; eexists; reflexivity).
  match goal with
  | |- match colo_incoming_loop ?fuel ?W with _ => _ end = _ -> _ =>
      destruct (Hlp fuel W S_start eq_refl) as (n & p & Hn & Hw & _);
      destruct (colo_incoming_loop fuel W) as [? w1|? w1|w1|w1];
      cbn [final] in Hn; open_world w1; cbn [log] in Hn; subst
  end.
  all: run; branch; intros <-; read_added; settled.
  all: repeat (progress
                 (cbn [walk secondary_session_step secondary_step
                       secondary_idle COLO_READY Z.eqb Pos.eqb];
                  rewrite ?Z.eqb_refl)).
  all: first [rewrite walk_app, Hw | rewrite Hw].
  all: cbn [walk secondary_session_step secondary_step secondary_idle].
  all: eexists; reflexivity.
Qed.
